(** * Beam-search decoding of [Spec2Pep] (casanovo_modeling.py)

    A shallow embedding of the decoding core of
    [pynovo/models/casanovo/casanovo_modeling.py]: the precursor mass error,
    the per-step classification of beams ([_finish_beams]), the cache of
    finished beams ([_cache_finished_beams], a [heapq] heap per spectrum),
    the selection of continuations ([_get_topk_beams]) and the extraction of
    the best peptides ([_get_top_peptide]).

    Numbers.  Python floats and NumPy float64 values are binary64 numbers:
    they are Rocq's primitive floats, so every definition below computes
    with the rounding, the infinities and the NaN of IEEE 754.  Tensor
    entries are read at the same precision (the file does not fix the
    tensors' dtype: [scores.type_as(spectra)]).  Python ints are [Z] (token
    ids, charges, isotope offsets) or [nat] (lengths, positions, the
    decoding step, the non-negative settings).  Tensor rows are lists.

    Exceptions.  Code that can raise returns a [result]; the only handler in
    the modelled code is the [except KeyError] of [_finish_beams]. *)

From Stdlib Require Import ZArith Lia Floats String Ascii.
From stdpp Require Import base tactics option list numbers sorting strings.

Set Warnings "-inexact-float".
Local Open Scope Z_scope.

(** ** Exceptions and the error monad *)

Inductive exn : Set :=
  | KeyError | IndexError | ValueError | RuntimeError | ZeroDivisionError.

Inductive result (A : Type) : Type :=
  | Ok (a : A)
  | Raise (e : exn).
Arguments Ok {A} a.
Arguments Raise {A} e.

Definition bind {A B} (m : result A) (k : A -> result B) : result B :=
  match m with
  | Ok a => k a
  | Raise e => Raise e
  end.

Notation "'let*' x ':=' m 'in' k" := (bind m (fun x => k))
  (at level 10, x pattern, m at level 100, k at level 200).

Definition is_Ok {A} (m : result A) : Prop :=
  match m with Ok _ => True | Raise _ => False end.

(** Python's [int -> float] conversion in mixed arithmetic, for ints of
    magnitude below 2^63 (rounding to nearest, ties to even; exact below
    2^53). *)
Definition float_of_Z (z : Z) : float :=
  if z <? 0 then (- of_uint63 (Uint63.of_Z (- z)))%float
  else of_uint63 (Uint63.of_Z z).

Definition float_of_nat (n : nat) : float := float_of_Z (Z.of_nat n).

(** ** The model object

    The attributes of [Spec2Pep] that decoding reads.  [residues] is the
    dict [peptide_mass_calculator.masses], in insertion order;
    [softmax] is [torch.nn.Softmax(2)] restricted to one row of scores
    over the vocabulary, which this file does not define. *)

Record Spec2Pep : Type := {
  residues : list (string * float);
  reverse_decoder : bool;
  softmax : list float -> list float;
  max_length : nat;
  precursor_mass_tol : float;
  isotope_error_range : Z * Z;
  min_peptide_len : nat;
  n_beams : nat;
  top_match : nat
}.

(** One row of [precursors]: mass, charge and m/z. *)
Record Precursor : Type := {
  precursor_mass : float;
  precursor_charge : Z;
  precursor_mz : float
}.

(** ** The vocabulary (depthcharge)

    [PeptideDecoder] numbers the residues of the mass table from 1, in
    order, and the stop token ["$"] after them; 0 is padding.
    [_aa2idx] is built from [_idx2aa] by a dict comprehension, so for a
    name that occurs twice the later index is the one kept. *)

Definition amino_acids (self : Spec2Pep) : list string :=
  (residues self).*1 ++ ["$"%string].

Definition vocab_size (self : Spec2Pep) : nat := length (amino_acids self).

Definition _idx2aa (self : Spec2Pep) (i : Z) : option string :=
  if i <=? 0 then None else amino_acids self !! Z.to_nat (i - 1).

Fixpoint dict_of_names (i : Z) (names : list string) (aa : string) : option Z :=
  match names with
  | [] => None
  | a :: names' =>
      match dict_of_names (i + 1) names' aa with
      | Some j => Some j
      | None => if String.eqb a aa then Some i else None
      end
  end.

Definition _aa2idx (self : Spec2Pep) (aa : string) : option Z :=
  dict_of_names 1 (amino_acids self) aa.

(** [self.stop_token = self.decoder._aa2idx["$"]]. *)
Definition stop_token (self : Spec2Pep) : Z :=
  default 0 (_aa2idx self "$").

(** [masses[aa]]: [None] is the [KeyError] of the lookup. *)
Fixpoint masses_get (masses : list (string * float)) (aa : string) : option float :=
  match masses with
  | [] => None
  | (a, m) :: masses' => if String.eqb a aa then Some m else masses_get masses' aa
  end.

(** [detokenize]: names of the tokens ([""] for an id that is no key of
    [_idx2aa]), cut after the first ["$"], reversed for a reversing
    decoder. *)
Fixpoint index_of (x : string) (l : list string) : option nat :=
  match l with
  | [] => None
  | y :: l' => if String.eqb y x then Some 0%nat else S <$> index_of x l'
  end.

Definition detokenize (self : Spec2Pep) (tokens : list Z) : list string :=
  let sequence := (fun i => default ""%string (_idx2aa self i)) <$> tokens in
  let sequence :=
    match index_of "$" sequence with
    | Some idx => take (S idx) sequence
    | None => sequence
    end in
  if reverse_decoder self then reverse sequence else sequence.

(** [PeptideMass.mass(seq, charge)]:
    [(sum(masses[aa] for aa in seq) + h2o) / charge + proton]. *)
Definition hydrogen : float := 1.007825035.
Definition oxygen : float := 15.99491463.
Definition h2o : float := (2 * hydrogen + oxygen)%float.
Definition proton : float := 1.00727646688.

Fixpoint lookup_masses (masses : list (string * float)) (seq : list string)
  : option (list float) :=
  match seq with
  | [] => Some []
  | aa :: seq' =>
      match masses_get masses aa with
      | None => None
      | Some m =>
          match lookup_masses masses seq' with
          | None => None
          | Some ms => Some (m :: ms)
          end
      end
  end.

Definition float_sum (l : list float) : float := foldl PrimFloat.add 0%float l.

Definition peptide_mass (self : Spec2Pep) (seq : list string) (charge : Z)
  : option float :=
  match lookup_masses (residues self) seq with
  | None => None
  | Some ms => Some ((float_sum ms + h2o) / float_of_Z charge + proton)%float
  end.

(** ** Mass error and the tolerance checks *)

(** [_calc_mass_error].  The divisions are IEEE divisions, as on the
    tensor entries [_finish_beams] passes. *)
Definition _calc_mass_error (calc_mz obs_mz : float) (charge isotope : Z) : float :=
  ((calc_mz - (obs_mz - float_of_Z isotope * 1.00335 / float_of_Z charge))
   / obs_mz * float_of_Z (10 ^ 6))%float.

(** The formula of the specification, in its words:
    [(calculatedMz - (observedMz - isotopeOffset * 1.00335 / charge))
     / observedMz * 1e6]. *)
Definition spec_massErrorPpm (calculatedMz observedMz : float)
    (charge isotopeOffset : Z) : float :=
  ((calculatedMz - (observedMz - float_of_Z isotopeOffset * 1.00335 / float_of_Z charge))
   / observedMz * 1e6)%float.

(** [range(isotope_error_range[0], isotope_error_range[1] + 1)]. *)
Definition isotope_range (self : Spec2Pep) : list Z :=
  let '(lo, hi) := isotope_error_range self in seqZ lo (hi + 1 - lo).

(** The list [delta_mass_ppm] of [_finish_beams]. *)
Definition delta_mass_ppm (self : Spec2Pep) (calc_mz : float) (prec : Precursor)
  : list float :=
  (fun isotope =>
     _calc_mass_error calc_mz (precursor_mz prec) (precursor_charge prec) isotope)
  <$> isotope_range self.

(** [any(abs(d) < self.precursor_mass_tol for d in delta_mass_ppm)]. *)
Definition any_within_tol (self : Spec2Pep) (delta : list float) : bool :=
  existsb (fun d => (abs d <? precursor_mass_tol self)%float) delta.

(** [all(d > self.precursor_mass_tol for d in delta_mass_ppm)]. *)
Definition all_above_tol (self : Spec2Pep) (delta : list float) : bool :=
  forallb (fun d => (precursor_mass_tol self <? d)%float) delta.

(** ** [_finish_beams] *)

(** [aa_neg_mass]: [None], then the residues of negative mass. *)
Definition aa_neg_mass (self : Spec2Pep) : list (option string) :=
  None :: (Some <$> (filter (fun p => (p.2 <? 0)%float = true) (residues self)).*1).

Definition starts_plus_minus (aa : string) : bool :=
  String.prefix "+" aa || String.prefix "-" aa.

(** [n_term]: the ids of the residues whose name starts with + or -. *)
Definition n_term (self : Spec2Pep) : list Z :=
  omap (_aa2idx self)
       (filter (fun aa => starts_plus_minus aa = true) (residues self).*1).

Definition isin (t : Z) (l : list Z) : bool := bool_decide (t ∈ l).

(** [tokens[i, j]] for the row [i] of [tokens].  Past the end of the row
    the read is an [IndexError], which [_finish_beams] raises before it
    classifies any beam; [token_at] reads 0 there. *)
Definition token_at (row : list Z) (j : nat) : Z := default 0 (row !! j).

(** [ends_stop_token[i]], for the row [i] of [tokens]. *)
Definition ends_stop_token (self : Spec2Pep) (row : list Z) (step : nat) : bool :=
  bool_decide (token_at row step = stop_token self).

(** [final_pos[i]]. *)
Definition final_pos (self : Spec2Pep) (row : list Z) (step : nat) : nat :=
  if ends_stop_token self row step then (step - 1)%nat else step.

Definition multiple_mods (self : Spec2Pep) (row : list Z) (step : nat) : bool :=
  isin (token_at row (final_pos self row step)) (n_term self)
  && isin (token_at row (final_pos self row step - 1)) (n_term self).

(** [mask[i][j]] is [final_pos[i] - 1 >= j]; a masked-out entry reads 0. *)
Definition internal_mods (self : Spec2Pep) (row : list Z) (step : nat) : bool :=
  existsb id
    (imap (fun j t =>
             isin (if bool_decide (j <= final_pos self row step - 1)%nat then t else 0)
                  (n_term self))
          row).

(** What the block under [if step > 1] adds to [discarded_beams[i]]. *)
Definition invalid_mods (self : Spec2Pep) (row : list Z) (step : nat) : bool :=
  if (1 <? step)%nat
  then multiple_mods self row step || internal_mods self row step
  else false.

(** [pred_tokens], the detokenized peptide with the stop token omitted,
    and [peptide_len]. *)
Definition pred_tokens (row : list Z) (step : nat) : list Z := take (S step) row.

Definition peptide_of (self : Spec2Pep) (row : list Z) (step : nat)
  : list string * nat :=
  let peptide := detokenize self (pred_tokens row step) in
  let peptide_len := length (pred_tokens row step) in
  if reverse_decoder self && bool_decide (head peptide = Some "$"%string)
  then (tail peptide, (peptide_len - 1)%nat)
  else if negb (reverse_decoder self) && bool_decide (last peptide = Some "$"%string)
  then (removelast peptide, (peptide_len - 1)%nat)
  else (peptide, peptide_len).

(** The loop [for aa in [None] if finished_beams[i] else aa_neg_mass],
    from the values of [matches_precursor_mz] and [exceeds_precursor_mz]
    so far to their values after the loop. *)
Fixpoint precursor_loop (self : Spec2Pep) (finished : bool) (peptide : list string)
    (prec : Precursor) (variants : list (option string)) (acc : bool * bool)
  : bool * bool :=
  match variants with
  | [] => acc
  | aa :: variants' =>
      let calc_peptide :=
        match aa with None => peptide | Some a => peptide ++ [a] end in
      match peptide_mass self calc_peptide (precursor_charge prec) with
      | None => precursor_loop self finished peptide prec variants' (false, false)
      | Some calc_mz =>
          let delta := delta_mass_ppm self calc_mz prec in
          let matches_precursor_mz :=
            bool_decide (aa = None) && any_within_tol self delta in
          let exceeds_precursor_mz :=
            if matches_precursor_mz then false
            else (finished || negb (bool_decide (aa = None)))
                 && all_above_tol self delta in
          if matches_precursor_mz || exceeds_precursor_mz
          then (matches_precursor_mz, exceeds_precursor_mz)
          else precursor_loop self finished peptide prec variants'
                 (matches_precursor_mz, exceeds_precursor_mz)
      end
  end.

(** One beam of [_finish_beams]: the entries [i] of [finished_beams],
    [beam_fits_precursor] and [discarded_beams] that it returns. *)
Definition finish_beam (self : Spec2Pep) (row : list Z) (prec : Precursor)
    (step : nat) : bool * bool * bool :=
  let finished := ends_stop_token self row step in
  let discarded := bool_decide (token_at row step = 0) || invalid_mods self row step in
  if discarded then (finished, false, true)
  else
    let '(peptide, peptide_len) := peptide_of self row step in
    if finished && (peptide_len <? min_peptide_len self)%nat
    then (finished, false, true)
    else
      let '(matches_precursor_mz, exceeds_precursor_mz) :=
        precursor_loop self finished peptide prec
          (if finished then [None] else aa_neg_mass self) (false, false) in
      if finished then (true, matches_precursor_mz, false)
      else if exceeds_precursor_mz then (true, matches_precursor_mz, false)
      else (false, false, false).

(** [_finish_beams(tokens, precursors, step)].  Reading column [step] of
    a shorter row is an [IndexError], and so is reading a missing row of
    [precursors]; the source reads the precursor of the beams that reach
    the mass evaluation, and the model asks for a precursor for every
    beam. *)
Definition _finish_beams (self : Spec2Pep) (tokens : list (list Z))
    (precursors : list Precursor) (step : nat)
  : result (list bool * list bool * list bool) :=
  if forallb (fun row => (step <? length row)%nat) tokens
     && (length tokens <=? length precursors)%nat
  then
    let r := zip_with (fun row prec => finish_beam self row prec step)
                      tokens precursors in
    Ok ((fun x => x.1.1) <$> r, (fun x => x.1.2) <$> r, (fun x => x.2) <$> r)
  else Raise IndexError.

(** The modification rule in the specification's words: (a) the final
    content position and the one before it both hold N-terminal
    modifications, or (b) an N-terminal modification stands strictly before
    the final content position minus one. *)
Definition spec_mods_discard (self : Spec2Pep) (row : list Z) (step : nat) : Prop :=
  let fp := final_pos self row step in
  (token_at row fp ∈ n_term self /\ token_at row (fp - 1) ∈ n_term self)
  \/ (exists j : nat, (j < fp - 1)%nat /\ token_at row j ∈ n_term self).

(** ** Scores of a finished beam *)

(** [np.mean] of a float64 array: [np.add.reduce] over the entries, over
    their number (NaN for the empty array).  NumPy adds the entries of a
    contiguous array by pairwise summation: fewer than 8 entries are added
    from left to right; up to 128 entries are added as 8 interleaved
    partial sums, which are then added in pairs, and the entries after
    the last full block of 8 are added to the result; a longer array is
    split in two parts, the first of a length that is a multiple of 8,
    which are summed on their own. *)
Fixpoint add_blocks (r a : list float) (blocks : nat) : list float :=
  match blocks with
  | O => r
  | S blocks => add_blocks (zip_with PrimFloat.add r (take 8 a)) (drop 8 a) blocks
  end.

Definition pairwise_block (a : list float) : float :=
  let n := length a in
  match add_blocks (take 8 a) (drop 8 a) (n / 8 - 1) with
  | [r0; r1; r2; r3; r4; r5; r6; r7] =>
      foldl PrimFloat.add (((r0 + r1) + (r2 + r3)) + ((r4 + r5) + (r6 + r7)))%float
        (drop (8 * (n / 8)) a)
  | _ => 0%float
  end.

(** The recursion halves the array: [length a] is fuel enough. *)
Fixpoint pairwise_sum (fuel : nat) (a : list float) : float :=
  let n := length a in
  if (n <? 8)%nat then float_sum a
  else if (n <=? 128)%nat then pairwise_block a
  else
    match fuel with
    | O => 0%float
    | S fuel =>
        let n2 := (n / 2 - (n / 2) mod 8)%nat in
        (pairwise_sum fuel (take n2 a) + pairwise_sum fuel (drop n2 a))%float
    end.

Definition np_sum (a : list float) : float :=
  (0 + pairwise_sum (length a) a)%float.

Definition np_mean (a : list float) : float :=
  (np_sum a / float_of_nat (length a))%float.

(** [_aa_pep_score]. *)
Definition _aa_pep_score (aa_scores : list float) (fits_precursor_mz : bool)
  : list float * float :=
  let peptide_score := np_mean aa_scores in
  let aa_scores := (fun x => ((x + peptide_score) / 2)%float) <$> aa_scores in
  let peptide_score :=
    if negb fits_precursor_mz then (peptide_score - 1)%float else peptide_score in
  (aa_scores, peptide_score).

(** The two formulas of the specification, in its order: the peptide
    score is penalised first, and the amino acid scores are averaged with
    the penalised score. *)
Definition spec_aa_pep_score (perResidueScores : list float) (fitsPrecursor : bool)
  : list float * float :=
  let peptideScore := np_mean perResidueScores in
  let peptideScore :=
    if negb fitsPrecursor then (peptideScore - 1)%float else peptideScore in
  ((fun x => ((x + peptideScore) / 2)%float) <$> perResidueScores, peptideScore).

(** ** Comparing cache entries

    An entry of the cache is the tuple [(peptide_score, aa_scores,
    pred_peptide)]: a float, a NumPy array and a tensor.  Python compares
    tuples item by item: it looks for the first pair of items that are not
    [==] and compares those.  [==] and [<] on arrays and tensors work
    entry by entry, and the truth value of their result exists only when
    it has exactly one entry: [ValueError] for an array and [RuntimeError]
    for a tensor otherwise (for an empty array too, as NumPy raises since
    2.2). *)

Definition Pred : Type := float * list float * list Z.

Definition peptide_score (p : Pred) : float := p.1.1.
Definition aa_scores (p : Pred) : list float := p.1.2.
Definition pred_peptide (p : Pred) : list Z := p.2.

Definition elementwise {A} (e : exn) (f : A -> A -> bool) (x y : list A)
  : result (list bool) :=
  match x, y with
  | [a], _ => Ok (f a <$> y)
  | _, [b] => Ok ((fun a => f a b) <$> x)
  | _, _ => if (length x =? length y)%nat then Ok (zip_with f x y) else Raise e
  end.

Definition truth (e : exn) (a : list bool) : result bool :=
  match a with
  | [b] => Ok b
  | _ => Raise e
  end.

Definition array_cmp (f : float -> float -> bool) (x y : list float) : result bool :=
  let* r := elementwise ValueError f x y in truth ValueError r.

Definition tensor_cmp (f : Z -> Z -> bool) (x y : list Z) : result bool :=
  let* r := elementwise RuntimeError f x y in truth RuntimeError r.

Inductive cmp_op : Set := Py_LT | Py_GT | Py_EQ.

Definition float_op (op : cmp_op) (x y : float) : bool :=
  match op with
  | Py_LT => (x <? y)%float
  | Py_GT => (y <? x)%float
  | Py_EQ => (x =? y)%float
  end.

Definition int_op (op : cmp_op) (x y : Z) : bool :=
  match op with
  | Py_LT => x <? y
  | Py_GT => y <? x
  | Py_EQ => x =? y
  end.

(** [a op b] for two cache entries. *)
Definition tuple_richcompare (op : cmp_op) (a b : Pred) : result bool :=
  if negb (peptide_score a =? peptide_score b)%float
  then Ok (float_op op (peptide_score a) (peptide_score b))
  else
    let* same_aa := array_cmp PrimFloat.eqb (aa_scores a) (aa_scores b) in
    if negb same_aa
    then array_cmp (float_op op) (aa_scores a) (aa_scores b)
    else
      let* same_tokens := tensor_cmp Z.eqb (pred_peptide a) (pred_peptide b) in
      if negb same_tokens
      then tensor_cmp (int_op op) (pred_peptide a) (pred_peptide b)
      else Ok match op with Py_EQ => true | _ => false end.

Definition tuple_lt : Pred -> Pred -> result bool := tuple_richcompare Py_LT.
Definition tuple_gt : Pred -> Pred -> result bool := tuple_richcompare Py_GT.
Definition tuple_eq : Pred -> Pred -> result bool := tuple_richcompare Py_EQ.

(** ** [heapq]

    The functions of the standard module, over any items and any [<] that
    may raise.  Both loops move a hole: [newitem] is written back when
    the loop ends.  The fuel is the number of iterations the loop can
    make, so the loop has always ended when it is used up. *)

Section heapq.
Context {A : Type} (lt : A -> A -> result bool).

Fixpoint siftdown_loop (fuel : nat) (heap : list A) (startpos pos : nat)
    (newitem : A) : result (list A) :=
  match fuel with
  | O => Ok (<[pos := newitem]> heap)
  | S fuel' =>
      if (startpos <? pos)%nat then
        let parentpos := ((pos - 1) / 2)%nat in
        match heap !! parentpos with
        | None => Raise IndexError
        | Some parent =>
            let* smaller := lt newitem parent in
            if smaller
            then siftdown_loop fuel' (<[pos := parent]> heap) startpos parentpos newitem
            else Ok (<[pos := newitem]> heap)
        end
      else Ok (<[pos := newitem]> heap)
  end.

Definition _siftdown (heap : list A) (startpos pos : nat) : result (list A) :=
  match heap !! pos with
  | None => Raise IndexError
  | Some newitem => siftdown_loop pos heap startpos pos newitem
  end.

Fixpoint siftup_loop (fuel : nat) (heap : list A) (pos endpos : nat)
  : result (list A * nat) :=
  match fuel with
  | O => Ok (heap, pos)
  | S fuel' =>
      let childpos := (2 * pos + 1)%nat in
      if (childpos <? endpos)%nat then
        let rightpos := (childpos + 1)%nat in
        let* childpos :=
          if (rightpos <? endpos)%nat then
            match heap !! childpos, heap !! rightpos with
            | Some c, Some r =>
                let* smaller := lt c r in
                Ok (if negb smaller then rightpos else childpos)
            | _, _ => Raise IndexError
            end
          else Ok childpos in
        match heap !! childpos with
        | None => Raise IndexError
        | Some c => siftup_loop fuel' (<[pos := c]> heap) childpos endpos
        end
      else Ok (heap, pos)
  end.

Definition _siftup (heap : list A) (pos : nat) : result (list A) :=
  let endpos := length heap in
  match heap !! pos with
  | None => Raise IndexError
  | Some newitem =>
      let* (heap, pos') := siftup_loop endpos heap pos endpos in
      _siftdown (<[pos' := newitem]> heap) pos pos'
  end.

Definition heappush (heap : list A) (item : A) : result (list A) :=
  _siftdown (heap ++ [item]) 0 (length heap).

(** [heappushpop] returns the item it pops, and leaves the heap. *)
Definition heappushpop (heap : list A) (item : A) : result (A * list A) :=
  match heap with
  | [] => Ok (item, heap)
  | root :: _ =>
      let* smaller := lt root item in
      if smaller
      then let* heap' := _siftup (<[0%nat := item]> heap) 0 in Ok (root, heap')
      else Ok (item, heap)
  end.

Definition heapreplace (heap : list A) (item : A) : result (A * list A) :=
  match heap with
  | [] => Raise IndexError
  | root :: _ =>
      let* heap' := _siftup (<[0%nat := item]> heap) 0 in Ok (root, heap')
  end.

Fixpoint foldM {S B} (f : S -> B -> result S) (l : list B) (s : S) : result S :=
  match l with
  | [] => Ok s
  | b :: l' => let* s' := f s b in foldM f l' s'
  end.

(** [for i in reversed(range(n // 2)): _siftup(x, i)]. *)
Definition heapify (x : list A) : result (list A) :=
  foldM _siftup (reverse (seq 0 (length x / 2))) x.

End heapq.

(** ** [_cache_finished_beams] *)

(** [r[t]] with Python's negative indices. *)
Definition getitem {A} (r : list A) (t : Z) : result A :=
  let n := Z.of_nat (length r) in
  let k := if t <? 0 then t + n else t in
  if (0 <=? k) && (k <? n)
  then match r !! Z.to_nat k with Some x => Ok x | None => Raise IndexError end
  else Raise IndexError.

(** [smx[0, range(len(pred_tokens)), pred_tokens]]. *)
Fixpoint gather (smx : list (list float)) (tokens : list Z) {struct tokens}
  : result (list float) :=
  match tokens with
  | [] => Ok []
  | t :: tokens' =>
      match smx with
      | [] => Raise IndexError
      | r :: smx' =>
          let* x := getitem r t in
          let* xs := gather smx' tokens' in
          Ok (x :: xs)
      end
  end.

(** [has_stop_token] and [pred_peptide] of a beam. *)
Definition has_stop_token (self : Spec2Pep) (row : list Z) (step : nat) : bool :=
  bool_decide (last (pred_tokens row step) = Some (stop_token self)).

Definition peptide_tokens (self : Spec2Pep) (row : list Z) (step : nat) : list Z :=
  if has_stop_token self row step
  then removelast (pred_tokens row step)
  else pred_tokens row step.

(** [aa_scores] before [_aa_pep_score]: the normalised score of each
    predicted token, and a 0 for the stop token that was not predicted. *)
Definition raw_aa_scores (self : Spec2Pep) (row : list Z) (scores : list (list float))
    (step : nat) : result (list float) :=
  let smx := softmax self <$> take (S step) scores in
  let* aa_scores := gather smx (pred_tokens row step) in
  Ok (if has_stop_token self row step then aa_scores else aa_scores ++ [0%float]).

(** The tuple that is offered to the heap. *)
Definition candidate (self : Spec2Pep) (row : list Z) (scores : list (list float))
    (step : nat) (fits_precursor : bool) : result Pred :=
  let* aa_scores := raw_aa_scores self row scores step in
  let '(aa_scores, peptide_score) := _aa_pep_score aa_scores fits_precursor in
  Ok (peptide_score, removelast aa_scores, peptide_tokens self row step).

(** The body of the loop of [_cache_finished_beams] for a beam to cache,
    on the cache of its spectrum. *)
Definition cache_beam (self : Spec2Pep) (row : list Z) (scores : list (list float))
    (step : nat) (fits_precursor : bool) (cache : list Pred) : result (list Pred) :=
  match pred_tokens row step with
  | [] => Raise IndexError
  | _ :: _ =>
      if existsb (fun pred_cached =>
                    bool_decide (pred_peptide pred_cached = peptide_tokens self row step))
                 cache
      then Ok cache
      else
        let* item := candidate self row scores step fits_precursor in
        if (length cache <? n_beams self)%nat
        then heappush tuple_lt cache item
        else let* (_, cache') := heappushpop tuple_lt cache item in Ok cache'
  end.

(** One iteration of the loop over the beams. *)
Definition cache_iteration (self : Spec2Pep) (tokens : list (list Z))
    (scores : list (list (list float))) (step : nat)
    (beams_to_cache beam_fits_precursor : list bool)
    (pred_cache : list (list Pred)) (i : nat) : result (list (list Pred)) :=
  match beams_to_cache !! i with
  | None => Raise IndexError
  | Some false => Ok pred_cache
  | Some true =>
      if (n_beams self =? 0)%nat then Raise ZeroDivisionError
      else
        let spec_idx := (i / n_beams self)%nat in
        match tokens !! i, scores !! i, beam_fits_precursor !! i with
        | Some row, Some scores_i, Some fits =>
            match pred_cache !! spec_idx with
            | None => Raise KeyError
            | Some cache =>
                let* cache' := cache_beam self row scores_i step fits cache in
                Ok (<[spec_idx := cache']> pred_cache)
            end
        | _, _, _ => Raise IndexError
        end
  end.

(** [_cache_finished_beams]; [pred_cache] maps the spectrum [i] to its
    heap, for [i] below the batch size, and is the list of these heaps. *)
Definition _cache_finished_beams (self : Spec2Pep) (tokens : list (list Z))
    (scores : list (list (list float))) (step : nat)
    (beams_to_cache beam_fits_precursor : list bool)
    (pred_cache : list (list Pred)) : result (list (list Pred)) :=
  foldM (cache_iteration self tokens scores step beams_to_cache beam_fits_precursor)
        (seq 0 (length beams_to_cache)) pred_cache.

(** The first half of an iteration of the main loop of
    [beam_search_decode]: classify the beams, then cache
    [finished_beams & ~discarded_beams]. *)
Definition finish_and_cache (self : Spec2Pep) (tokens : list (list Z))
    (precursors : list Precursor) (scores : list (list (list float)))
    (step : nat) (pred_cache : list (list Pred)) : result (list (list Pred)) :=
  let* (finished_beams, beam_fits_precursor, discarded_beams) :=
    _finish_beams self tokens precursors step in
  _cache_finished_beams self tokens scores step
    (zip_with (fun f d => f && negb d) finished_beams discarded_beams)
    beam_fits_precursor pred_cache.

(** ** The states of the cache during decoding

    [beam_search_decode] creates [pred_cache] with an empty list for each
    spectrum of the batch, and only the loop of [_cache_finished_beams]
    changes it, one beam at a time. *)

Inductive reachable (self : Spec2Pep) (batch : nat) : list (list Pred) -> Prop :=
  | reachable_init : reachable self batch (replicate batch [])
  | reachable_step tokens scores step beams_to_cache beam_fits_precursor i
      pred_cache pred_cache' :
      reachable self batch pred_cache ->
      cache_iteration self tokens scores step beams_to_cache beam_fits_precursor
        pred_cache i = Ok pred_cache' ->
      reachable self batch pred_cache'.

(** ** [sorted], [max] and [heapq.nlargest]

    [list.sort] is a stable merge sort; it is an insertion sort here.
    With a [<] that orders the items the two return the same list.  When
    [<] raises on some pairs, a sort that returns has compared every two
    items that end next to each other, whatever its strategy. *)

Section sorting.
Context {A : Type} (lt : A -> A -> result bool).

(** Insert [x] after the items that are not greater. *)
Fixpoint insort (x : A) (l : list A) : result (list A) :=
  match l with
  | [] => Ok [x]
  | y :: l' =>
      let* smaller := lt x y in
      if smaller then Ok (x :: l)
      else let* r := insort x l' in Ok (y :: r)
  end.

Definition sort_ascending (l : list A) : result (list A) :=
  foldM (fun sorted x => insort x sorted) l [].

(** [sorted(l, reverse=True)]: the list is reversed, sorted and reversed
    again, so that equal items keep their order. *)
Definition sorted_reverse (l : list A) : result (list A) :=
  let* r := sort_ascending (reverse l) in Ok (reverse r).

End sorting.

Section nlargest.
Context {A : Type} (lt gt : A -> A -> result bool).

(** [max(it, default=sentinel)]: [None] is the sentinel. *)
Definition py_max (l : list A) : result (option A) :=
  match l with
  | [] => Ok None
  | x :: l' =>
      let* m := foldM (fun maxitem item =>
                         let* greater := gt item maxitem in
                         Ok (if greater then item else maxitem)) l' x in
      Ok (Some m)
  end.

(** Items decorated with their order, [(elem, order)], compare as tuples;
    [eq] is the [==] of the items. *)
Context (eq : A -> A -> result bool).

Definition decorated_lt (a b : A * Z) : result bool :=
  let* same := eq a.1 b.1 in
  if negb same then lt a.1 b.1 else Ok (a.2 <? b.2).

(** The loop [for elem in it] over the items that were not decorated. *)
Definition nlargest_step (state : list (A * Z) * A * Z) (elem : A)
  : result (list (A * Z) * A * Z) :=
  let '(result, top, order) := state in
  let* smaller := lt top elem in
  if smaller then
    let* (_, result) := heapreplace decorated_lt result (elem, order) in
    match result with
    | [] => Raise IndexError
    | (top, _) :: _ => Ok (result, top, order - 1)
    end
  else Ok state.

Definition nlargest (n : nat) (iterable : list A) : result (list A) :=
  if (n =? 1)%nat then
    let* result := py_max iterable in
    Ok match result with None => [] | Some x => [x] end
  else if (length iterable <=? n)%nat then
    let* r := sorted_reverse lt iterable in Ok (take n r)
  else
    let result :=
      zip (take n iterable) ((fun i : nat => - Z.of_nat i) <$> seq 0 n) in
    match result with
    | [] => Ok []
    | _ :: _ =>
        let* result := heapify decorated_lt result in
        match result with
        | [] => Raise IndexError
        | (top, _) :: _ =>
            let* (result, _, _) :=
              foldM nlargest_step (drop n iterable) (result, top, - Z.of_nat n) in
            let* r := sorted_reverse decorated_lt result in
            Ok (r.*1)
        end
    end.

End nlargest.

(** ** [_get_top_peptide] *)

(** The list yielded for one spectrum. *)
Definition top_peptides (self : Spec2Pep) (peptides : list Pred)
  : result (list (float * list float * string)) :=
  if (0 <? length peptides)%nat then
    let* best := nlargest tuple_lt tuple_gt tuple_eq (top_match self) peptides in
    Ok ((fun p => (peptide_score p, aa_scores p,
                   String.concat "" (detokenize self (pred_peptide p)))) <$> best)
  else Ok [].

Fixpoint mapM {B C} (f : B -> result C) (l : list B) : result (list C) :=
  match l with
  | [] => Ok []
  | b :: l' => let* c := f b in let* cs := mapM f l' in Ok (c :: cs)
  end.

(** [list(self._get_top_peptide(pred_cache))]. *)
Definition _get_top_peptide (self : Spec2Pep) (pred_cache : list (list Pred))
  : result (list (list (float * list float * string))) :=
  mapM (top_peptides self) pred_cache.

(** ** [_get_topk_beams] *)

(** [torch.nanmean] along the positions: the sum of the entries that are
    not NaN over their number. *)
Definition nanmean (l : list float) : float :=
  (float_sum ((fun x => if is_nan x then 0 else x) <$> l)
   / float_of_nat (length (filter (fun x => is_nan x = false) l)))%float.

(** [torch.topk(values, k)[1]]: the indices of the [k] largest values,
    largest first.  PyTorch orders NaN above every number and leaves the
    order of equal values open; here the smaller index comes first. *)
Definition torch_gt (x y : float) : bool :=
  if is_nan x then negb (is_nan y) else (y <? x)%float.

Fixpoint topk_insert (p : float * nat) (l : list (float * nat)) : list (float * nat) :=
  match l with
  | [] => [p]
  | q :: l' => if torch_gt p.1 q.1 then p :: l else q :: topk_insert p l'
  end.

Definition argsort_descending (values : list float) : list nat :=
  (foldl (fun sorted p => topk_insert p sorted) [] (imap (fun i x => (x, i)) values)).*2.

Definition topk (values : list float) (k : nat) : result (list nat) :=
  if (k <=? length values)%nat then Ok (take k (argsort_descending values))
  else Raise RuntimeError.

(** An entry of a tensor row; an index outside the row is an error. *)
Definition entry {A} (r : list A) (t : Z) : result A :=
  if t <? 0 then Raise IndexError
  else match r !! Z.to_nat t with Some x => Ok x | None => Raise IndexError end.

(** [prev_scores] of one beam: the score of each token it already holds. *)
Fixpoint gather_scores (scores : list (list float)) (tokens : list Z)
    {struct tokens} : result (list float) :=
  match tokens with
  | [] => Ok []
  | t :: tokens' =>
      match scores with
      | [] => Raise IndexError
      | r :: scores' =>
          let* x := entry r t in
          let* xs := gather_scores scores' tokens' in
          Ok (x :: xs)
      end
  end.

(** [active_mask] at the flat index [v * beam + s].  The mask is a
    float32 tensor ([.float()]): the [1e-8] written into it is rounded to
    the nearest float32, 0x1.5798eep-27, that is 9.99999993922529e-09. *)
Definition active_mask (beam : nat) (finished : list bool) (idx : nat) : float :=
  if (idx <? beam)%nat then 0x1.5798eep-27%float
  else if default false (finished !! (idx mod beam)%nat) then 0%float
  else 1%float.

(** [step_scores[:, :, idx]] for one spectrum: the scores of the tokens of
    beam [idx % beam] so far, then the score of token [idx // beam] at
    [step]. *)
Definition step_scores (beam : nat) (tokens : list (list Z))
    (scores : list (list (list float))) (step idx : nat) : result (list float) :=
  let v := (idx / beam)%nat in
  let s := (idx mod beam)%nat in
  match tokens !! s, scores !! s with
  | Some row, Some scores_s =>
      let* prev_scores := gather_scores (take step scores_s) (take step row) in
      match scores_s !! step with
      | None => Raise IndexError
      | Some r => let* x := entry r (Z.of_nat v) in Ok (prev_scores ++ [x])
      end
  | _, _ => Raise IndexError
  end.

(** The values handed to [torch.topk] for one spectrum:
    [step_scores.nanmean(dim=1) * active_mask]. *)
Definition topk_values (self : Spec2Pep) (tokens : list (list Z))
    (scores : list (list (list float))) (finished : list bool) (step : nat)
  : result (list float) :=
  let beam := n_beams self in
  let vocab := (vocab_size self + 1)%nat in
  mapM (fun idx =>
          let* column := step_scores beam tokens scores step idx in
          Ok (nanmean column * active_mask beam finished idx)%float)
       (seq 0 (vocab * beam)).

(** The beams of one spectrum after the selection: beam [k] takes the
    tokens and scores of beam [s_idx[k]] up to [step] and the token
    [v_idx[k]] at [step]. *)
Definition topk_spectrum (self : Spec2Pep) (tokens : list (list Z))
    (scores : list (list (list float))) (finished : list bool) (step : nat)
  : result (list (list Z) * list (list (list float))) :=
  let beam := n_beams self in
  let* values := topk_values self tokens scores finished step in
  let* top_idx := topk values beam in
  let* rows :=
    mapM (fun '(k, idx) =>
            let v_idx := (idx / beam)%nat in
            let s_idx := (idx mod beam)%nat in
            match tokens !! s_idx, scores !! s_idx, tokens !! k, scores !! k with
            | Some row_s, Some scores_s, Some row_k, Some scores_k =>
                Ok (take step row_s ++ [Z.of_nat v_idx] ++ drop (S step) row_k,
                    take (S step) scores_s ++ drop (S step) scores_k)
            | _, _, _, _ => Raise IndexError
            end)
         (imap (fun k idx => (k, idx)) top_idx) in
  Ok (rows.*1, rows.*2).

(** [_get_topk_beams]: the spectra of the batch one after the other, the
    beams of spectrum [b] being the rows [b * beam] to [(b + 1) * beam - 1]. *)
Definition _get_topk_beams (self : Spec2Pep) (tokens : list (list Z))
    (scores : list (list (list float))) (finished_beams : list bool)
    (batch step : nat) : result (list (list Z) * list (list (list float))) :=
  let beam := n_beams self in
  let* spectra :=
    mapM (fun b =>
            topk_spectrum self (take beam (drop (b * beam) tokens))
              (take beam (drop (b * beam) scores))
              (take beam (drop (b * beam) finished_beams)) step)
         (seq 0 batch) in
  Ok (concat spectra.*1, concat spectra.*2).

(** ** [beam_search_decode]

    The encoder and the decoder are the scorer of the specification, and
    this file does not define them.  [decoder_first] is the call
    [self.decoder(None, precursors, memories, mem_masks)] for one
    spectrum: the scores of the first position.  [decoder_next] is the
    call of the main loop for one beam, from the tokens the beam holds up
    to [step]: one row of scores for each of the positions 0 to
    [step + 1].  A decoder scores the rows of its batch one by one. *)

Record Scorer (Memory : Type) : Type := {
  decoder_first : Precursor -> Memory -> list float;
  decoder_next : list Z -> Precursor -> Memory -> list (list float)
}.
Arguments decoder_first {Memory} s prec memory.
Arguments decoder_next {Memory} s tokens prec memory.

Section decode.
Context {Memory : Type} (self : Spec2Pep) (scorer : Scorer Memory).

(** The beams of one spectrum before the loop: the [n_beams] best first
    tokens, and the first scores in every beam; the other positions hold
    the token 0 and NaN scores. *)
Definition initial_beams (prec : Precursor) (memory : Memory)
  : result (list (list Z) * list (list (list float))) :=
  let length := S (max_length self) in
  let vocab := (vocab_size self + 1)%nat in
  let pred := decoder_first scorer prec memory in
  let* first_tokens := topk pred (n_beams self) in
  Ok ((fun t : nat => Z.of_nat t :: replicate (length - 1) 0) <$> first_tokens,
      replicate (n_beams self)
        (pred :: replicate (length - 1) (replicate vocab nan))).

(** [scores[~finished_beams, : step + 2, :] = self.decoder(...)], for one
    beam. *)
Definition update_scores (step : nat) (finished : bool) (row : list Z)
    (prec : Precursor) (memory : Memory) (scores_i : list (list float))
  : result (list (list float)) :=
  if finished then Ok scores_i
  else
    let new_scores := decoder_next scorer (take (S step) row) prec memory in
    if (length new_scores =? step + 2)%nat
    then Ok (new_scores ++ drop (step + 2) scores_i)
    else Raise RuntimeError.

Definition update_all_scores (step : nat) (finished : list bool)
    (tokens : list (list Z)) (precursors : list Precursor)
    (memories : list Memory) (scores : list (list (list float)))
  : result (list (list (list float))) :=
  mapM (fun '(f, row, prec, memory, scores_i) =>
          update_scores step f row prec memory scores_i)
       (zip (zip (zip (zip finished tokens) precursors) memories) scores).

(** The main loop, from the steps still to make. *)
Fixpoint decode_loop (batch : nat) (precursors : list Precursor)
    (memories : list Memory) (steps : list nat) (tokens : list (list Z))
    (scores : list (list (list float))) (pred_cache : list (list Pred))
  : result (list (list Pred)) :=
  match steps with
  | [] => Ok pred_cache
  | step :: steps' =>
      let* (finished_beams, beam_fits_precursor, discarded_beams) :=
        _finish_beams self tokens precursors step in
      let* pred_cache :=
        _cache_finished_beams self tokens scores step
          (zip_with (fun f d => f && negb d) finished_beams discarded_beams)
          beam_fits_precursor pred_cache in
      let finished_beams := zip_with orb finished_beams discarded_beams in
      if forallb id finished_beams then Ok pred_cache
      else
        let* scores :=
          update_all_scores step finished_beams tokens precursors memories scores in
        let* (tokens, scores) :=
          _get_topk_beams self tokens scores finished_beams batch (S step) in
        decode_loop batch precursors memories steps' tokens scores pred_cache
  end.

(** [pred_cache] when the loop has ended; [memories] is the encoded
    batch, one entry for each spectrum. *)
Definition decode_cache (memories : list Memory) (precursors : list Precursor)
  : result (list (list Pred)) :=
  let batch := length memories in
  let beam := n_beams self in
  let* beams := mapM (fun '(prec, memory) => initial_beams prec memory)
                     (zip precursors memories) in
  decode_loop batch
    (precursors ≫= replicate beam) (memories ≫= replicate beam)
    (seq 0 (max_length self)) (concat beams.*1) (concat beams.*2)
    (replicate batch []).

Definition beam_search_decode (memories : list Memory) (precursors : list Precursor)
  : result (list (list (float * list float * string))) :=
  let* pred_cache := decode_cache memories precursors in
  _get_top_peptide self pred_cache.

End decode.

(** ** [forward], [predict_step] and the predictions of [validation_step]

    The batch of a step is the encoded spectra, the precursors and, for
    [predict_step], the spectrum identifiers, or for [validation_step]
    the true peptides. *)

Section steps.
Context {Memory : Type} (self : Spec2Pep) (scorer : Scorer Memory).

(** [forward]: the tensors are moved to the devices of the model and
    decoded. *)
Definition forward (memories : list Memory) (precursors : list Precursor)
  : result (list (list (float * list float * string))) :=
  beam_search_decode self scorer memories precursors.

(** [predict_step]: a tuple for each prediction of each spectrum, with
    the identifier, the charge and the m/z of the spectrum; [zip] stops
    with the shortest of its arguments. *)
Definition predict_step {Id : Type} (memories : list Memory)
    (precursors : list Precursor) (spectrum_ids : list Id)
  : result (list (Id * Z * float * string * float * list float)) :=
  let* predictions := forward memories precursors in
  Ok (concat
        (zip_with
           (fun '(prec, spectrum_i) spectrum_preds =>
              (fun '(peptide_score, aa_scores, peptide) =>
                 (spectrum_i, precursor_charge prec, precursor_mz prec,
                  peptide, peptide_score, aa_scores))
              <$> spectrum_preds)
           (zip precursors spectrum_ids) predictions)).

End steps.

(** The loop of [validation_step] over the predictions of the batch:
    [peptides_pred] and [peptides_score] get an empty peptide with the
    score [-inf] for a spectrum without a prediction, and every
    prediction of a spectrum that has some. *)
Definition append_prediction (lists : list string * list float)
    (prediction : float * list float * string) : list string * list float :=
  let '(peptides_pred, peptides_score) := lists in
  let '(pep_score, _, pred) := prediction in
  (peptides_pred ++ [pred], peptides_score ++ [pep_score]).

Definition append_spectrum (lists : list string * list float)
    (spectrum_preds : list (float * list float * string))
  : list string * list float :=
  let '(peptides_pred, peptides_score) := lists in
  let lists :=
    match spectrum_preds with
    | [] => (peptides_pred ++ [""%string], peptides_score ++ [neg_infinity])
    | _ :: _ => (peptides_pred, peptides_score)
    end in
  foldl append_prediction lists spectrum_preds.

Definition validation_predictions
    (predictions : list (list (float * list float * string)))
  : list string * list float :=
  foldl append_spectrum ([], []) predictions.

(** The condition of the [assert] that follows the loop. *)
Definition validation_assert (peptides_pred : list string)
    (peptides_score : list float) (peptides_true : list string) : bool :=
  (length peptides_pred =? length peptides_true)%nat
  && (length peptides_score =? length peptides_true)%nat.

(** ** [CosineWarmupScheduler]

    [warmup], [max_iters] and the epoch are Python ints, and the learning
    rates floats.  [np.pi * epoch / self.max_iters] is a division of a
    float by an int and [epoch / self.warmup] a true division of two
    ints: both raise [ZeroDivisionError] for a zero divisor, and the
    second is the quotient of the two floats for ints below 2^53. *)

Record CosineWarmupScheduler : Type := {
  warmup : Z;
  max_iters : Z;
  base_lrs : list float;
  last_epoch : Z
}.

Definition np_pi : float := 3.141592653589793%float.

Section scheduler.
(** [np.cos], which this file does not define. *)
Context (np_cos : float -> float).

Definition get_lr_factor (self : CosineWarmupScheduler) (epoch : Z) : result float :=
  if max_iters self =? 0 then Raise ZeroDivisionError
  else
    let lr_factor :=
      (0.5 * (1 + np_cos (np_pi * float_of_Z epoch / float_of_Z (max_iters self))))%float
    in
    if epoch <=? warmup self then
      if warmup self =? 0 then Raise ZeroDivisionError
      else Ok (lr_factor * (float_of_Z epoch / float_of_Z (warmup self)))%float
    else Ok lr_factor.

Definition get_lr (self : CosineWarmupScheduler) : result (list float) :=
  let* lr_factor := get_lr_factor self (last_epoch self) in
  Ok ((fun base_lr => (base_lr * lr_factor)%float) <$> base_lrs self).

End scheduler.

(** ** The history of the epochs

    [_history] is a list of dicts with the key ["step"] and the losses
    and metrics of one epoch end: a record with the step and the other
    items in insertion order.  [trainer] stands for the two attributes of
    the Lightning trainer that are read.  What the methods send to the
    logger and to the [SummaryWriter] is returned as a list of events, in
    order, with the exception that ended the call if there is one; the
    arguments of [logger.info] are kept apart from its format string, as
    [logging] does. *)

Record Metrics : Type := {
  metrics_step : Z;
  metrics_items : list (string * float)
}.

Record Trainer : Type := {
  callback_metrics : list (string * float);
  global_step : Z
}.

Record History : Type := {
  _history : list Metrics;
  calculate_precision : bool;
  n_log : Z;
  tb_summarywriter : bool
}.

Inductive log_arg : Type :=
  | arg_int (i : Z)
  | arg_float (x : float).

Inductive log_event : Type :=
  | logger_info (msg : string) (args : list log_arg)
  | add_scalar (descr : string) (metric_value : float) (step : Z).

(** [d[key]], with [None] for the [KeyError], and [d.get(key, np.nan)]. *)
Fixpoint dict_getitem (d : list (string * float)) (key : string) : option float :=
  match d with
  | [] => None
  | (k, v) :: d' => if String.eqb k key then Some v else dict_getitem d' key
  end.

Definition metrics_get (metrics : Metrics) (key : string) : float :=
  default nan (dict_getitem (metrics_items metrics) key).

Definition tab : string := String (ascii_of_nat 9) EmptyString.

Definition log_header (self : History) : string :=
  ("Step" ++ tab ++ "Train loss" ++ tab ++ "Valid loss" ++ tab)
  ++ (if calculate_precision self
      then "Peptide precision" ++ tab ++ "AA precision" ++ tab ++ "AA recall" ++ tab
           ++ "PTM precision" ++ tab ++ "PTM recall" ++ tab ++ "Curve_AUC"
      else "").

Definition log_msg (self : History) : string :=
  ("%i" ++ tab ++ "%.6f" ++ tab ++ "%.6f")
  ++ (if calculate_precision self
      then tab ++ "%.6f" ++ tab ++ "%.6f" ++ tab ++ "%.6f" ++ tab ++ "%.6f" ++ tab
           ++ "%.6f" ++ tab ++ "%.6f"
      else "").

Definition log_vals (self : History) (metrics : Metrics) : list log_arg :=
  [arg_int (metrics_step metrics);
   arg_float (metrics_get metrics "train");
   arg_float (metrics_get metrics "valid")]
  ++ (if calculate_precision self
      then arg_float <$> (metrics_get metrics <$>
             ["valid_pep_precision"; "valid_aa_precision"; "valid_aa_recall";
              "valid_ptm_precision"; "valid_ptm_recall"; "valid_curve_auc"]%string)
      else []).

(** The loop over the four scalars of the [SummaryWriter]. *)
Definition log_scalars (metrics : Metrics) : list log_event :=
  omap (fun '(descr, key) =>
          let metric_value := metrics_get metrics key in
          if is_nan metric_value then None
          else Some (add_scalar descr metric_value (metrics_step metrics)))
       [("loss/train_crossentropy_loss", "train");
        ("loss/val_crossentropy_loss", "valid");
        ("eval/val_pep_precision", "valid_pep_precision");
        ("eval/val_aa_precision", "valid_aa_precision")]%string.

(** [_log_history]: the events, and how the call ends.  [%] on ints has
    the sign of the divisor, as [Z.modulo] has. *)
Definition _log_history (self : History) : list log_event * result unit :=
  match last (_history self) with
  | None => ([], Ok tt)
  | Some metrics =>
      let header :=
        if (length (_history self) =? 1)%nat
        then [logger_info (log_header self) []] else [] in
      if n_log self =? 0 then (header, Raise ZeroDivisionError)
      else if metrics_step metrics mod n_log self =? 0 then
        (header ++ [logger_info (log_msg self) (log_vals self metrics)]
         ++ (if tb_summarywriter self then log_scalars metrics else []),
         Ok tt)
      else (header, Ok tt)
  end.

Definition append_history (self : History) (metrics : Metrics) : History :=
  {| _history := _history self ++ [metrics];
     calculate_precision := calculate_precision self;
     n_log := n_log self;
     tb_summarywriter := tb_summarywriter self |}.

(** [on_train_epoch_end]: the state it leaves, the events and how the
    call ends. *)
Definition on_train_epoch_end (self : History) (trainer : Trainer)
  : History * list log_event * result unit :=
  match dict_getitem (callback_metrics trainer) "train_CELoss" with
  | None => (self, [], Raise KeyError)
  | Some train_loss =>
      let metrics := {| metrics_step := global_step trainer;
                        metrics_items := [("train"%string, train_loss)] |} in
      let self := append_history self metrics in
      (self, (_log_history self).1, (_log_history self).2)
  end.

(** The items that [on_validation_epoch_end] adds when
    [calculate_precision] is set, in its order. *)
Definition precision_keys : list (string * string) :=
  [("valid_aa_precision", "AA precision at coverage=1");
   ("valid_pep_precision", "Peptide precision at coverage=1");
   ("valid_aa_recall", "AA recall at coverage=1");
   ("valid_ptm_recall", "ptm recall at coverage=1");
   ("valid_ptm_precision", "ptm precision at coverage=1");
   ("valid_curve_auc", "Area under precision-recall curve(AUC)")]%string.

Fixpoint read_metrics (callback_metrics : list (string * float))
    (keys : list (string * string)) : option (list (string * float)) :=
  match keys with
  | [] => Some []
  | (key, name) :: keys' =>
      match dict_getitem callback_metrics name with
      | None => None
      | Some v =>
          match read_metrics callback_metrics keys' with
          | None => None
          | Some items => Some ((key, v) :: items)
          end
      end
  end.

Definition on_validation_epoch_end (self : History) (trainer : Trainer)
  : History * list log_event * result unit :=
  match read_metrics (callback_metrics trainer)
          (("valid"%string, "valid_CELoss"%string)
           :: (if calculate_precision self then precision_keys else [])) with
  | None => (self, [], Raise KeyError)
  | Some items =>
      let metrics := {| metrics_step := global_step trainer;
                        metrics_items := items |} in
      let self := append_history self metrics in
      (self, (_log_history self).1, (_log_history self).2)
  end.

(** ** Example inputs

    A model with glycine and the neutral loss ["-17.027"], whose name
    makes it an N-terminal modification too: the tokens are 1 and 2, the
    stop token is 3, and the vocabulary has 4 entries with the padding.
    The softmax of a row of equal scores is the uniform distribution, and
    the rows of scores of the examples are rows of zeros. *)

Definition uniform_softmax (row : list float) : list float :=
  (fun _ => (1 / float_of_nat (length row))%float) <$> row.

Definition example_model : Spec2Pep := {|
  residues := [("G"%string, 57.021464%float); ("-17.027"%string, (-17.026549)%float)];
  reverse_decoder := true;
  softmax := uniform_softmax;
  max_length := 6;
  precursor_mass_tol := 50%float;
  isotope_error_range := (0, 1);
  min_peptide_len := 6;
  n_beams := 2;
  top_match := 2
|}.

Definition example_precursor : Precursor := {|
  precursor_mass := 49%float;
  precursor_charge := 1;
  precursor_mz := 50%float
|}.

(** Three glycines and no stop token at step 2. *)
Definition example_row : list Z := [1; 1; 1; 0; 0; 0; 0].

(** A glycine, the modification and a glycine at step 2. *)
Definition example_row_mod : list Z := [1; 2; 1; 0; 0; 0; 0].

(** The scores of one beam up to step 2: three rows of zeros. *)
Definition example_scores : list (list float) :=
  replicate 3 (replicate 4 0%float).

(** A model with glycine and alanine (tokens 1 and 2) that accepts
    peptides of one residue, and two cache entries of equal peptide
    score, as [_aa_pep_score] makes them from the raw scores [0.25, 0.75]
    and [0.75, 0.25] of two beams that hold one residue and the stop
    token. *)
Definition example_short_model : Spec2Pep := {|
  residues := [("G"%string, 57.021464%float); ("A"%string, 71.037114%float)];
  reverse_decoder := true;
  softmax := uniform_softmax;
  max_length := 6;
  precursor_mass_tol := 50%float;
  isotope_error_range := (0, 1);
  min_peptide_len := 1;
  n_beams := 2;
  top_match := 2
|}.

Definition example_entry_1 : Pred := (0.5%float, [0.375%float], [1]).
Definition example_entry_2 : Pred := (0.5%float, [0.625%float], [2]).

(** The caches of two spectra, for the model with glycine and alanine:
    a heap of three peptides of two residues, and an empty one. *)
Definition example_cache : list (list Pred) :=
  [[(0.25%float, [0.5; 0.25]%float, [1; 2]);
    (0.5%float, [0.75; 0.5]%float, [2; 1]);
    (0.75%float, [0.875; 0.75]%float, [1; 1])]; []].

(** One spectrum, one beam, glycine only (tokens: padding 0, glycine 1,
    stop 2), after the first step: the beam holds a glycine, and the
    scorer has given position 1 the scores -5, -1 and -2. *)
Definition example_greedy_model : Spec2Pep := {|
  residues := [("G"%string, 57.021464%float)];
  reverse_decoder := true;
  softmax := uniform_softmax;
  max_length := 2;
  precursor_mass_tol := 50%float;
  isotope_error_range := (0, 1);
  min_peptide_len := 1;
  n_beams := 1;
  top_match := 1
|}.

Definition example_greedy_tokens : list (list Z) := [[1; 0; 0]].

Definition example_greedy_scores : list (list (list float)) :=
  [[[-3; -1; -2]; [-5; -1; -2]; [nan; nan; nan]]]%float.

(** A scorer for the model with glycine and alanine that prefers
    glycine, then alanine, then the stop token, whatever the spectrum;
    a decoding model with one beam, and the precursor of the peptide
    glycine, alanine at charge 1. *)
Definition example_scorer_rows : list (list float) :=
  [[0; 5; 1; 0]; [0; 1; 5; 0]; [0; 1; 1; 5]; [0; 0; 0; 0]; [0; 0; 0; 0];
   [0; 0; 0; 0]; [0; 0; 0; 0]; [0; 0; 0; 0]]%float.

Definition example_scorer : Scorer unit := {|
  decoder_first := fun _ _ => [0; 5; 1; 0]%float;
  decoder_next := fun tokens _ _ => take (length tokens + 1) example_scorer_rows
|}.

Definition example_decode_model : Spec2Pep := {|
  residues := [("G"%string, 57.021464%float); ("A"%string, 71.037114%float)];
  reverse_decoder := false;
  softmax := uniform_softmax;
  max_length := 6;
  precursor_mass_tol := 50%float;
  isotope_error_range := (0, 1);
  min_peptide_len := 1;
  n_beams := 1;
  top_match := 1
|}.

Definition example_decode_precursor : Precursor := {|
  precursor_mass := 146.069143%float;
  precursor_charge := 1;
  precursor_mz := 147.076419%float
|}.

(** A model with glycine only whose isotope range is empty. *)
Definition example_empty_range_model : Spec2Pep := {|
  residues := [("G"%string, 57.021464%float)];
  reverse_decoder := true;
  softmax := uniform_softmax;
  max_length := 6;
  precursor_mass_tol := 50%float;
  isotope_error_range := (1, 0);
  min_peptide_len := 1;
  n_beams := 1;
  top_match := 1
|}.

(** The precursor of the peptide of two glycines at charge 1: its m/z is
    the m/z [PeptideMass.mass] computes for the peptide. *)
Definition example_gg_precursor : Precursor := {|
  precursor_mass := 132.05349%float;
  precursor_charge := 1;
  precursor_mz :=
    default 0%float (peptide_mass example_short_model ["G"; "G"]%string 1)
|}.

(** A precursor whose m/z is NaN. *)
Definition example_nan_precursor : Precursor := {|
  precursor_mass := nan;
  precursor_charge := 2;
  precursor_mz := nan
|}.

(** A full cache of the model with glycine and alanine, which keeps two
    entries: a heap with the lower score first. *)
Definition example_full_cache : list Pred :=
  [((-0.75)%float, [0.25; 0.25]%float, [1; 2]);
   (0.5%float, [0.75; 0.5]%float, [2; 1])].

(** Two glycines and the stop token at step 2. *)
Definition example_row_stop : list Z := [1; 1; 3; 0; 0; 0; 0].

(** A model that has logged nothing yet and logs every step, with a
    [SummaryWriter], and a trainer after ten steps with a training loss. *)
Definition example_history : History := {|
  _history := [];
  calculate_precision := false;
  n_log := 1;
  tb_summarywriter := true
|}.

Definition example_trainer : Trainer := {|
  callback_metrics := [("train_CELoss"%string, 0.5%float)];
  global_step := 10
|}.

(** The decoding model with five beams, more than the four scores of a
    position. *)
Definition example_wide_model : Spec2Pep := {|
  residues := [("G"%string, 57.021464%float); ("A"%string, 71.037114%float)];
  reverse_decoder := false;
  softmax := uniform_softmax;
  max_length := 6;
  precursor_mass_tol := 50%float;
  isotope_error_range := (0, 1);
  min_peptide_len := 1;
  n_beams := 5;
  top_match := 1
|}.

(** ** Predicates of the statements *)

(** [pairwise C l]: any two entries of [l] at different positions are
    related by [C], in both orders. *)
Definition pairwise {A} (C : A -> A -> Prop) (l : list A) : Prop :=
  forall x k, l ≡ₚ x :: k -> Forall (C x) k.

(** The invariant of the cache of one spectrum. *)
Definition cache_ok (self : Spec2Pep) (cache : list Pred) : Prop :=
  (length cache <= n_beams self)%nat
  /\ NoDup (pred_peptide <$> cache)
  /\ Forall (fun p => length (aa_scores p) = length (pred_peptide p)) cache.

(** Two entries whose peptide scores differ, NaN excluded. *)
Definition distinct_scores (a b : Pred) : Prop :=
  ((peptide_score a <? peptide_score b) || (peptide_score b <? peptide_score a))%float
  = true.

Definition score_le (a b : Pred) : Prop :=
  (peptide_score a <=? peptide_score b)%float = true.

Definition score_not_nan (a : Pred) : Prop := is_nan (peptide_score a) = false.

(** What [_get_top_peptide] yields for a cache entry. *)
Definition prediction_of (self : Spec2Pep) (p : Pred) : float * list float * string :=
  (peptide_score p, aa_scores p, String.concat "" (detokenize self (pred_peptide p))).

(** ** The heap order

    [heapq] keeps [heap[k] <= heap[2*k+1]] and [heap[k] <= heap[2*k+2]];
    the parent of the position [c > 0] is [(c - 1) // 2].  [heap_above R n]
    is this order for the parents from the position [n] on, which is what
    [heapify] has established when it has come down to [n]. *)
Definition heap_above {A} (R : A -> A -> Prop) (n : nat) (heap : list A) : Prop :=
  forall c x y, (0 < c)%nat -> (n <= (c - 1) / 2)%nat ->
    heap !! c = Some x -> heap !! ((c - 1) / 2)%nat = Some y -> R y x.

Definition is_heap {A} (R : A -> A -> Prop) (heap : list A) : Prop :=
  heap_above R 0 heap.

(** The order between the positions other than [pos], where a sift has
    its hole. *)
Definition heap_hole {A} (R : A -> A -> Prop) (n pos : nat) (heap : list A) : Prop :=
  forall c x y, (0 < c)%nat -> (n <= (c - 1) / 2)%nat ->
    c <> pos -> ((c - 1) / 2)%nat <> pos ->
    heap !! c = Some x -> heap !! ((c - 1) / 2)%nat = Some y -> R y x.

(** [v] is not above the children of the position [pos]. *)
Definition hole_children {A} (R : A -> A -> Prop) (pos : nat) (v : A)
    (heap : list A) : Prop :=
  forall c x, (0 < c)%nat -> ((c - 1) / 2)%nat = pos -> heap !! c = Some x -> R v x.

(** The parent of the hole is not above the children of the hole. *)
Definition hole_parent {A} (R : A -> A -> Prop) (n pos : nat) (heap : list A) : Prop :=
  pos <> n ->
  forall y, heap !! ((pos - 1) / 2)%nat = Some y -> hole_children R pos y heap.

(** The positions of the subtree of [n]. *)
Inductive below (n : nat) : nat -> Prop :=
  | below_refl : below n n
  | below_child c : (0 < c)%nat -> below n ((c - 1) / 2) -> below n c.

(** ** Binary64 comparisons

    The facts about [<?], [<=?] and [=?] on floats that the ordering
    arguments need, read off the comparison of their specification. *)

Module FloatOrder.

Ltac sf_cmp :=
  repeat match goal with
  | |- context [Pos.compare_cont Eq ?a ?b] =>
      change (Pos.compare_cont Eq a b) with (Pos.compare a b)
  | H : context [Pos.compare_cont Eq ?a ?b] |- _ =>
      change (Pos.compare_cont Eq a b) with (Pos.compare a b) in H
  end;
  repeat match goal with
  | |- context [Z.compare ?a ?b] => destruct (Z.compare_spec a b)
  | H : context [Z.compare ?a ?b] |- _ => destruct (Z.compare_spec a b)
  | |- context [Pos.compare ?a ?b] => destruct (Pos.compare_spec a b)
  | H : context [Pos.compare ?a ?b] |- _ => destruct (Pos.compare_spec a b)
  end; simpl in *; try congruence; try lia.

Lemma SFcompare_Lt_Gt x y : SFcompare x y = Some Lt -> SFcompare y x = Some Gt.
Proof.
  destruct x as [[]|[]| |[] m1 e1], y as [[]|[]| |[] m2 e2];
    simpl; try congruence; intros H; f_equal; sf_cmp.
Qed.

Lemma SFcompare_Gt_Lt x y : SFcompare x y = Some Gt -> SFcompare y x = Some Lt.
Proof.
  destruct x as [[]|[]| |[] m1 e1], y as [[]|[]| |[] m2 e2];
    simpl; try congruence; intros H; f_equal; sf_cmp.
Qed.

Lemma SFcompare_Eq_sym x y : SFcompare x y = Some Eq -> SFcompare y x = Some Eq.
Proof.
  destruct x as [[]|[]| |[] m1 e1], y as [[]|[]| |[] m2 e2];
    simpl; try congruence; intros H; f_equal; sf_cmp.
Qed.

Lemma SFcompare_None x y :
  SFcompare x y = None -> x = S754_nan \/ y = S754_nan.
Proof.
  destruct x as [[]|[]| |[] m1 e1], y as [[]|[]| |[] m2 e2];
    simpl; try congruence; auto.
Qed.

Lemma SFcompare_Lt_trans x y z :
  SFcompare x y = Some Lt -> SFcompare y z = Some Lt -> SFcompare x z = Some Lt.
Proof.
  destruct x as [[]|[]| |[] m1 e1], y as [[]|[]| |[] m2 e2],
    z as [[]|[]| |[] m3 e3];
    simpl; try congruence; intros H1 H2; f_equal; sf_cmp.
Qed.

Lemma SFcompare_Eq_Lt x y z :
  SFcompare x y = Some Eq -> SFcompare y z = Some Lt -> SFcompare x z = Some Lt.
Proof.
  destruct x as [[]|[]| |[] m1 e1], y as [[]|[]| |[] m2 e2],
    z as [[]|[]| |[] m3 e3];
    simpl; try congruence; intros H1 H2; f_equal; sf_cmp.
Qed.

Lemma SFcompare_Lt_Eq x y z :
  SFcompare x y = Some Lt -> SFcompare y z = Some Eq -> SFcompare x z = Some Lt.
Proof.
  destruct x as [[]|[]| |[] m1 e1], y as [[]|[]| |[] m2 e2],
    z as [[]|[]| |[] m3 e3];
    simpl; try congruence; intros H1 H2; f_equal; sf_cmp.
Qed.

Lemma SFcompare_Eq_trans x y z :
  SFcompare x y = Some Eq -> SFcompare y z = Some Eq -> SFcompare x z = Some Eq.
Proof.
  destruct x as [[]|[]| |[] m1 e1], y as [[]|[]| |[] m2 e2],
    z as [[]|[]| |[] m3 e3];
    simpl; try congruence; intros H1 H2; f_equal; sf_cmp.
Qed.

(** The three comparisons of two floats, as one case analysis. *)
Inductive cmp_cases (x y : float) : Prop :=
  | cmp_lt : (x <? y)%float = true -> (y <? x)%float = false ->
             (x =? y)%float = false -> (y =? x)%float = false ->
             (x <=? y)%float = true -> (y <=? x)%float = false -> cmp_cases x y
  | cmp_gt : (x <? y)%float = false -> (y <? x)%float = true ->
             (x =? y)%float = false -> (y =? x)%float = false ->
             (x <=? y)%float = false -> (y <=? x)%float = true -> cmp_cases x y
  | cmp_eq : (x <? y)%float = false -> (y <? x)%float = false ->
             (x =? y)%float = true -> (y =? x)%float = true ->
             (x <=? y)%float = true -> (y <=? x)%float = true -> cmp_cases x y
  | cmp_nan : (x <? y)%float = false -> (y <? x)%float = false ->
             (x =? y)%float = false -> (y =? x)%float = false ->
             (x <=? y)%float = false -> (y <=? x)%float = false ->
             is_nan x = true \/ is_nan y = true -> cmp_cases x y.

Lemma is_nan_spec x : is_nan x = true <-> Prim2SF x = S754_nan.
Proof.
  unfold is_nan. rewrite FloatAxioms.eqb_spec. unfold SFeqb.
  destruct (Prim2SF x) as [[]|[]| |[] m e]; simpl; try (split; congruence);
    change (Pos.compare_cont Eq m m) with (Pos.compare m m);
    rewrite Z.compare_refl, Pos.compare_refl; simpl; split; congruence.
Qed.

Lemma float_cmp_cases x y : cmp_cases x y.
Proof.
  destruct (SFcompare (Prim2SF x) (Prim2SF y)) as [[]|] eqn:E.
  - apply cmp_eq; rewrite ?FloatAxioms.ltb_spec, ?FloatAxioms.eqb_spec,
      ?FloatAxioms.leb_spec; unfold SFltb, SFeqb, SFleb;
      rewrite ?E, ?(SFcompare_Eq_sym _ _ E); reflexivity.
  - apply cmp_lt; rewrite ?FloatAxioms.ltb_spec, ?FloatAxioms.eqb_spec,
      ?FloatAxioms.leb_spec; unfold SFltb, SFeqb, SFleb;
      rewrite ?E, ?(SFcompare_Lt_Gt _ _ E); reflexivity.
  - apply cmp_gt; rewrite ?FloatAxioms.ltb_spec, ?FloatAxioms.eqb_spec,
      ?FloatAxioms.leb_spec; unfold SFltb, SFeqb, SFleb;
      rewrite ?E, ?(SFcompare_Gt_Lt _ _ E); reflexivity.
  - assert (SFcompare (Prim2SF y) (Prim2SF x) = None) as E'.
    { apply SFcompare_None in E.
      destruct E as [-> | ->]; [destruct (Prim2SF y)|]; reflexivity. }
    apply cmp_nan; rewrite ?FloatAxioms.ltb_spec, ?FloatAxioms.eqb_spec,
      ?FloatAxioms.leb_spec; unfold SFltb, SFeqb, SFleb;
      rewrite ?E, ?E'; try reflexivity.
    rewrite !is_nan_spec. now apply SFcompare_None.
Qed.

Lemma ltb_asym x y : (x <? y)%float = true -> (y <? x)%float = false.
Proof. destruct (float_cmp_cases x y); congruence. Qed.

Lemma ltb_neq x y : (x <? y)%float = true -> (x =? y)%float = false.
Proof. destruct (float_cmp_cases x y); congruence. Qed.

Lemma eqb_sym x y : (x =? y)%float = (y =? x)%float.
Proof. destruct (float_cmp_cases x y); congruence. Qed.

Lemma ltb_trans x y z :
  (x <? y)%float = true -> (y <? z)%float = true -> (x <? z)%float = true.
Proof.
  rewrite !FloatAxioms.ltb_spec. unfold SFltb. intros H1 H2.
  destruct (SFcompare (Prim2SF x) (Prim2SF y)) as [[]|] eqn:E1; try discriminate.
  destruct (SFcompare (Prim2SF y) (Prim2SF z)) as [[]|] eqn:E2; try discriminate.
  now rewrite (SFcompare_Lt_trans _ _ _ E1 E2).
Qed.

Lemma leb_trans x y z :
  (x <=? y)%float = true -> (y <=? z)%float = true -> (x <=? z)%float = true.
Proof.
  rewrite !FloatAxioms.leb_spec. unfold SFleb. intros H1 H2.
  destruct (SFcompare (Prim2SF x) (Prim2SF y)) as [[]|] eqn:E1; try discriminate;
  destruct (SFcompare (Prim2SF y) (Prim2SF z)) as [[]|] eqn:E2; try discriminate.
  - now rewrite (SFcompare_Eq_trans _ _ _ E1 E2).
  - now rewrite (SFcompare_Eq_Lt _ _ _ E1 E2).
  - now rewrite (SFcompare_Lt_Eq _ _ _ E1 E2).
  - now rewrite (SFcompare_Lt_trans _ _ _ E1 E2).
Qed.

Lemma ltb_leb x y : (x <? y)%float = true -> (x <=? y)%float = true.
Proof. destruct (float_cmp_cases x y); congruence. Qed.

(** Away from NaN the order is total. *)
Lemma not_ltb_leb x y :
  is_nan x = false -> is_nan y = false ->
  (x <? y)%float = false -> (y <=? x)%float = true.
Proof.
  intros Hx Hy. destruct (float_cmp_cases x y) as [| | |? ? ? ? ? ? [H|H]];
    congruence.
Qed.

End FloatOrder.
(** ** The vocabulary: where the stop token sits *)

Lemma dict_of_names_ge i names aa j :
  dict_of_names i names aa = Some j -> i <= j.
Proof.
  revert i; induction names as [|a names IH]; intros i; simpl; [done|].
  destruct (dict_of_names (i + 1) names aa) eqn:E.
  - intros [= ->]. apply IH in E. lia.
  - destruct (String.eqb a aa); intros [= ->]; lia.
Qed.

Lemma dict_of_names_last i names aa :
  dict_of_names i (names ++ [aa]) aa = Some (i + Z.of_nat (length names)).
Proof.
  revert i; induction names as [|a names IH]; intros i; simpl.
  - rewrite String.eqb_refl. f_equal. lia.
  - rewrite IH. f_equal. lia.
Qed.

Lemma stop_token_eq self :
  stop_token self = Z.of_nat (length (residues self)) + 1.
Proof.
  unfold stop_token, _aa2idx, amino_acids.
  rewrite dict_of_names_last, length_fmap. simpl. lia.
Qed.

Lemma idx2aa_stop self : _idx2aa self (stop_token self) = Some "$"%string.
Proof.
  unfold _idx2aa. rewrite stop_token_eq.
  destruct (Z.leb_spec (Z.of_nat (length (residues self)) + 1) 0); [lia|].
  unfold amino_acids.
  replace (Z.to_nat (Z.of_nat (length (residues self)) + 1 - 1))
    with (length (residues self).*1 + 0)%nat by (rewrite length_fmap; lia).
  now rewrite lookup_app_r, Nat.add_comm, Nat.add_sub by lia.
Qed.

Lemma n_term_pos self t : t ∈ n_term self -> 0 < t.
Proof.
  unfold n_term. rewrite list_elem_of_omap. intros (aa & _ & H).
  apply dict_of_names_ge in H. lia.
Qed.

(** ** [detokenize] keeps a final stop token *)

Lemma index_of_lookup x l i : index_of x l = Some i -> l !! i = Some x.
Proof.
  revert i; induction l as [|y l IH]; intros i; simpl; [done|].
  destruct (String.eqb_spec y x) as [->|].
  - now intros [= <-].
  - destruct (index_of x l) as [k|]; simpl; [|done].
    intros [= <-]. now apply IH.
Qed.

Lemma last_take_lookup {A} (l : list A) i x :
  l !! i = Some x -> last (take (S i) l) = Some x.
Proof.
  intros H. rewrite last_lookup, length_take.
  pose proof (lookup_lt_Some _ _ _ H).
  replace (Init.Nat.pred (S i `min` length l)) with i by lia.
  rewrite lookup_take_lt by lia. done.
Qed.

Lemma cut_at_stop_last (sequence : list string) :
  last sequence = Some "$"%string ->
  last (match index_of "$" sequence with
        | Some idx => take (S idx) sequence
        | None => sequence
        end) = Some "$"%string.
Proof.
  intros H. destruct (index_of "$" sequence) as [idx|] eqn:E; [|done].
  now apply last_take_lookup, index_of_lookup.
Qed.

Lemma head_reverse {A} (l : list A) : head (reverse l) = last l.
Proof.
  induction l as [|x l IH] using rev_ind; [done|].
  now rewrite reverse_snoc, last_snoc.
Qed.

Lemma pred_tokens_last self row step :
  (step < length row)%nat -> ends_stop_token self row step = true ->
  last (pred_tokens row step) = Some (stop_token self).
Proof.
  unfold ends_stop_token, pred_tokens. intros Hlen H.
  apply bool_decide_eq_true in H.
  destruct (lookup_lt_is_Some_2 row step Hlen) as [t Ht].
  unfold token_at in H. rewrite Ht in H. simpl in H. subst t.
  now apply last_take_lookup.
Qed.

(** The stop token a beam has just emitted is omitted from the peptide,
    whatever the direction of the decoder, and the peptide length is the
    number of tokens before it. *)
Lemma peptide_of_stop self row step :
  (step < length row)%nat -> ends_stop_token self row step = true ->
  (peptide_of self row step).2 = step.
Proof.
  intros Hlen Hstop. pose proof (pred_tokens_last _ _ _ Hlen Hstop) as Hlast.
  assert (length (pred_tokens row step) = S step) as Hl.
  { unfold pred_tokens. rewrite length_take. lia. }
  unfold peptide_of, detokenize. rewrite Hl.
  set (sequence := _ <$> pred_tokens row step).
  assert (last sequence = Some "$"%string) as Hs.
  { subst sequence. rewrite fmap_last, Hlast. simpl.
    now rewrite idx2aa_stop. }
  apply cut_at_stop_last in Hs.
  destruct (reverse_decoder self); simpl.
  - rewrite head_reverse, Hs, bool_decide_eq_true_2 by done. simpl. lia.
  - rewrite Hs, bool_decide_eq_true_2 by done. simpl. lia.
Qed.

(** ** A failed mass lookup *)

Lemma lookup_masses_None masses seq ext aa :
  aa ∈ seq -> masses_get masses aa = None ->
  lookup_masses masses (seq ++ ext) = None.
Proof.
  induction seq as [|a seq IH]; [by intros ?%elem_of_nil|].
  rewrite elem_of_cons. intros [->|Hin] Hget; simpl.
  - now rewrite Hget.
  - destruct (masses_get masses a); [|done]. now rewrite IH.
Qed.

Lemma peptide_mass_None self seq ext aa charge :
  aa ∈ seq -> masses_get (residues self) aa = None ->
  peptide_mass self (seq ++ ext) charge = None.
Proof.
  intros Hin Hget. unfold peptide_mass.
  now rewrite (lookup_masses_None _ _ _ _ Hin Hget).
Qed.

Lemma precursor_loop_None self finished peptide prec variants acc aa :
  aa ∈ peptide -> masses_get (residues self) aa = None ->
  precursor_loop self finished peptide prec variants acc
  = match variants with [] => acc | _ => (false, false) end.
Proof.
  intros Hin Hget. revert acc.
  induction variants as [|v variants IH]; intros acc; simpl; [done|].
  assert (peptide_mass self
            match v with None => peptide | Some a => peptide ++ [a] end
            (precursor_charge prec) = None) as ->.
  { destruct v.
    - now apply (peptide_mass_None _ _ _ aa).
    - rewrite <- (app_nil_r peptide). now apply (peptide_mass_None _ _ _ aa). }
  rewrite IH. now destruct variants.
Qed.

(** ** The sum of [np.mean] *)

(** The parts of a long array are shorter than the array. *)
Lemma pairwise_split_lt n :
  (128 < n)%nat ->
  (n / 2 - (n / 2) mod 8 < n)%nat /\ (0 < n / 2 - (n / 2) mod 8)%nat.
Proof.
  intros Hn. pose proof (Nat.mod_upper_bound (n / 2) 8).
  pose proof (Nat.Div0.div_lt_upper_bound n 2 n).
  assert (64 <= n / 2)%nat by (apply Nat.div_le_lower_bound; lia). lia.
Qed.

(** The result does not depend on the fuel, once it covers the length. *)
Lemma pairwise_sum_fuel fuel fuel' a :
  (length a <= fuel)%nat -> (length a <= fuel')%nat ->
  pairwise_sum fuel a = pairwise_sum fuel' a.
Proof.
  revert fuel' a. induction fuel as [|fuel IH]; intros fuel' a Hf Hf'.
  - destruct a; [|simpl in Hf; lia]. now destruct fuel'.
  - destruct fuel' as [|fuel'].
    + destruct a; [|simpl in Hf'; lia]. reflexivity.
    + cbn [pairwise_sum].
      destruct (length a <? 8)%nat; [done|].
      destruct (Nat.leb_spec (length a) 128) as [|Hlong]; [done|].
      destruct (pairwise_split_lt _ Hlong) as [Hlt Hpos].
      rewrite (IH fuel' (take _ a)), (IH fuel' (drop _ a)); [done|..];
        rewrite ?length_take, ?length_drop; lia.
Qed.

(** ** The modification rule *)

Lemma existsb_imap_true {A} (f : nat -> A -> bool) (l : list A) :
  existsb id (imap f l) = true <-> exists j t, l !! j = Some t /\ f j t = true.
Proof.
  revert f; induction l as [|x l IH]; intros f; simpl.
  - split; [done|]. now intros (j & t & H & _).
  - rewrite orb_true_iff, IH. split.
    + intros [H|(j & t & H1 & H2)]; [now exists 0%nat, x|now exists (S j), t].
    + intros ([|j] & t & H1 & H2); simpl in *.
      * left. now injection H1 as ->.
      * right. now exists j, t.
Qed.

Lemma isin_true t l : isin t l = true <-> t ∈ l.
Proof. unfold isin. apply bool_decide_eq_true. Qed.

Lemma internal_mods_true self row step :
  internal_mods self row step = true <->
  exists j t, (j < final_pos self row step)%nat /\ (0 < final_pos self row step)%nat
              /\ row !! j = Some t /\ t ∈ n_term self
  \/ (final_pos self row step = 0%nat /\ j = 0%nat
      /\ row !! j = Some t /\ t ∈ n_term self).
Proof.
  unfold internal_mods. rewrite existsb_imap_true.
  split; intros (j & t & H); exists j, t.
  - destruct H as [Hj H]. apply isin_true in H.
    destruct (bool_decide_reflect (j <= final_pos self row step - 1)%nat).
    + simpl in H. destruct (final_pos self row step) eqn:E.
      * right. split; [done|]. split; [lia|]. done.
      * left. split; [lia|]. split; [lia|]. done.
    + apply n_term_pos in H. lia.
  - rewrite isin_true.
    destruct H as [(Hlt & Hpos & Hj & Ht)|(Hz & -> & Hj & Ht)].
    + split; [done|]. now rewrite bool_decide_eq_true_2 by lia.
    + split; [done|]. now rewrite bool_decide_eq_true_2 by lia.
Qed.

Lemma final_pos_ge self row step : (1 < step)%nat -> (0 < final_pos self row step)%nat.
Proof. unfold final_pos. destruct (ends_stop_token self row step); lia. Qed.

Lemma token_at_n_term self (row : list Z) j :
  token_at row j ∈ n_term self -> row !! j = Some (token_at row j).
Proof.
  unfold token_at. intros H. destruct (row !! j) as [t|] eqn:E; [done|].
  simpl in H. apply n_term_pos in H. lia.
Qed.

Lemma invalid_mods_true self row step :
  (1 < step)%nat ->
  invalid_mods self row step = true <->
  exists j t, (j < final_pos self row step)%nat /\ row !! j = Some t
              /\ t ∈ n_term self.
Proof.
  intros Hstep. pose proof (final_pos_ge self row step Hstep) as Hfp.
  unfold invalid_mods. destruct (Nat.ltb_spec 1 step) as [_|?]; [|lia].
  rewrite orb_true_iff, internal_mods_true. split.
  - intros [H|(j & t & [(? & ? & ? & ?)|(? & _)])].
    + unfold multiple_mods in H. apply andb_true_iff in H as [_ H].
      apply isin_true in H.
      exists (final_pos self row step - 1)%nat, (token_at row (final_pos self row step - 1)).
      split; [lia|]. split; [|done]. now apply (token_at_n_term self).
    + now exists j, t.
    + lia.
  - intros (j & t & Hj & Ht & Hin). right. exists j, t. left. auto.
Qed.

(** ** The error monad *)

Lemma bind_Ok {A B} (m : result A) (k : A -> result B) b :
  bind m k = Ok b -> exists a, m = Ok a /\ k a = Ok b.
Proof. destruct m as [a|e]; simpl; [eauto|discriminate]. Qed.

Lemma is_Ok_bind {A B} (m : result A) (k : A -> result B) :
  is_Ok m -> (forall a, m = Ok a -> is_Ok (k a)) -> is_Ok (bind m k).
Proof. destruct m as [a|e]; simpl; [auto|tauto]. Qed.

Lemma is_Ok_exists {A} (m : result A) : is_Ok m <-> exists a, m = Ok a.
Proof.
  destruct m as [a|e]; simpl; split; eauto; try tauto.
  intros [a H]; discriminate.
Qed.

Ltac bind_inv H :=
  let a := fresh "r" in
  let H1 := fresh "Hr" in
  apply bind_Ok in H as (a & H1 & H).

Lemma foldM_invariant {S B} (f : S -> B -> result S) (I : S -> Prop) l s s' :
  (forall s b s', b ∈ l -> I s -> f s b = Ok s' -> I s') ->
  I s -> foldM f l s = Ok s' -> I s'.
Proof.
  revert s; induction l as [|b l IH]; intros s Hf Hs H; simpl in H.
  - now injection H as <-.
  - bind_inv H. apply (IH r); auto.
    + intros s1 b1 s1' Hb. apply Hf. now right.
    + apply (Hf s b); auto. now left.
Qed.

Lemma foldM_is_Ok {S B} (f : S -> B -> result S) (I : S -> Prop) l s :
  (forall s b, b ∈ l -> I s -> exists s', f s b = Ok s' /\ I s') ->
  I s -> is_Ok (foldM f l s).
Proof.
  revert s; induction l as [|b l IH]; intros s Hf Hs; simpl; [done|].
  destruct (Hf s b) as (s' & -> & Hs'); [now left|done|]. simpl.
  apply IH; auto. intros s1 b1 Hb. apply Hf. now right.
Qed.

(** ** [heapq] permutes the heap *)

Section heapq_perm.
Context {A : Type} (lt : A -> A -> result bool).

Lemma insert_swap_hole (heap : list A) i j x y :
  (i < length heap)%nat -> heap !! j = Some y -> i <> j ->
  <[j := x]> (<[i := y]> heap) ≡ₚ <[i := x]> heap.
Proof.
  intros Hi Hj Hne.
  rewrite <- (list_insert_insert_eq heap i y x).
  apply Permutation_insert_swap.
  - now apply list_lookup_insert_eq.
  - now rewrite list_lookup_insert_ne.
Qed.

Lemma siftdown_loop_perm fuel heap startpos pos newitem heap' :
  (pos < length heap)%nat ->
  siftdown_loop lt fuel heap startpos pos newitem = Ok heap' ->
  heap' ≡ₚ <[pos := newitem]> heap.
Proof.
  revert heap pos; induction fuel as [|fuel IH]; intros heap pos Hpos H;
    cbn [siftdown_loop] in H.
  - now injection H as <-.
  - destruct (startpos <? pos)%nat eqn:Hlt; [|now injection H as <-].
    apply Nat.ltb_lt in Hlt.
    destruct (heap !! ((pos - 1) / 2)%nat) as [parent|] eqn:Hp; [|discriminate].
    bind_inv H. destruct r.
    + apply IH in H; [|rewrite length_insert; now apply lookup_lt_Some in Hp].
      rewrite H. apply insert_swap_hole; auto.
      assert ((pos - 1) / 2 <= pos - 1)%nat by (apply Nat.Div0.div_le_upper_bound; lia).
      lia.
    + now injection H as <-.
Qed.

Lemma siftdown_perm heap startpos pos heap' :
  _siftdown lt heap startpos pos = Ok heap' -> heap' ≡ₚ heap.
Proof.
  unfold _siftdown. destruct (heap !! pos) as [newitem|] eqn:E; [|discriminate].
  intros H. apply siftdown_loop_perm in H; [|now apply lookup_lt_Some in E].
  now rewrite H, list_insert_id.
Qed.

Lemma siftup_loop_perm fuel heap pos endpos heap' pos' newitem :
  (pos < length heap)%nat ->
  siftup_loop lt fuel heap pos endpos = Ok (heap', pos') ->
  (pos' < length heap')%nat /\ <[pos' := newitem]> heap' ≡ₚ <[pos := newitem]> heap.
Proof.
  revert heap pos; induction fuel as [|fuel IH]; intros heap pos Hpos H;
    cbn [siftup_loop] in H.
  - now injection H as <- <-.
  - destruct (2 * pos + 1 <? endpos)%nat eqn:Hlt;
      [|now injection H as <- <-].
    bind_inv H. rename r into childpos.
    assert (pos < childpos)%nat as Hchild.
    { destruct (2 * pos + 1 + 1 <? endpos)%nat.
      - destruct (heap !! _), (heap !! _); try discriminate.
        bind_inv Hr. injection Hr as <-. destruct (negb r); lia.
      - injection Hr as <-. lia. }
    destruct (heap !! childpos) as [c|] eqn:Hc; [|discriminate].
    apply IH in H as [Hlen H];
      [|rewrite length_insert; now apply lookup_lt_Some in Hc].
    split; [done|]. rewrite H. apply insert_swap_hole; auto. lia.
Qed.

Lemma siftup_perm heap pos heap' :
  _siftup lt heap pos = Ok heap' -> heap' ≡ₚ heap.
Proof.
  unfold _siftup. destruct (heap !! pos) as [newitem|] eqn:E; [|discriminate].
  intros H. bind_inv H. destruct r as [heap1 pos1].
  apply (siftup_loop_perm _ _ _ _ _ _ newitem) in Hr as [Hlen Hr];
    [|now apply lookup_lt_Some in E].
  apply siftdown_perm in H. now rewrite H, Hr, list_insert_id.
Qed.

Lemma heappush_perm heap item heap' :
  heappush lt heap item = Ok heap' -> heap' ≡ₚ item :: heap.
Proof.
  unfold heappush. intros H%siftdown_perm.
  now rewrite H, Permutation_app_comm.
Qed.

Lemma insert_head_perm (heap : list A) root rest item :
  heap = root :: rest -> root :: <[0%nat := item]> heap ≡ₚ item :: heap.
Proof. intros ->. simpl. apply perm_swap. Qed.

Lemma heappushpop_perm heap item popped heap' :
  heappushpop lt heap item = Ok (popped, heap') ->
  popped :: heap' ≡ₚ item :: heap.
Proof.
  unfold heappushpop. destruct heap as [|root rest] eqn:E.
  - now intros [= <- <-].
  - rewrite <- E. intros H. bind_inv H. destruct r.
    + bind_inv H. injection H as <- <-. apply siftup_perm in Hr0.
      rewrite Hr0. now apply (insert_head_perm _ _ rest).
    + now injection H as <- <-.
Qed.

Lemma heapify_perm x x' : heapify lt x = Ok x' -> x' ≡ₚ x.
Proof.
  unfold heapify. apply (foldM_invariant _ (fun h => h ≡ₚ x)); [|done].
  intros h i h' _ Hh H%siftup_perm. now rewrite H.
Qed.

End heapq_perm.

(** ** The fuel of the two loops is enough

    More fuel than the loop can use changes nothing: [siftdown_loop] makes
    at most [pos] iterations, and [siftup_loop] at most [endpos - pos]. *)

Section heapq_fuel.
Context {A : Type} (lt : A -> A -> result bool).

Lemma siftdown_loop_fuel fuel1 fuel2 heap startpos pos newitem :
  (pos <= fuel1)%nat -> (pos <= fuel2)%nat ->
  siftdown_loop lt fuel1 heap startpos pos newitem
  = siftdown_loop lt fuel2 heap startpos pos newitem.
Proof.
  revert fuel2 heap pos; induction fuel1 as [|fuel1 IH];
    intros fuel2 heap pos H1 H2.
  - assert (pos = 0%nat) as -> by lia. destruct fuel2; [done|].
    cbn [siftdown_loop]. now destruct (startpos <? 0)%nat eqn:E;
      [apply Nat.ltb_lt in E; lia|].
  - destruct fuel2 as [|fuel2].
    + assert (pos = 0%nat) as -> by lia. cbn [siftdown_loop].
      now destruct (startpos <? 0)%nat eqn:E; [apply Nat.ltb_lt in E; lia|].
    + cbn [siftdown_loop]. destruct (startpos <? pos)%nat eqn:E; [|done].
      apply Nat.ltb_lt in E.
      destruct (heap !! ((pos - 1) / 2)%nat); [|done].
      destruct (lt newitem a) as [[]|]; cbn [bind]; [|done|done].
      assert ((pos - 1) / 2 <= pos - 1)%nat
        by (apply Nat.Div0.div_le_upper_bound; lia).
      apply IH; lia.
Qed.

Lemma siftup_loop_fuel fuel1 fuel2 heap pos endpos :
  (endpos <= pos + fuel1)%nat -> (endpos <= pos + fuel2)%nat ->
  siftup_loop lt fuel1 heap pos endpos = siftup_loop lt fuel2 heap pos endpos.
Proof.
  revert fuel2 heap pos; induction fuel1 as [|fuel1 IH];
    intros fuel2 heap pos H1 H2.
  - destruct fuel2; [done|]. cbn [siftup_loop].
    now destruct (2 * pos + 1 <? endpos)%nat eqn:E; [apply Nat.ltb_lt in E; lia|].
  - destruct fuel2 as [|fuel2].
    + cbn [siftup_loop].
      now destruct (2 * pos + 1 <? endpos)%nat eqn:E; [apply Nat.ltb_lt in E; lia|].
    + cbn [siftup_loop]. destruct (2 * pos + 1 <? endpos)%nat eqn:E; [|done].
      assert (forall childpos c, (pos < childpos)%nat ->
                siftup_loop lt fuel1 (<[pos := c]> heap) childpos endpos
                = siftup_loop lt fuel2 (<[pos := c]> heap) childpos endpos) as Hnext.
      { intros childpos c Hc. apply IH; lia. }
      destruct (2 * pos + 1 + 1 <? endpos)%nat.
      * destruct (heap !! (2 * pos + 1)%nat) as [c|]; [|done].
        destruct (heap !! (2 * pos + 1 + 1)%nat) as [r|]; [|done].
        destruct (lt c r) as [b|]; cbn [bind]; [|done].
        destruct (negb b).
        -- destruct (heap !! (2 * pos + 1 + 1)%nat); [|done]. apply Hnext. lia.
        -- destruct (heap !! (2 * pos + 1)%nat); [|done]. apply Hnext. lia.
      * cbn [bind]. destruct (heap !! (2 * pos + 1)%nat); [|done].
        apply Hnext. lia.
Qed.

End heapq_fuel.

(** ** What [_cache_finished_beams] does to a cache *)

Lemma gather_length smx tokens xs :
  gather smx tokens = Ok xs -> length xs = length tokens.
Proof.
  revert smx xs; induction tokens as [|t tokens IH]; intros smx xs H; simpl in H.
  - now injection H as <-.
  - destruct smx as [|r smx]; [discriminate|].
    bind_inv H. bind_inv H. injection H as <-. simpl. f_equal. eauto.
Qed.

Lemma length_removelast {A} (l : list A) :
  length (removelast l) = (length l - 1)%nat.
Proof.
  induction l as [|x l IH] using rev_ind; [done|].
  rewrite removelast_last, length_app. simpl. lia.
Qed.

Lemma removelast_fmap {A B} (f : A -> B) (l : list A) :
  removelast (f <$> l) = f <$> removelast l.
Proof.
  induction l as [|x l _] using rev_ind; [done|].
  rewrite fmap_app. change (f <$> [x]) with [f x].
  now rewrite !removelast_last.
Qed.

Lemma raw_aa_scores_length self row scores step raw :
  raw_aa_scores self row scores step = Ok raw ->
  length raw = if has_stop_token self row step
               then length (pred_tokens row step)
               else S (length (pred_tokens row step)).
Proof.
  unfold raw_aa_scores. intros H. bind_inv H. injection H as <-.
  apply gather_length in Hr.
  destruct (has_stop_token self row step); [done|].
  rewrite length_app. simpl. lia.
Qed.

(** The scores of the tuple offered to the heap, from the raw scores. *)
Lemma candidate_inv self row scores step fits item :
  candidate self row scores step fits = Ok item ->
  exists raw,
    raw_aa_scores self row scores step = Ok raw
    /\ peptide_score item = (if fits then np_mean raw else (np_mean raw - 1)%float)
    /\ aa_scores item = (fun x => ((x + np_mean raw) / 2)%float) <$> removelast raw
    /\ pred_peptide item = peptide_tokens self row step.
Proof.
  unfold candidate. intros H. bind_inv H. rename r into raw.
  exists raw. split; [done|]. unfold _aa_pep_score in H. injection H as <-.
  unfold peptide_score, aa_scores, pred_peptide. simpl.
  split; [now destruct fits|]. split; [|done].
  apply removelast_fmap.
Qed.

Lemma candidate_lengths self row scores step fits item :
  candidate self row scores step fits = Ok item ->
  length (aa_scores item) = length (pred_peptide item).
Proof.
  intros (raw & Hraw & _ & -> & ->)%candidate_inv.
  apply raw_aa_scores_length in Hraw.
  rewrite length_fmap, length_removelast, Hraw. unfold peptide_tokens.
  destruct (has_stop_token self row step) eqn:E.
  - now rewrite length_removelast.
  - lia.
Qed.

Lemma existsb_cached cache peptide :
  existsb (fun pred_cached => bool_decide (pred_peptide pred_cached = peptide)) cache
  = true <-> peptide ∈ pred_peptide <$> cache.
Proof.
  rewrite existsb_exists, list_elem_of_fmap. split.
  - intros (p & Hin & H%bool_decide_eq_true). exists p. split; [done|].
    now apply list_elem_of_In.
  - intros (p & -> & Hin). exists p. split; [now apply list_elem_of_In|].
    now apply bool_decide_eq_true.
Qed.

(** The three ways a beam leaves the cache of its spectrum: unchanged
    when its peptide is there already, one longer when there is room, and
    with one entry replaced or none when the cache is full. *)
Lemma cache_beam_cases self row scores step fits cache cache' :
  cache_beam self row scores step fits cache = Ok cache' ->
  (peptide_tokens self row step ∈ pred_peptide <$> cache /\ cache' = cache)
  \/ ((peptide_tokens self row step ∉ pred_peptide <$> cache)
      /\ exists item, candidate self row scores step fits = Ok item
         /\ ((length cache < n_beams self)%nat /\ cache' ≡ₚ item :: cache
             \/ (n_beams self <= length cache)%nat
                /\ exists popped, popped :: cache' ≡ₚ item :: cache)).
Proof.
  unfold cache_beam. destruct (pred_tokens row step) eqn:Hp; [discriminate|].
  destruct (existsb _ cache) eqn:E.
  - intros [= <-]. left. split; [|done]. now apply existsb_cached.
  - intros H. right. split.
    { intros Hin%existsb_cached. congruence. }
    bind_inv H. exists r. split; [done|].
    destruct (length cache <? n_beams self)%nat eqn:Hlen.
    + left. apply Nat.ltb_lt in Hlen. split; [done|].
      now apply heappush_perm in H.
    + right. apply Nat.ltb_ge in Hlen. split; [done|].
      bind_inv H. destruct r0 as [popped heap']. injection H as <-.
      exists popped. now apply heappushpop_perm in Hr0.
Qed.

(** A peptide that is in the cache already leaves it as it is. *)
Lemma cache_beam_duplicate self row scores step fits cache :
  pred_tokens row step <> [] ->
  peptide_tokens self row step ∈ pred_peptide <$> cache ->
  cache_beam self row scores step fits cache = Ok cache.
Proof.
  intros Hne Hin. unfold cache_beam.
  destruct (pred_tokens row step); [done|].
  apply existsb_cached in Hin. now rewrite Hin.
Qed.

Lemma cache_beam_ok self row scores step fits cache cache' :
  cache_ok self cache ->
  cache_beam self row scores step fits cache = Ok cache' ->
  cache_ok self cache'.
Proof.
  intros (Hlen & Hnd & Hall) H.
  apply cache_beam_cases in H as [[_ ->]|(Hnew & item & Hitem & H)]; [done|].
  pose proof (candidate_lengths _ _ _ _ _ _ Hitem) as Hl.
  apply candidate_inv in Hitem as (raw & _ & _ & _ & Htok).
  assert (NoDup (pred_peptide <$> item :: cache)) as Hnd'.
  { simpl. constructor; [now rewrite Htok|done]. }
  assert (Forall (fun p => length (aa_scores p) = length (pred_peptide p))
                 (item :: cache)) as Hall' by now constructor.
  destruct H as [[Hlt Hperm]|(Hge & popped & Hperm)].
  - split; [|split].
    + rewrite Hperm. simpl. lia.
    + now rewrite Hperm.
    + now rewrite Hperm.
  - rewrite <- Hperm in Hnd', Hall'. split; [|split].
    + apply Permutation_length in Hperm. simpl in Hperm. lia.
    + simpl in Hnd'. now apply NoDup_cons_1_2 in Hnd'.
    + now apply Forall_cons_1 in Hall' as [_ ?].
Qed.

Lemma cache_iteration_ok self tokens scores step to_cache fits pred_cache i pred_cache' :
  Forall (cache_ok self) pred_cache ->
  cache_iteration self tokens scores step to_cache fits pred_cache i = Ok pred_cache' ->
  Forall (cache_ok self) pred_cache'.
Proof.
  intros Hok. unfold cache_iteration.
  destruct (to_cache !! i) as [[]|]; [|now intros [= <-]|discriminate].
  destruct (n_beams self =? 0)%nat; [discriminate|].
  destruct (tokens !! i) as [row|]; [|discriminate].
  destruct (scores !! i) as [scores_i|]; [|discriminate].
  destruct (fits !! i) as [f|]; [|discriminate].
  destruct (pred_cache !! (i / n_beams self)%nat) as [cache|] eqn:Hc; [|discriminate].
  intros H. bind_inv H. injection H as <-.
  apply Forall_insert; [done|].
  apply (cache_beam_ok _ _ _ _ _ _ _ (Forall_lookup_1 _ _ _ _ Hok Hc) Hr).
Qed.

Lemma reachable_ok self batch pred_cache :
  reachable self batch pred_cache -> Forall (cache_ok self) pred_cache.
Proof.
  induction 1 as [|? ? ? ? ? ? ? ? _ IH H].
  - apply Forall_replicate. split; [simpl; lia|]. split; constructor.
  - now apply cache_iteration_ok in H.
Qed.

(** A call of [_cache_finished_beams] goes through reachable states. *)
Lemma cache_finished_beams_reachable self batch tokens scores step to_cache fits
    pred_cache pred_cache' :
  reachable self batch pred_cache ->
  _cache_finished_beams self tokens scores step to_cache fits pred_cache
  = Ok pred_cache' ->
  reachable self batch pred_cache'.
Proof.
  unfold _cache_finished_beams. intros Hr.
  apply (foldM_invariant _ (reachable self batch)); [|done].
  intros pc i pc' _ Hpc H. eapply reachable_step; eauto.
Qed.

(** ** The cache of [beam_search_decode] is a reachable state *)

Section decode_props.
Context {Memory : Type} (self : Spec2Pep) (scorer : Scorer Memory).

Lemma decode_loop_reachable batch n precursors memories steps tokens scores
    pred_cache pred_cache' :
  reachable self n pred_cache ->
  decode_loop self scorer batch precursors memories steps tokens scores pred_cache
  = Ok pred_cache' ->
  reachable self n pred_cache'.
Proof.
  revert tokens scores pred_cache;
    induction steps as [|step steps IH]; intros tokens scores pred_cache Hr H;
    simpl in H.
  - now injection H as <-.
  - bind_inv H. destruct r as [[finished fits] discarded].
    bind_inv H. rename r into pred_cache1.
    apply (cache_finished_beams_reachable _ n) in Hr1; [|done].
    destruct (forallb id _); [now injection H as <-|].
    bind_inv H. bind_inv H. destruct r0 as [tokens1 scores1].
    now apply IH in H.
Qed.

Lemma decode_cache_reachable memories precursors pred_cache :
  decode_cache self scorer memories precursors = Ok pred_cache ->
  reachable self (length memories) pred_cache.
Proof.
  unfold decode_cache. intros H. bind_inv H.
  apply (decode_loop_reachable _ (length memories)) in H; [done|].
  apply reachable_init.
Qed.

End decode_props.

(** ** Sorting with a comparison that may raise *)

Lemma pairwise_perm {A} (C : A -> A -> Prop) l l' :
  l ≡ₚ l' -> pairwise C l -> pairwise C l'.
Proof. intros Hp H x k Hk. apply H. now rewrite Hp. Qed.

Lemma pairwise_cons {A} (C : A -> A -> Prop) x l :
  pairwise C (x :: l) -> Forall (C x) l /\ pairwise C l.
Proof.
  intros H. split; [now apply H|].
  intros y k Hk. specialize (H y (x :: k)).
  assert (x :: l ≡ₚ y :: x :: k) as Hp by (rewrite Hk; apply perm_swap).
  apply H in Hp. now apply Forall_cons_1 in Hp as [_ ?].
Qed.

Lemma pairwise_cons_l {A} (C : A -> A -> Prop) x l y :
  pairwise C (x :: l) -> y ∈ l -> C y x.
Proof.
  intros H [k Hk]%elem_of_Permutation.
  specialize (H y (x :: k)).
  assert (x :: l ≡ₚ y :: x :: k) as Hp by (rewrite Hk; apply perm_swap).
  apply H in Hp. now apply Forall_cons_1 in Hp as [? _].
Qed.

Lemma pairwise_lookup {A} (C : A -> A -> Prop) (l : list A) i j x y :
  pairwise C l -> i <> j -> l !! i = Some x -> l !! j = Some y -> C x y.
Proof.
  intros H Hne Hi Hj.
  pose proof (H x (delete i l) (delete_Permutation l i x Hi)) as Hall.
  rewrite Forall_forall in Hall. apply Hall.
  apply list_elem_of_lookup.
  destruct (decide (j < i)%nat).
  - exists j. now rewrite list_lookup_delete_lt by lia.
  - exists (j - 1)%nat. rewrite list_lookup_delete_ge by lia.
    now replace (S (j - 1)) with j by lia.
Qed.

Lemma pairwise_app_l {A} (C : A -> A -> Prop) l1 l2 :
  pairwise C (l1 ++ l2) -> pairwise C l1.
Proof.
  intros H. apply (pairwise_perm C _ (l2 ++ l1)) in H;
    [|apply Permutation_app_comm].
  induction l2 as [|x l2 IH]; [done|].
  apply IH. simpl in H. now apply pairwise_cons in H as [_ ?].
Qed.

Lemma pairwise_fmap {A B} (f : A -> B) (C : B -> B -> Prop) (l : list A) :
  pairwise C (f <$> l) -> pairwise (fun a b => C (f a) (f b)) l.
Proof.
  intros H x k Hk.
  apply (pairwise_perm C _ (f <$> x :: k)) in H; [|now rewrite Hk].
  rewrite fmap_cons in H. apply pairwise_cons in H as [H _].
  rewrite Forall_fmap in H. exact H.
Qed.

Section sorting_props.
Context {A : Type} (lt : A -> A -> result bool).

Lemma insort_perm x l r : insort lt x l = Ok r -> r ≡ₚ x :: l.
Proof.
  revert r; induction l as [|y l IH]; intros r H; simpl in H.
  - now injection H as <-.
  - bind_inv H. destruct r0.
    + now injection H as <-.
    + bind_inv H. injection H as <-. rewrite (IH _ Hr0). apply perm_swap.
Qed.

Lemma sort_ascending_perm l r : sort_ascending lt l = Ok r -> r ≡ₚ l.
Proof.
  unfold sort_ascending.
  enough (forall acc, foldM (fun sorted x => insort lt x sorted) l acc = Ok r ->
                      r ≡ₚ l ++ acc) as H.
  { intros Hr%H. now rewrite app_nil_r in Hr. }
  induction l as [|x l IH]; intros acc H; simpl in H.
  - now injection H as <-.
  - bind_inv H. apply IH in H. apply insort_perm in Hr.
    rewrite H, Hr. simpl. now rewrite Permutation_middle.
Qed.

Lemma sorted_reverse_perm l r : sorted_reverse lt l = Ok r -> r ≡ₚ l.
Proof.
  unfold sorted_reverse. intros H. bind_inv H. injection H as <-.
  apply sort_ascending_perm in Hr.
  now rewrite reverse_Permutation, Hr, reverse_Permutation.
Qed.

(** *** The sort returns when the items are comparable *)

Context (C : A -> A -> Prop).
Hypothesis lt_ok : forall x y, C x y -> is_Ok (lt x y).

Lemma insort_is_Ok x l : Forall (C x) l -> is_Ok (insort lt x l).
Proof.
  induction 1 as [|y l Hy _ IH]; simpl; [done|].
  apply is_Ok_bind; [now apply lt_ok|]. intros [] _; [done|].
  apply is_Ok_bind; [done|]. now intros.
Qed.

Lemma sort_ascending_is_Ok l : pairwise C l -> is_Ok (sort_ascending lt l).
Proof.
  unfold sort_ascending. intros H.
  enough (forall acc, pairwise C (l ++ acc) ->
            is_Ok (foldM (fun sorted x => insort lt x sorted) l acc)) as Hen.
  { apply Hen. now rewrite app_nil_r. }
  clear H. induction l as [|x l IH]; intros acc H; simpl; [done|].
  apply is_Ok_bind.
  - apply insort_is_Ok. simpl in H. apply pairwise_cons in H as [H _].
    now apply Forall_app in H as [_ ?].
  - intros r Hr%insort_perm. apply IH.
    apply (pairwise_perm C ((x :: l) ++ acc)); [|done].
    simpl. now rewrite Hr, Permutation_middle.
Qed.

Lemma sorted_reverse_is_Ok l : pairwise C l -> is_Ok (sorted_reverse lt l).
Proof.
  intros H. unfold sorted_reverse. apply is_Ok_bind; [|done].
  apply sort_ascending_is_Ok.
  apply (pairwise_perm C l); [|done]. now rewrite reverse_Permutation.
Qed.

(** *** The result is sorted *)

Context (R : A -> A -> Prop) (P : A -> Prop).
Context `{!Transitive R}.
Hypothesis lt_true : forall x y, P x -> P y -> lt x y = Ok true -> R x y.
Hypothesis lt_false : forall x y, P x -> P y -> lt x y = Ok false -> R y x.

Lemma insort_sorted x l r :
  P x -> Forall P l -> StronglySorted R l ->
  insort lt x l = Ok r -> StronglySorted R r.
Proof.
  intros Hx. revert r; induction l as [|y l IH]; intros r Hl Hs H; simpl in H.
  - injection H as <-. repeat constructor.
  - apply Forall_cons_1 in Hl as [Hy Hl].
    apply StronglySorted_cons in Hs as [Hyl Hs].
    bind_inv H. destruct r0.
    + injection H as <-. apply lt_true in Hr; [|done..].
      constructor; [now constructor|].
      constructor; [done|]. eapply Forall_impl; [exact Hyl|].
      intros z Hz. now transitivity y.
    + bind_inv H. injection H as <-. apply lt_false in Hr; [|done..].
      constructor; [now apply IH|].
      rewrite (insort_perm _ _ _ Hr0). now constructor.
Qed.

Lemma sort_ascending_sorted l r :
  Forall P l -> sort_ascending lt l = Ok r -> StronglySorted R r.
Proof.
  unfold sort_ascending. intros Hl.
  apply (foldM_invariant _ (fun acc => StronglySorted R acc /\ Forall P acc /\
                                        forall x, x ∈ acc -> P x)).
  - intros acc x acc' Hx (Hs & Hp & _) H.
    rewrite Forall_forall in Hl. split; [|split].
    + eapply insort_sorted; eauto.
    + rewrite (insort_perm _ _ _ H). constructor; auto.
    + intros z. rewrite (insort_perm _ _ _ H), elem_of_cons.
      rewrite Forall_forall in Hp. intros [->|?]; auto.
  - split; [constructor|]. split; [constructor|]. now intros x ?%elem_of_nil.
Qed.

Lemma StronglySorted_reverse (l : list A) :
  StronglySorted R l -> StronglySorted (flip R) (reverse l).
Proof.
  induction 1 as [|x l Hs IH Hx]; [constructor|].
  rewrite reverse_cons. apply StronglySorted_app. split; [|split]; [|done|].
  - intros y z Hy ->%list_elem_of_singleton. rewrite elem_of_reverse in Hy.
    rewrite Forall_forall in Hx. unfold flip. now apply Hx.
  - repeat constructor.
Qed.

Lemma sorted_reverse_sorted l r :
  Forall P l -> sorted_reverse lt l = Ok r -> StronglySorted (flip R) r.
Proof.
  intros Hl H. unfold sorted_reverse in H. bind_inv H. injection H as <-.
  apply StronglySorted_reverse. eapply sort_ascending_sorted; [|done].
  now apply Forall_reverse.
Qed.

End sorting_props.

(** ** [heapq] returns when the items are comparable *)

Section heapq_ok.
Context {A : Type} (lt : A -> A -> result bool) (C : A -> A -> Prop).
Hypothesis lt_ok : forall x y, C x y -> is_Ok (lt x y).

Lemma parent_lt pos : (0 < pos)%nat -> ((pos - 1) / 2 < pos)%nat.
Proof.
  intros H.
  assert ((pos - 1) / 2 <= pos - 1)%nat by (apply Nat.Div0.div_le_upper_bound; lia).
  lia.
Qed.

Lemma siftdown_loop_is_Ok fuel heap startpos pos newitem :
  (pos < length heap)%nat -> pairwise C (<[pos := newitem]> heap) ->
  is_Ok (siftdown_loop lt fuel heap startpos pos newitem).
Proof.
  revert heap pos; induction fuel as [|fuel IH]; intros heap pos Hpos Hc;
    cbn [siftdown_loop]; [done|].
  destruct (startpos <? pos)%nat eqn:Hlt; [|done].
  apply Nat.ltb_lt in Hlt.
  assert ((pos - 1) / 2 < pos)%nat as Hpar by (apply parent_lt; lia).
  destruct (lookup_lt_is_Some_2 heap ((pos - 1) / 2)%nat) as [parent Hp]; [lia|].
  rewrite Hp. apply is_Ok_bind.
  - apply lt_ok.
    apply (pairwise_lookup C (<[pos := newitem]> heap) pos ((pos - 1) / 2)%nat);
      [done|lia| |].
    + now apply list_lookup_insert_eq.
    + rewrite list_lookup_insert_ne by lia. done.
  - intros [] _; [|done]. apply IH.
    + rewrite length_insert. lia.
    + apply (pairwise_perm C (<[pos := newitem]> heap)); [|done].
      symmetry. apply insert_swap_hole; auto. lia.
Qed.

Lemma siftdown_is_Ok heap startpos pos :
  (pos < length heap)%nat -> pairwise C heap -> is_Ok (_siftdown lt heap startpos pos).
Proof.
  intros Hpos Hc. unfold _siftdown.
  destruct (lookup_lt_is_Some_2 heap pos Hpos) as [newitem Hn]. rewrite Hn.
  apply siftdown_loop_is_Ok; [done|]. now rewrite list_insert_id.
Qed.

Lemma siftup_loop_is_Ok fuel heap pos endpos newitem :
  (pos < length heap)%nat -> (endpos <= length heap)%nat ->
  pairwise C (<[pos := newitem]> heap) ->
  is_Ok (siftup_loop lt fuel heap pos endpos).
Proof.
  revert heap pos; induction fuel as [|fuel IH]; intros heap pos Hpos Hend Hc;
    cbn [siftup_loop]; [done|].
  destruct (2 * pos + 1 <? endpos)%nat eqn:Hlt; [|done].
  apply Nat.ltb_lt in Hlt.
  destruct (lookup_lt_is_Some_2 heap (2 * pos + 1)%nat) as [c Hc1]; [lia|].
  assert (forall childpos c', (pos < childpos)%nat -> heap !! childpos = Some c' ->
            is_Ok (siftup_loop lt fuel (<[pos := c']> heap) childpos endpos)) as Hnext.
  { intros childpos c' Hlt' Hc'. apply IH.
    - rewrite length_insert. now apply lookup_lt_Some in Hc'.
    - now rewrite length_insert.
    - apply (pairwise_perm C (<[pos := newitem]> heap)); [|done].
      symmetry. apply insert_swap_hole; auto. lia. }
  destruct (2 * pos + 1 + 1 <? endpos)%nat eqn:Hr.
  - apply Nat.ltb_lt in Hr.
    destruct (lookup_lt_is_Some_2 heap (2 * pos + 1 + 1)%nat) as [r Hc2]; [lia|].
    rewrite Hc1, Hc2. apply is_Ok_bind.
    + apply is_Ok_bind; [|done]. apply lt_ok.
      apply (pairwise_lookup C (<[pos := newitem]> heap)
               (2 * pos + 1)%nat (2 * pos + 1 + 1)%nat); [done|lia| |];
        rewrite list_lookup_insert_ne by lia; done.
    + intros childpos H. bind_inv H. injection H as <-. cbv beta.
      change (pos + (pos + 0))%nat with (2 * pos)%nat.
      destruct (negb r0).
      * rewrite Hc2. apply Hnext; [lia|done].
      * rewrite Hc1. apply Hnext; [lia|done].
  - cbn [bind]. rewrite Hc1. apply Hnext; [lia|done].
Qed.

Lemma siftup_is_Ok heap pos :
  (pos < length heap)%nat -> pairwise C heap -> is_Ok (_siftup lt heap pos).
Proof.
  intros Hpos Hc. unfold _siftup.
  destruct (lookup_lt_is_Some_2 heap pos Hpos) as [newitem Hn]. rewrite Hn.
  apply is_Ok_bind.
  - apply (siftup_loop_is_Ok _ _ _ _ newitem); [done|done|].
    now rewrite list_insert_id.
  - intros [heap1 pos1] H.
    apply (siftup_loop_perm _ _ _ _ _ _ _ newitem) in H as [Hlen H]; [|done].
    rewrite (list_insert_id heap pos newitem Hn) in H.
    apply siftdown_is_Ok; [now rewrite length_insert|].
    apply (pairwise_perm C heap); [now symmetry|done].
Qed.

Lemma heapify_is_Ok x : pairwise C x -> is_Ok (heapify lt x).
Proof.
  intros Hc. unfold heapify.
  apply (foldM_is_Ok _ (fun h => h ≡ₚ x)); [|done].
  intros h i Hi Hh. rewrite elem_of_reverse, elem_of_seq in Hi.
  assert (length x / 2 <= length x)%nat by (apply Nat.Div0.div_le_upper_bound; lia).
  destruct (_siftup lt h i) as [h'|] eqn:E.
  - exists h'. split; [done|]. apply siftup_perm in E. now rewrite E.
  - exfalso. assert (is_Ok (_siftup lt h i)) as Hok; [|now rewrite E in Hok].
    apply siftup_is_Ok.
    + rewrite (Permutation_length Hh). lia.
    + apply (pairwise_perm C x); [now symmetry|done].
Qed.

Lemma heapreplace_is_Ok heap item :
  heap <> [] -> pairwise C (<[0%nat := item]> heap) ->
  is_Ok (heapreplace lt heap item).
Proof.
  intros Hne Hc. unfold heapreplace. destruct heap as [|root rest] eqn:E; [done|].
  rewrite <- E in *. apply is_Ok_bind; [|done].
  apply siftup_is_Ok; [|done]. rewrite length_insert, E. simpl. lia.
Qed.

End heapq_ok.

(** ** [heapq.nlargest] *)

Lemma heapreplace_root {A} (lt : A -> A -> result bool) heap item popped heap' :
  heapreplace lt heap item = Ok (popped, heap') ->
  head heap = Some popped /\ heap' ≡ₚ item :: tail heap.
Proof.
  unfold heapreplace. destruct heap as [|root rest]; [discriminate|].
  intros H. bind_inv H. injection H as <- <-. split; [done|].
  now apply siftup_perm in Hr.
Qed.

Lemma StronglySorted_take {A} (R : A -> A -> Prop) n (l : list A) :
  StronglySorted R l -> StronglySorted R (take n l).
Proof.
  intros H. rewrite <- (take_drop n l) in H.
  now apply StronglySorted_app_1_l in H.
Qed.

Section nlargest_props.
Context {A : Type} (lt gt eq : A -> A -> result bool).

(** *** Length and origin of the result *)

Lemma py_max_elem l m : py_max gt l = Ok (Some m) -> m ∈ l.
Proof.
  destruct l as [|x l]; [discriminate|]. simpl. intros H. bind_inv H.
  injection H as <-. revert Hr.
  apply (foldM_invariant _ (fun m => m ∈ x :: l)); [|now left].
  intros m item m' Hitem Hm H. bind_inv H. injection H as <-.
  destruct r0; [now right|done].
Qed.

Lemma nlargest_fold_inv rest result top order result' top' order' :
  foldM (nlargest_step lt eq) rest (result, top, order) = Ok (result', top', order') ->
  length result' = length result
  /\ forall p, p ∈ result' -> p ∈ result \/ p.1 ∈ rest.
Proof.
  revert result top order; induction rest as [|elem rest IH];
    intros result top order H; simpl in H.
  - injection H as <- <- <-. auto.
  - bind_inv H. destruct r as [[result1 top1] order1].
    apply IH in H as [Hlen Hin]. unfold nlargest_step in Hr.
    bind_inv Hr. destruct r.
    + bind_inv Hr. destruct r as [popped result2].
      destruct result2 as [|[top2 o2] result2'] eqn:E; [discriminate|].
      injection Hr as <- <- <-.
      apply heapreplace_root in Hr1 as [Hhead Hperm].
      destruct result as [|root tl]; [discriminate|]. simpl in Hperm.
      split.
      * rewrite Hlen, (Permutation_length Hperm). done.
      * intros p [Hp|Hp]%Hin; [|right; now right].
        rewrite Hperm, elem_of_cons in Hp.
        destruct Hp as [->|Hp]; [right; now left|left; now right].
    + injection Hr as <- <- <-. split; [done|].
      intros p [Hp|Hp]%Hin; [now left|right; now right].
Qed.

Lemma take_elem_of {B} n (l : list B) x : x ∈ take n l -> x ∈ l.
Proof. rewrite elem_of_take. intros (i & H & _). now apply list_elem_of_lookup_2 in H. Qed.

Lemma drop_elem_of {B} n (l : list B) x : x ∈ drop n l -> x ∈ l.
Proof.
  intros H. rewrite <- (take_drop n l), elem_of_app. now right.
Qed.

Lemma nlargest_length_elem n iterable out :
  nlargest lt gt eq n iterable = Ok out ->
  (length out <= n)%nat /\ forall x, x ∈ out -> x ∈ iterable.
Proof.
  unfold nlargest. destruct (n =? 1)%nat eqn:E1.
  { apply Nat.eqb_eq in E1 as ->. intros H. bind_inv H. injection H as <-.
    destruct r as [m|]; simpl.
    - split; [lia|]. intros x ->%list_elem_of_singleton.
      now apply py_max_elem in Hr.
    - split; [lia|]. now intros x ?%elem_of_nil. }
  destruct (length iterable <=? n)%nat eqn:E2.
  { intros H. bind_inv H. injection H as <-. split.
    - rewrite length_take. lia.
    - intros x Hx%take_elem_of. now rewrite (sorted_reverse_perm _ _ _ Hr) in Hx. }
  set (result0 := zip (take n iterable) _).
  assert (result0.*1 = take n iterable) as Hfst.
  { apply fst_zip. rewrite length_take, length_fmap, length_seq. lia. }
  destruct result0 as [|d result0'] eqn:E0.
  { intros [= <-]. split; [simpl; lia|]. now intros x ?%elem_of_nil. }
  rewrite <- E0 in *. clear E0 d result0'.
  intros H. bind_inv H. rename r into result1.
  destruct result1 as [|[top o] result1'] eqn:E; [discriminate|].
  rewrite <- E in *. bind_inv H. destruct r as [[result2 top2] order2].
  bind_inv H. injection H as <-.
  apply heapify_perm in Hr. apply nlargest_fold_inv in Hr0 as [Hlen Hin].
  apply sorted_reverse_perm in Hr1. split.
  - rewrite length_fmap, (Permutation_length Hr1), Hlen, (Permutation_length Hr).
    rewrite <- (length_fmap fst), Hfst, length_take. lia.
  - intros x (p & -> & Hp)%list_elem_of_fmap. rewrite Hr1 in Hp.
    apply Hin in Hp as [Hp|Hp].
    + rewrite Hr in Hp. apply (take_elem_of n). rewrite <- Hfst.
      now apply list_elem_of_fmap_2.
    + now apply drop_elem_of in Hp.
Qed.

End nlargest_props.

Section nlargest_sorted.
Context {A : Type} (lt gt eq : A -> A -> result bool).
Context (R : A -> A -> Prop) (P : A -> Prop) `{!Transitive R}.
Hypothesis lt_true : forall x y, P x -> P y -> lt x y = Ok true -> R x y.
Hypothesis lt_false : forall x y, P x -> P y -> lt x y = Ok false -> R y x.
Hypothesis eq_true : forall x y, P x -> P y -> eq x y = Ok true -> R x y /\ R y x.

(** *** The result is sorted, largest first *)

Local Instance decorated_transitive : Transitive (fun p q : A * Z => R p.1 q.1).
Proof. intros p q r. apply transitivity. Qed.

Lemma decorated_lt_true (p q : A * Z) :
  P p.1 -> P q.1 -> decorated_lt lt eq p q = Ok true -> R p.1 q.1.
Proof.
  intros Hp Hq H. unfold decorated_lt in H. bind_inv H. destruct r; simpl in H.
  - now apply eq_true in Hr as [? _].
  - now apply lt_true.
Qed.

Lemma decorated_lt_false (p q : A * Z) :
  P p.1 -> P q.1 -> decorated_lt lt eq p q = Ok false -> R q.1 p.1.
Proof.
  intros Hp Hq H. unfold decorated_lt in H. bind_inv H. destruct r; simpl in H.
  - now apply eq_true in Hr as [_ ?].
  - now apply lt_false.
Qed.

Lemma nlargest_sorted n iterable out :
  Forall P iterable ->
  nlargest lt gt eq n iterable = Ok out -> StronglySorted (flip R) out.
Proof.
  intros HP. unfold nlargest. destruct (n =? 1)%nat.
  { intros H. bind_inv H. injection H as <-.
    destruct r; repeat constructor. }
  destruct (length iterable <=? n)%nat.
  { intros H. bind_inv H. injection H as <-. apply StronglySorted_take.
    now apply (sorted_reverse_sorted lt R P lt_true lt_false iterable). }
  set (result0 := zip (take n iterable) _).
  assert (result0.*1 = take n iterable) as Hfst.
  { apply fst_zip. rewrite length_take, length_fmap, length_seq. lia. }
  destruct result0 as [|d result0'] eqn:E0; [intros [= <-]; constructor|].
  rewrite <- E0 in *. clear E0 d result0'.
  intros H. bind_inv H. rename r into result1.
  destruct result1 as [|[top o] result1'] eqn:E; [discriminate|].
  rewrite <- E in *. bind_inv H. destruct r as [[result2 top2] order2].
  bind_inv H. injection H as <-.
  apply heapify_perm in Hr. apply nlargest_fold_inv in Hr0 as [_ Hin].
  apply (StronglySorted_fmap _ (fun p q : A * Z => flip R p.1 q.1)); [done|].
  apply (sorted_reverse_sorted (decorated_lt lt eq) (fun p q => R p.1 q.1)
           (fun p => P p.1) decorated_lt_true decorated_lt_false result2); [|done].
  pose proof (proj1 (Forall_forall P iterable) HP) as HP'.
  apply Forall_forall. intros p [Hp|Hp]%Hin.
  - rewrite Hr in Hp. apply HP', (take_elem_of n). rewrite <- Hfst.
    now apply list_elem_of_fmap_2.
  - apply HP'. now apply drop_elem_of in Hp.
Qed.

End nlargest_sorted.

(** *** The call returns when the items are comparable *)

Section nlargest_ok.
Context {A : Type} (lt gt eq : A -> A -> result bool) (C : A -> A -> Prop).
Hypothesis lt_ok : forall x y, C x y -> is_Ok (lt x y).
Hypothesis gt_ok : forall x y, C x y -> is_Ok (gt x y).
Hypothesis eq_ok : forall x y, C x y -> is_Ok (eq x y).

Lemma decorated_lt_ok (p q : A * Z) : C p.1 q.1 -> is_Ok (decorated_lt lt eq p q).
Proof.
  intros H. unfold decorated_lt. apply is_Ok_bind; [now apply eq_ok|].
  intros [] _; simpl; [done|now apply lt_ok].
Qed.

Lemma py_max_loop_is_Ok l m :
  pairwise C (m :: l) ->
  is_Ok (foldM (fun maxitem item =>
                  let* greater := gt item maxitem in
                  Ok (if greater then item else maxitem)) l m).
Proof.
  revert m; induction l as [|item l IH]; intros m H; simpl; [done|].
  apply is_Ok_bind.
  - apply is_Ok_bind; [|done]. apply gt_ok.
    apply (pairwise_cons_l C m (item :: l)); [done|now left].
  - intros m' Hm. bind_inv Hm. injection Hm as <-. apply IH.
    destruct r.
    + now apply pairwise_cons in H as [_ ?].
    + apply (pairwise_perm C _ (item :: m :: l)) in H; [|apply perm_swap].
      now apply pairwise_cons in H as [_ ?].
Qed.

Lemma py_max_is_Ok l : pairwise C l -> is_Ok (py_max gt l).
Proof.
  destruct l as [|x l]; [done|]. simpl. intros H.
  apply is_Ok_bind; [|done]. now apply py_max_loop_is_Ok.
Qed.

Lemma nlargest_step_is_Ok top o tl order elem :
  C top elem -> pairwise C (elem :: tl.*1) ->
  is_Ok (nlargest_step lt eq ((top, o) :: tl, top, order) elem).
Proof.
  intros Hte Htl. unfold nlargest_step.
  apply is_Ok_bind; [now apply lt_ok|]. intros [] _; [|done].
  apply is_Ok_bind.
  - apply (heapreplace_is_Ok _ (fun p q : A * Z => C p.1 q.1) decorated_lt_ok);
      [done|]. simpl. now apply pairwise_fmap.
  - intros [popped result'] Hrep. apply heapreplace_root in Hrep as [_ Hperm].
    destruct result' as [|[]]; [|done].
    apply Permutation_length in Hperm. simpl in Hperm. lia.
Qed.

(** The step keeps the decorated items and the items still to come
    comparable, and leaves the smallest item on top. *)
Lemma nlargest_step_pairwise top o tl order elem rest result' top' order' :
  pairwise C (((top, o) :: tl).*1 ++ elem :: rest) ->
  nlargest_step lt eq ((top, o) :: tl, top, order) elem = Ok (result', top', order') ->
  pairwise C (result'.*1 ++ rest)
  /\ exists o' tl', result' = (top', o') :: tl'.
Proof.
  intros H Hstep. rewrite fmap_cons in H. simpl in H.
  unfold nlargest_step in Hstep. bind_inv Hstep. destruct r.
  - bind_inv Hstep. destruct r as [popped result1].
    apply heapreplace_root in Hr0 as [_ Hperm]. simpl in Hperm.
    destruct result1 as [|[top1 o1] tl1] eqn:E; [discriminate|].
    injection Hstep as <- <- <-. split; [|eauto].
    rewrite <- E in *. clear E.
    apply pairwise_cons in H as [_ H].
    apply (pairwise_perm C (tl.*1 ++ elem :: rest)); [|done].
    rewrite Hperm, fmap_cons. simpl. now rewrite Permutation_middle.
  - injection Hstep as <- <- <-. split; [|eauto]. rewrite fmap_cons. simpl.
    apply (pairwise_perm C _ (elem :: top :: tl.*1 ++ rest)) in H.
    + now apply pairwise_cons in H as [_ ?].
    + rewrite <- Permutation_middle. apply perm_swap.
Qed.

Lemma nlargest_fold_is_Ok rest top o tl order :
  pairwise C (((top, o) :: tl).*1 ++ rest) ->
  exists result' top' order',
    foldM (nlargest_step lt eq) rest ((top, o) :: tl, top, order)
    = Ok (result', top', order')
    /\ pairwise C result'.*1.
Proof.
  revert top o tl order; induction rest as [|elem rest IH];
    intros top o tl order H.
  { exists ((top, o) :: tl), top, order. split; [done|].
    now rewrite app_nil_r in H. }
  cbn [foldM].
  assert (is_Ok (nlargest_step lt eq ((top, o) :: tl, top, order) elem)) as Hok.
  { pose proof H as H'. rewrite fmap_cons in H'. simpl in H'.
    apply nlargest_step_is_Ok.
    - apply pairwise_cons in H' as [H' _]. rewrite Forall_app in H'.
      destruct H' as [_ H']. now apply Forall_cons_1 in H' as [? _].
    - apply pairwise_cons in H' as [_ H'].
      apply (pairwise_perm C _ ((elem :: tl.*1) ++ rest)) in H'.
      + now apply pairwise_app_l in H'.
      + simpl. now rewrite Permutation_middle. }
  apply is_Ok_exists in Hok as [[[result1 top1] order1] Hstep].
  rewrite Hstep. simpl.
  apply (nlargest_step_pairwise _ _ _ _ _ rest) in Hstep
    as [Hp (o1 & tl1 & ->)]; [|done].
  now apply IH.
Qed.

Lemma nlargest_is_Ok n iterable :
  pairwise C iterable -> is_Ok (nlargest lt gt eq n iterable).
Proof.
  intros H. unfold nlargest. destruct (n =? 1)%nat.
  { apply is_Ok_bind; [now apply py_max_is_Ok|done]. }
  destruct (length iterable <=? n)%nat.
  { apply is_Ok_bind; [|done]. now apply (sorted_reverse_is_Ok lt C). }
  set (result0 := zip (take n iterable) _).
  assert (result0.*1 = take n iterable) as Hfst.
  { apply fst_zip. rewrite length_take, length_fmap, length_seq. lia. }
  assert (pairwise C (result0.*1 ++ drop n iterable)) as H0.
  { now rewrite Hfst, take_drop. }
  destruct result0 as [|d result0'] eqn:E0; [done|].
  rewrite <- E0 in *.
  apply is_Ok_bind.
  - apply (heapify_is_Ok _ (fun p q : A * Z => C p.1 q.1) decorated_lt_ok).
    apply pairwise_fmap. now apply pairwise_app_l in H0.
  - intros result1 Hr%heapify_perm.
    destruct result1 as [|[top o] tl] eqn:E.
    { rewrite E0 in Hr. now apply Permutation_nil_cons in Hr. }
    destruct (nlargest_fold_is_Ok (drop n iterable) top o tl (- Z.of_nat n))
      as (result2 & top2 & order2 & -> & Hp).
    { apply (pairwise_perm C (result0.*1 ++ drop n iterable)); [|done].
      now rewrite <- Hr. }
    simpl. apply is_Ok_bind; [|done].
    apply (sorted_reverse_is_Ok _ (fun p q : A * Z => C p.1 q.1) decorated_lt_ok).
    now apply pairwise_fmap.
Qed.

End nlargest_ok.

(** ** Comparing cache entries by their scores *)

#[local] Instance score_le_transitive : Transitive score_le.
Proof. intros a b c. apply FloatOrder.leb_trans. Qed.

Ltac score_cases a b :=
  destruct (FloatOrder.float_cmp_cases (peptide_score a) (peptide_score b))
    as [Hlt Hgt Heq Heq' Hle Hge|Hlt Hgt Heq Heq' Hle Hge
       |Hlt Hgt Heq Heq' Hle Hge|Hlt Hgt Heq Heq' Hle Hge Hnan].

Lemma tuple_richcompare_distinct op a b :
  distinct_scores a b ->
  tuple_richcompare op a b = Ok (float_op op (peptide_score a) (peptide_score b)).
Proof.
  unfold distinct_scores, tuple_richcompare. intros H.
  score_cases a b; rewrite Heq; simpl; try done;
    rewrite Hlt, Hgt in H; discriminate.
Qed.

Lemma tuple_richcompare_ok op a b :
  distinct_scores a b -> is_Ok (tuple_richcompare op a b).
Proof. intros H. now rewrite tuple_richcompare_distinct. Qed.

Lemma tuple_lt_true a b :
  score_not_nan a -> score_not_nan b -> tuple_lt a b = Ok true -> score_le a b.
Proof.
  unfold tuple_lt, tuple_richcompare, score_le, score_not_nan. intros Ha Hb.
  score_cases a b; rewrite Heq; simpl; try done.
  - unfold float_op. congruence.
  - destruct Hnan; congruence.
Qed.

Lemma tuple_lt_false a b :
  score_not_nan a -> score_not_nan b -> tuple_lt a b = Ok false -> score_le b a.
Proof.
  unfold tuple_lt, tuple_richcompare, score_le, score_not_nan. intros Ha Hb.
  score_cases a b; rewrite Heq; simpl; try done.
  - unfold float_op. congruence.
  - destruct Hnan; congruence.
Qed.

Lemma tuple_eq_true a b :
  score_not_nan a -> score_not_nan b -> tuple_eq a b = Ok true ->
  score_le a b /\ score_le b a.
Proof.
  unfold tuple_eq, tuple_richcompare, score_le, score_not_nan. intros Ha Hb.
  score_cases a b; rewrite Heq; simpl; try done;
    unfold float_op; congruence.
Qed.

(** ** [mapM] *)

Lemma mapM_Forall2 {B C} (f : B -> result C) (Q : B -> C -> Prop) l r :
  (forall b c, b ∈ l -> f b = Ok c -> Q b c) ->
  mapM f l = Ok r -> Forall2 Q l r.
Proof.
  revert r; induction l as [|b l IH]; intros r Hf H; simpl in H.
  - injection H as <-. constructor.
  - bind_inv H. bind_inv H. injection H as <-. constructor.
    + apply Hf; [now left|done].
    + apply IH; [|done]. intros b' c' Hb. apply Hf. now right.
Qed.

Lemma mapM_is_Ok {B C} (f : B -> result C) l :
  Forall (fun b => is_Ok (f b)) l -> is_Ok (mapM f l).
Proof.
  induction 1 as [|b l Hb _ IH]; simpl; [done|].
  apply is_Ok_bind; [done|]. intros c _. now apply is_Ok_bind.
Qed.

(** ** [_finish_beams] classifies each beam on its own *)

Lemma finish_beams_Ok self tokens precursors step :
  Forall (fun row => (step < length row)%nat) tokens ->
  (length tokens <= length precursors)%nat ->
  exists finished fits discarded,
    _finish_beams self tokens precursors step = Ok (finished, fits, discarded).
Proof.
  intros Hrows Hlen. unfold _finish_beams.
  assert (forallb (fun row => (step <? length row)%nat) tokens = true) as ->.
  { apply forallb_forall. intros row Hin%list_elem_of_In.
    rewrite Forall_forall in Hrows. now apply Nat.ltb_lt, Hrows. }
  assert ((length tokens <=? length precursors)%nat = true) as ->
    by now apply Nat.leb_le.
  simpl. eauto.
Qed.

Lemma finish_beams_lookup self tokens precursors step finished fits discarded
    i row prec :
  _finish_beams self tokens precursors step = Ok (finished, fits, discarded) ->
  tokens !! i = Some row -> precursors !! i = Some prec ->
  finished !! i = Some (finish_beam self row prec step).1.1
  /\ fits !! i = Some (finish_beam self row prec step).1.2
  /\ discarded !! i = Some (finish_beam self row prec step).2.
Proof.
  unfold _finish_beams. destruct (_ && _); [|discriminate].
  intros [= <- <- <-] Hrow Hprec.
  rewrite !list_lookup_fmap, !lookup_zip_with, Hrow, Hprec. done.
Qed.

(** ** [heapq] keeps the heap order *)

Section heapq_order.
Context {A : Type} (lt : A -> A -> result bool).
Context (R : A -> A -> Prop) (P : A -> Prop) `{!Transitive R}.
Hypothesis lt_true : forall x y, P x -> P y -> lt x y = Ok true -> R x y.
Hypothesis lt_false : forall x y, P x -> P y -> lt x y = Ok false -> R y x.

Lemma below_le n p : below n p -> (n <= p)%nat.
Proof.
  induction 1 as [|c Hc _ IH]; [lia|].
  pose proof (parent_lt c Hc). lia.
Qed.

Lemma below_parent n p : below n p -> p <> n -> (0 < p)%nat /\ below n ((p - 1) / 2).
Proof. destruct 1; [done|auto]. Qed.

Lemma below_0 p : below 0 p.
Proof.
  induction p as [p IH] using lt_wf_ind.
  destruct p as [|p]; [constructor|].
  apply below_child; [lia|]. apply IH. apply parent_lt. lia.
Qed.

Lemma children_of pos c :
  (0 < c)%nat -> ((c - 1) / 2)%nat = pos -> c = (2 * pos + 1)%nat \/ c = (2 * pos + 2)%nat.
Proof.
  intros Hc <-.
  pose proof (Nat.div_mod_eq (c - 1) 2) as H.
  pose proof (Nat.mod_upper_bound (c - 1) 2). lia.
Qed.

Lemma heap_hole_insert n pos v (heap : list A) :
  heap_hole R n pos heap -> heap_hole R n pos (<[pos := v]> heap).
Proof.
  intros H c x y Hc Hn Hne Hpne Hx Hy.
  rewrite list_lookup_insert_ne in Hx by done.
  rewrite list_lookup_insert_ne in Hy by done. eauto.
Qed.

(** Filling the hole gives back the order when the item fits there. *)
Lemma fill_hole n pos v (heap : list A) :
  (pos < length heap)%nat ->
  heap_hole R n pos heap -> hole_children R pos v heap ->
  (forall y, (0 < pos)%nat -> (n <= (pos - 1) / 2)%nat ->
             heap !! ((pos - 1) / 2)%nat = Some y -> R y v) ->
  heap_above R n (<[pos := v]> heap).
Proof.
  intros Hlen Hh Hc Hp c x y H0 Hn Hx Hy.
  destruct (decide (c = pos)) as [->|Hne].
  - rewrite list_lookup_insert_eq in Hx by done. injection Hx as <-.
    rewrite list_lookup_insert_ne in Hy by (pose proof (parent_lt pos H0); lia).
    eauto.
  - rewrite list_lookup_insert_ne in Hx by done.
    destruct (decide (((c - 1) / 2)%nat = pos)) as [Hp'|Hp'].
    + rewrite Hp', list_lookup_insert_eq in Hy by done. injection Hy as <-.
      eapply Hc; eauto.
    + rewrite list_lookup_insert_ne in Hy by done. eauto.
Qed.

Lemma siftdown_loop_heap n fuel heap pos newitem heap' :
  (pos <= fuel)%nat -> (pos < length heap)%nat -> below n pos ->
  Forall P heap -> P newitem ->
  heap_hole R n pos heap -> hole_children R pos newitem heap ->
  hole_parent R n pos heap ->
  siftdown_loop lt fuel heap n pos newitem = Ok heap' ->
  heap_above R n heap'.
Proof.
  revert heap pos; induction fuel as [|fuel IH];
    intros heap pos Hfuel Hlen Hbelow HP Hnew Hh Hc Hpar H;
    cbn [siftdown_loop] in H.
  - injection H as <-. apply fill_hole; auto. intros y H0. lia.
  - pose proof (below_le _ _ Hbelow) as Hle.
    destruct (n <? pos)%nat eqn:Hlt.
    2:{ injection H as <-. apply Nat.ltb_ge in Hlt.
        assert (pos = n) as -> by lia.
        apply fill_hole; auto. intros y H0 Hn.
        pose proof (parent_lt n H0). lia. }
    apply Nat.ltb_lt in Hlt.
    destruct (below_parent _ _ Hbelow) as [H0 Hbelow']; [lia|].
    pose proof (parent_lt pos H0) as Hplt.
    destruct (heap !! ((pos - 1) / 2)%nat) as [parent|] eqn:Hp; [|discriminate].
    assert (P parent) as HPp.
    { rewrite Forall_forall in HP. apply HP. eapply list_elem_of_lookup_2; eauto. }
    bind_inv H. destruct r.
    2:{ injection H as <-. apply fill_hole; auto.
        intros y _ _ Hy. rewrite Hp in Hy. injection Hy as <-. eauto. }
    assert (R newitem parent) as Hnp by eauto.
    pose proof (below_le _ _ Hbelow') as Hle'.
    assert (pos <> n) as Hne by lia.
    apply IH in H; auto.
    + lia.
    + rewrite length_insert. lia.
    + apply Forall_insert; auto.
    + (* the order away from the new hole *)
      intros c x y Hc0 Hn Hcne Hpne Hx Hy.
      destruct (decide (c = pos)) as [->|Hcp]; [done|].
      rewrite list_lookup_insert_ne in Hx by done.
      destruct (decide (((c - 1) / 2)%nat = pos)) as [Hpp|Hpp].
      * rewrite Hpp, list_lookup_insert_eq in Hy by done. injection Hy as <-.
        apply (Hpar Hne parent Hp c x); auto.
      * rewrite list_lookup_insert_ne in Hy by done. eauto.
    + (* the children of the new hole *)
      intros c x Hc0 Hcp Hx.
      destruct (decide (c = pos)) as [->|Hcne].
      * rewrite list_lookup_insert_eq in Hx by done. now injection Hx as <-.
      * rewrite list_lookup_insert_ne in Hx by done.
        transitivity parent; [done|].
        apply (Hh c x parent); rewrite ?Hcp; auto; lia.
    + (* the parent of the new hole *)
      intros Hqn y Hy.
      destruct (below_parent _ _ Hbelow' Hqn) as [Hq0 Hbelow''].
      pose proof (below_le _ _ Hbelow'') as Hle''.
      pose proof (parent_lt _ Hq0) as Hqlt.
      rewrite list_lookup_insert_ne in Hy by lia.
      assert (R y parent) as Hyp.
      { apply (Hh ((pos - 1) / 2)%nat parent y); auto; lia. }
      intros c x Hc0 Hcp Hx.
      destruct (decide (c = pos)) as [->|Hcne].
      * rewrite list_lookup_insert_eq in Hx by done. now injection Hx as <-.
      * rewrite list_lookup_insert_ne in Hx by done.
        transitivity parent; [done|].
        apply (Hh c x parent); rewrite ?Hcp; auto; lia.
Qed.


Lemma siftup_step n heap pos c cv :
  (pos < length heap)%nat -> below n pos ->
  heap_hole R n pos heap -> hole_parent R n pos heap ->
  (0 < c)%nat -> ((c - 1) / 2)%nat = pos -> heap !! c = Some cv ->
  (forall d x, (0 < d)%nat -> ((d - 1) / 2)%nat = pos -> d <> c ->
               heap !! d = Some x -> R cv x) ->
  below n c /\ heap_hole R n c (<[pos := cv]> heap)
  /\ hole_parent R n c (<[pos := cv]> heap).
Proof.
  intros Hlen Hbelow Hh Hpar Hc0 Hcp Hc Hsib.
  pose proof (parent_lt c Hc0) as Hclt. rewrite Hcp in Hclt.
  pose proof (below_le _ _ Hbelow) as Hle.
  split; [|split].
  - apply below_child; [done|]. now rewrite Hcp.
  - intros d x y Hd0 Hn Hdc Hpdc Hx Hy.
    destruct (decide (d = pos)) as [->|Hdp].
    + rewrite list_lookup_insert_eq in Hx by done. injection Hx as <-.
      pose proof (parent_lt pos Hd0) as Hplt.
      rewrite list_lookup_insert_ne in Hy by lia.
      assert (pos <> n) as Hne by lia.
      apply (Hpar Hne y Hy c cv); auto.
    + rewrite list_lookup_insert_ne in Hx by done.
      destruct (decide (((d - 1) / 2)%nat = pos)) as [Hpp|Hpp].
      * rewrite Hpp, list_lookup_insert_eq in Hy by done. injection Hy as <-.
        eauto.
      * rewrite list_lookup_insert_ne in Hy by done. eauto.
  - intros Hcn y Hy d x Hd0 Hdp Hx.
    rewrite Hcp, list_lookup_insert_eq in Hy by done. injection Hy as <-.
    pose proof (parent_lt d Hd0) as Hdlt. rewrite Hdp in Hdlt.
    rewrite list_lookup_insert_ne in Hx by lia.
    apply (Hh d x cv); rewrite ?Hdp; auto; lia.
Qed.

Lemma siftup_loop_heap n fuel heap pos endpos heap' pos' :
  endpos = length heap ->
  (endpos <= pos + fuel)%nat -> (pos < length heap)%nat -> below n pos ->
  Forall P heap ->
  heap_hole R n pos heap -> hole_parent R n pos heap ->
  siftup_loop lt fuel heap pos endpos = Ok (heap', pos') ->
  length heap' = length heap /\ (pos' < length heap')%nat /\ below n pos'
  /\ Forall P heap' /\ heap_hole R n pos' heap' /\ hole_parent R n pos' heap'
  /\ (length heap' <= 2 * pos' + 1)%nat.
Proof.
  revert heap pos; induction fuel as [|fuel IH];
    intros heap pos Hend Hfuel Hlen Hbelow HP Hh Hpar H;
    cbn [siftup_loop] in H.
  - injection H as <- <-. repeat split; auto. lia.
  - destruct (2 * pos + 1 <? endpos)%nat eqn:Hlt.
    2:{ injection H as <- <-. apply Nat.ltb_ge in Hlt. repeat split; auto. lia. }
    apply Nat.ltb_lt in Hlt.
    assert (forall c cv,
              (0 < c)%nat -> ((c - 1) / 2)%nat = pos -> heap !! c = Some cv ->
              (forall d x, (0 < d)%nat -> ((d - 1) / 2)%nat = pos -> d <> c ->
                           heap !! d = Some x -> R cv x) ->
              siftup_loop lt fuel (<[pos := cv]> heap) c endpos = Ok (heap', pos') ->
              length heap' = length heap /\ (pos' < length heap')%nat /\ below n pos'
              /\ Forall P heap' /\ heap_hole R n pos' heap'
              /\ hole_parent R n pos' heap'
              /\ (length heap' <= 2 * pos' + 1)%nat) as Hnext.
    { intros c cv Hc0 Hcp Hc Hsib Hloop.
      destruct (siftup_step n heap pos c cv) as (Hb & Hh' & Hpar'); auto.
      pose proof (parent_lt c Hc0) as Hclt. rewrite Hcp in Hclt.
      apply IH in Hloop; auto.
      - rewrite length_insert in Hloop. exact Hloop.
      - now rewrite length_insert.
      - lia.
      - rewrite length_insert. now apply lookup_lt_Some in Hc.
      - apply Forall_insert; auto.
        rewrite Forall_forall in HP. apply HP. eapply list_elem_of_lookup_2; eauto. }
    assert (((2 * pos + 1 - 1) / 2)%nat = pos) as Hp1.
    { replace (2 * pos + 1 - 1)%nat with (pos * 2)%nat by lia.
      now apply Nat.div_mul. }
    assert (((2 * pos + 1 + 1 - 1) / 2)%nat = pos) as Hp2.
    { replace (2 * pos + 1 + 1 - 1)%nat with (1 + pos * 2)%nat by lia.
      rewrite Nat.div_add by lia. done. }
    destruct (2 * pos + 1 + 1 <? endpos)%nat eqn:Hr.
    + destruct (heap !! (2 * pos + 1)%nat) as [c1|] eqn:Hc1; [|discriminate].
      destruct (heap !! (2 * pos + 1 + 1)%nat) as [c2|] eqn:Hc2; [|discriminate].
      assert (P c1 /\ P c2) as [HP1 HP2].
      { rewrite Forall_forall in HP.
        split; apply HP; eapply list_elem_of_lookup_2; eauto. }
      bind_inv H. bind_inv Hr0. injection Hr0 as <-. cbv beta in H.
      change (pos + (pos + 0))%nat with (2 * pos)%nat in H.
      destruct r0; simpl negb in H; cbv iota in H.
      * rewrite Hc1 in H. apply (Hnext (2 * pos + 1)%nat c1); auto; [lia|].
        intros d x Hd0 Hdp Hdc Hx.
        destruct (children_of pos d Hd0 Hdp) as [->| ->]; [done|].
        replace (2 * pos + 2)%nat with (2 * pos + 1 + 1)%nat in Hx by lia.
        rewrite Hc2 in Hx. injection Hx as <-. eauto.
      * rewrite Hc2 in H. apply (Hnext (2 * pos + 1 + 1)%nat c2); auto; [lia|].
        intros d x Hd0 Hdp Hdc Hx.
        destruct (children_of pos d Hd0 Hdp) as [->| ->]; [|lia].
        rewrite Hc1 in Hx. injection Hx as <-. eauto.
    + cbn [bind] in H. apply Nat.ltb_ge in Hr.
      destruct (heap !! (2 * pos + 1)%nat) as [c1|] eqn:Hc1; [|discriminate].
      apply (Hnext (2 * pos + 1)%nat c1); auto; [lia|].
      intros d x Hd0 Hdp Hdc Hx.
      destruct (children_of pos d Hd0 Hdp) as [->| ->]; [done|].
      apply lookup_lt_Some in Hx. lia.
Qed.

(** [_siftup] at [pos] extends the order from the parents after [pos] to
    the parents from [pos] on. *)
Lemma siftup_heap heap pos heap' :
  Forall P heap -> heap_above R (S pos) heap ->
  _siftup lt heap pos = Ok heap' -> heap_above R pos heap'.
Proof.
  intros HP Hh. unfold _siftup.
  destruct (heap !! pos) as [newitem|] eqn:Hn; [|discriminate].
  intros H. bind_inv H. destruct r as [heap1 pos1].
  assert (P newitem) as Hnew.
  { rewrite Forall_forall in HP. apply HP. eapply list_elem_of_lookup_2; eauto. }
  apply (siftup_loop_heap pos) in Hr
    as (Hlen & Hpos1 & Hbelow & HP1 & Hh1 & Hpar1 & Hleaf); auto.
  - unfold _siftdown in H. rewrite list_lookup_insert_eq in H by done.
    apply (siftdown_loop_heap pos) in H; auto.
    + now rewrite length_insert.
    + now apply Forall_insert.
    + now apply heap_hole_insert.
    + intros c x Hc0 Hcp Hx. apply lookup_lt_Some in Hx.
      rewrite length_insert in Hx.
      destruct (children_of pos1 c Hc0 Hcp); lia.
    + intros Hne y Hy c x Hc0 Hcp Hx. apply lookup_lt_Some in Hx.
      rewrite length_insert in Hx.
      destruct (children_of pos1 c Hc0 Hcp); lia.
  - lia.
  - now apply lookup_lt_Some in Hn.
  - constructor.
  - intros c x y Hc0 Hle Hcne Hpne. apply Hh; auto. lia.
  - intros Hne. done.
Qed.

Lemma heap_above_mono n m (heap : list A) :
  (n <= m)%nat -> heap_above R n heap -> heap_above R m heap.
Proof. intros Hnm Hh c x y Hc0 Hle. apply Hh; auto. lia. Qed.

Lemma heap_above_half (heap : list A) : heap_above R (length heap / 2) heap.
Proof.
  intros c x y Hc0 Hle Hx _. apply lookup_lt_Some in Hx.
  pose proof (Nat.div_mod_eq (c - 1) 2). pose proof (Nat.mod_upper_bound (c - 1) 2).
  pose proof (Nat.div_mod_eq (length heap) 2).
  pose proof (Nat.mod_upper_bound (length heap) 2). lia.
Qed.

(** [heapify] orders the whole list. *)
Lemma heapify_heap x x' : Forall P x -> heapify lt x = Ok x' -> is_heap R x'.
Proof.
  intros HP. unfold heapify.
  assert (forall k h h',
            (k <= length x / 2)%nat -> h ≡ₚ x -> heap_above R k h ->
            foldM (_siftup lt) (reverse (seq 0 k)) h = Ok h' -> heap_above R 0 h')
    as Hloop.
  { induction k as [|k IH]; intros h h' Hk Hperm Hh H.
    - simpl in H. now injection H as <-.
    - rewrite seq_S, reverse_app in H. simpl in H. bind_inv H.
      apply IH in H; auto; [lia| |].
      + apply siftup_perm in Hr. now rewrite Hr.
      + apply siftup_heap in Hr; auto. now rewrite Hperm. }
  intros H. apply Hloop in H; auto. apply heap_above_half.
Qed.

(** The first item of a heap is not above any other. *)
Lemma heap_root (heap : list A) root i x :
  is_heap R heap -> heap !! 0%nat = Some root -> (0 < i)%nat ->
  heap !! i = Some x -> R root x.
Proof.
  intros Hh Hroot. revert x. induction i as [i IH] using lt_wf_ind.
  intros x Hi Hx. pose proof (parent_lt i Hi) as Hlt.
  destruct (lookup_lt_is_Some_2 heap ((i - 1) / 2)%nat) as [y Hy].
  { apply lookup_lt_Some in Hx. lia. }
  assert (R y x) as Hyx by (apply (Hh i x y); auto; lia).
  destruct (decide (((i - 1) / 2)%nat = 0%nat)) as [E|E].
  - rewrite E in Hy. congruence.
  - transitivity y; [|done]. apply (IH ((i - 1) / 2)%nat); auto. lia.
Qed.

Lemma heap_root_tail (root : A) rest :
  is_heap R (root :: rest) -> Forall (R root) rest.
Proof.
  intros Hh. apply Forall_lookup. intros i x Hx.
  apply (heap_root (root :: rest) root (S i) x); auto. lia.
Qed.

Lemma heappush_heap heap item heap' :
  Forall P heap -> P item -> is_heap R heap ->
  heappush lt heap item = Ok heap' -> is_heap R heap'.
Proof.
  intros HP Hitem Hh. unfold heappush, _siftdown.
  rewrite lookup_app_r by lia. rewrite Nat.sub_diag. simpl.
  intros H. apply (siftdown_loop_heap 0) in H; auto.
  - rewrite length_app. simpl. lia.
  - apply below_0.
  - apply Forall_app. auto.
  - intros c x y Hc0 _ Hcne Hpne Hx Hy.
    assert (c < length heap)%nat as Hc.
    { apply lookup_lt_Some in Hx. rewrite length_app in Hx. simpl in Hx. lia. }
    pose proof (parent_lt c Hc0).
    rewrite lookup_app_l in Hx by done. rewrite lookup_app_l in Hy by lia.
    apply (Hh c x y); auto. lia.
  - intros c x Hc0 Hcp Hx. apply lookup_lt_Some in Hx.
    rewrite length_app in Hx. simpl in Hx.
    destruct (children_of _ c Hc0 Hcp); lia.
  - intros _ y _ c x Hc0 Hcp Hx. apply lookup_lt_Some in Hx.
    rewrite length_app in Hx. simpl in Hx.
    destruct (children_of _ c Hc0 Hcp); lia.
Qed.

(** Replacing the first item leaves the order of the other parents. *)
Lemma heap_above_replace_root (root : A) rest item :
  is_heap R (root :: rest) -> heap_above R 1 (item :: rest).
Proof.
  intros Hh c x y Hc0 Hle Hx Hy.
  destruct c as [|c]; [lia|].
  destruct ((S c - 1) / 2)%nat as [|p] eqn:E; [lia|].
  apply (Hh (S c) x y); auto; [lia|]. now rewrite E.
Qed.

Lemma heapreplace_heap heap item popped heap' :
  Forall P heap -> P item -> is_heap R heap ->
  heapreplace lt heap item = Ok (popped, heap') -> is_heap R heap'.
Proof.
  intros HP Hitem Hh. unfold heapreplace.
  destruct heap as [|root rest]; [discriminate|]. simpl.
  intros H. bind_inv H. injection H as <- <-.
  apply siftup_heap in Hr; auto.
  - apply Forall_cons_1 in HP as [_ HP]. now constructor.
  - now apply (heap_above_replace_root root).
Qed.

(** The three ways [heappushpop] ends. *)
Lemma heappushpop_cases heap item popped heap' :
  heappushpop lt heap item = Ok (popped, heap') ->
  (heap = [] /\ popped = item /\ heap' = [])
  \/ (exists root rest, heap = root :: rest /\ lt root item = Ok false
                        /\ popped = item /\ heap' = heap)
  \/ (exists root rest, heap = root :: rest /\ lt root item = Ok true
                        /\ popped = root
                        /\ _siftup lt (item :: rest) 0 = Ok heap').
Proof.
  unfold heappushpop. destruct heap as [|root rest].
  - intros [= <- <-]. now left.
  - intros H. bind_inv H. destruct r.
    + bind_inv H. injection H as <- <-. right. right. eauto 10.
    + injection H as <- <-. right. left. eauto 10.
Qed.

End heapq_order.

(** ** Comparisons that hold exclude NaN *)

Lemma SFcompare_Some_not_nan x y c :
  SFcompare x y = Some c -> x <> S754_nan /\ y <> S754_nan.
Proof. destruct x as [[]|[]| |[] m1 e1], y as [[]|[]| |[] m2 e2]; simpl; try done. Qed.

Lemma is_nan_false x : is_nan x = false <-> Prim2SF x <> S754_nan.
Proof.
  rewrite <- FloatOrder.is_nan_spec. destruct (is_nan x); split; congruence.
Qed.

Lemma ltb_not_nan x y :
  (x <? y)%float = true -> is_nan x = false /\ is_nan y = false.
Proof.
  rewrite FloatAxioms.ltb_spec, !is_nan_false. unfold SFltb.
  destruct (SFcompare (Prim2SF x) (Prim2SF y)) eqn:E; [|done].
  intros _. now apply SFcompare_Some_not_nan in E.
Qed.

Lemma eqb_not_nan x y :
  (x =? y)%float = true -> is_nan x = false /\ is_nan y = false.
Proof.
  rewrite FloatAxioms.eqb_spec, !is_nan_false. unfold SFeqb.
  destruct (SFcompare (Prim2SF x) (Prim2SF y)) eqn:E; [|done].
  intros _. now apply SFcompare_Some_not_nan in E.
Qed.

Lemma leb_refl x : is_nan x = false -> (x <=? x)%float = true.
Proof.
  intros H. destruct (FloatOrder.float_cmp_cases x x) as [| | |? ? ? ? ? ? [|]];
    congruence.
Qed.

Lemma score_le_refl a : score_not_nan a -> score_le a a.
Proof. apply leb_refl. Qed.

Lemma tuple_lt_true_not_nan a b :
  tuple_lt a b = Ok true -> score_not_nan a /\ score_not_nan b.
Proof.
  unfold tuple_lt, tuple_richcompare, score_not_nan.
  destruct (peptide_score a =? peptide_score b)%float eqn:E; simpl.
  - intros _. now apply eqb_not_nan.
  - intros [= H]. now apply ltb_not_nan.
Qed.

Lemma tuple_gt_true a b :
  score_not_nan a -> score_not_nan b -> tuple_gt a b = Ok true -> score_le b a.
Proof.
  unfold tuple_gt, tuple_richcompare, score_le, score_not_nan. intros Ha Hb.
  score_cases a b; rewrite Heq; simpl; try done.
  - unfold float_op. congruence.
  - destruct Hnan; congruence.
Qed.

Lemma tuple_gt_false a b :
  score_not_nan a -> score_not_nan b -> tuple_gt a b = Ok false -> score_le a b.
Proof.
  unfold tuple_gt, tuple_richcompare, score_le, score_not_nan. intros Ha Hb.
  score_cases a b; rewrite Heq; simpl; try done.
  - unfold float_op. congruence.
  - destruct Hnan; congruence.
Qed.

(** ** The cache of a spectrum is a heap *)

Lemma is_heap_nil {A} (R : A -> A -> Prop) : is_heap R [].
Proof. intros c x y _ _ Hx. done. Qed.

Lemma Forall_insert_back {A} (Q : A -> Prop) (l : list A) i x y :
  l !! i = Some y -> Q y -> Forall Q (<[i := x]> l) -> Forall Q l.
Proof.
  intros Hy HQ H. apply Forall_lookup. intros j z Hz.
  destruct (decide (j = i)) as [->|Hne]; [congruence|].
  rewrite Forall_lookup in H. apply (H j).
  now rewrite list_lookup_insert_ne.
Qed.

(** A NaN score never leaves a cache: the entry that [heappushpop] takes
    out has compared as smaller than the candidate. *)
Lemma cache_beam_not_nan self row scores step fits cache cache' :
  cache_beam self row scores step fits cache = Ok cache' ->
  Forall score_not_nan cache' -> Forall score_not_nan cache.
Proof.
  unfold cache_beam. destruct (pred_tokens row step); [discriminate|].
  destruct (existsb _ cache); [now intros [= <-]|].
  intros H HP. bind_inv H. rename r into item.
  destruct (length cache <? n_beams self)%nat.
  - apply heappush_perm in H. rewrite H in HP.
    now apply Forall_cons_1 in HP as [_ ?].
  - bind_inv H. destruct r as [popped heap']. injection H as <-.
    apply heappushpop_cases in Hr0
      as [(-> & _)|[(root & rest & _ & _ & _ & ->)
                   |(root & rest & -> & Hlt & _ & Hup)]]; [constructor|done|].
    apply siftup_perm in Hup. rewrite Hup in HP.
    apply Forall_cons_1 in HP as [_ HP].
    apply tuple_lt_true_not_nan in Hlt as [Hroot _]. now constructor.
Qed.

Lemma cache_beam_heap self row scores step fits cache cache' :
  is_heap score_le cache -> Forall score_not_nan cache' ->
  cache_beam self row scores step fits cache = Ok cache' ->
  is_heap score_le cache'.
Proof.
  intros Hh HP' H. pose proof (cache_beam_not_nan _ _ _ _ _ _ _ H HP') as HP.
  revert H. unfold cache_beam. destruct (pred_tokens row step); [discriminate|].
  destruct (existsb _ cache); [now intros [= <-]|].
  intros H. bind_inv H. rename r into item.
  destruct (length cache <? n_beams self)%nat.
  - assert (score_not_nan item) as Hitem.
    { pose proof H as Hperm. apply heappush_perm in Hperm. rewrite Hperm in HP'.
      now apply Forall_cons_1 in HP' as [? _]. }
    revert H. now apply (heappush_heap tuple_lt score_le score_not_nan
                           tuple_lt_true tuple_lt_false).
  - bind_inv H. destruct r as [popped heap']. injection H as <-.
    apply heappushpop_cases in Hr0
      as [(-> & _ & ->)|[(root & rest & _ & _ & _ & ->)
                        |(root & rest & -> & Hlt & _ & Hup)]]; [done|done|].
    assert (Forall score_not_nan (item :: rest)) as HP1.
    { pose proof Hup as Hperm. apply siftup_perm in Hperm. now rewrite <- Hperm. }
    revert Hup. apply (siftup_heap tuple_lt score_le score_not_nan
                         tuple_lt_true tuple_lt_false); [done|].
    now apply (heap_above_replace_root score_le root).
Qed.

Lemma cache_iteration_cases self tokens scores step to_cache fits pred_cache i
    pred_cache' :
  cache_iteration self tokens scores step to_cache fits pred_cache i = Ok pred_cache' ->
  pred_cache' = pred_cache
  \/ exists row scores_i f cache cache',
       tokens !! i = Some row /\ scores !! i = Some scores_i /\ fits !! i = Some f
       /\ to_cache !! i = Some true /\ n_beams self <> 0%nat
       /\ pred_cache !! (i / n_beams self)%nat = Some cache
       /\ cache_beam self row scores_i step f cache = Ok cache'
       /\ pred_cache' = <[(i / n_beams self)%nat := cache']> pred_cache.
Proof.
  unfold cache_iteration.
  destruct (to_cache !! i) as [[]|]; [|intros [= <-]; now left|discriminate].
  destruct (n_beams self =? 0)%nat eqn:E; [discriminate|]. apply Nat.eqb_neq in E.
  destruct (tokens !! i) as [row|]; [|discriminate].
  destruct (scores !! i) as [scores_i|]; [|discriminate].
  destruct (fits !! i) as [f|]; [|discriminate].
  destruct (pred_cache !! (i / n_beams self)%nat) as [cache|] eqn:Hc; [|discriminate].
  intros H. bind_inv H. injection H as <-. right.
  exists row, scores_i, f, cache, r. repeat split; auto.
Qed.

(** Each cache by itself: a NaN in the cache of another spectrum does
    not matter. *)
Lemma reachable_heap self batch pred_cache :
  reachable self batch pred_cache ->
  Forall (fun cache => Forall score_not_nan cache -> is_heap score_le cache)
         pred_cache.
Proof.
  induction 1 as [|? ? ? ? ? ? ? ? _ IH H].
  - apply Forall_replicate. intros _. apply is_heap_nil.
  - apply cache_iteration_cases in H
      as [->|(row & scores_i & f & cache & cache' & _ & _ & _ & _ & _ & Hc & Hb & ->)];
      [auto|].
    apply Forall_insert; [done|]. intros HP'.
    pose proof (cache_beam_not_nan _ _ _ _ _ _ _ Hb HP') as HPc.
    apply (cache_beam_heap _ _ _ _ _ _ _
             (Forall_lookup_1 _ _ _ _ IH Hc HPc) HP' Hb).
Qed.

(** ** [heapq.nlargest] returns the largest items *)

Section nlargest_top.
Context {A : Type} (lt gt eq : A -> A -> result bool).
Context (R : A -> A -> Prop) (P : A -> Prop) `{!Transitive R}.
Hypothesis R_refl : forall x, P x -> R x x.
Hypothesis lt_true : forall x y, P x -> P y -> lt x y = Ok true -> R x y.
Hypothesis lt_false : forall x y, P x -> P y -> lt x y = Ok false -> R y x.
Hypothesis gt_true : forall x y, P x -> P y -> gt x y = Ok true -> R y x.
Hypothesis gt_false : forall x y, P x -> P y -> gt x y = Ok false -> R x y.
Hypothesis eq_true : forall x y, P x -> P y -> eq x y = Ok true -> R x y /\ R y x.

Lemma py_max_loop_top l m0 m :
  P m0 -> Forall P l ->
  foldM (fun maxitem item =>
           let* greater := gt item maxitem in
           Ok (if greater then item else maxitem)) l m0 = Ok m ->
  exists rest, m0 :: l ≡ₚ m :: rest /\ Forall (fun y => R y m) rest /\ R m0 m /\ P m.
Proof.
  revert m0; induction l as [|item l IH]; intros m0 H0 HP H; simpl in H.
  - injection H as <-. exists []. auto.
  - apply Forall_cons_1 in HP as [Hitem HP]. bind_inv H. bind_inv Hr.
    injection Hr as <-. destruct r0.
    + apply IH in H as (rest & Hperm & Hrest & Hle & Hm); auto.
      exists (m0 :: rest). split; [|split; [|split]]; auto.
      * rewrite Hperm. apply perm_swap.
      * constructor; [|done]. transitivity item; eauto.
      * transitivity item; eauto.
    + apply IH in H as (rest & Hperm & Hrest & Hle & Hm); auto.
      exists (item :: rest). split; [|split; [|split]]; auto.
      * rewrite perm_swap, Hperm. apply perm_swap.
      * constructor; [|done]. transitivity m0; eauto.
Qed.

Local Instance Rd_transitive : Transitive (fun p q : A * Z => R p.1 q.1).
Proof. intros p q r. apply transitivity. Qed.

Lemma Rd_lt_true (p q : A * Z) :
  P p.1 -> P q.1 -> decorated_lt lt eq p q = Ok true -> R p.1 q.1.
Proof. apply (decorated_lt_true lt eq R P lt_true eq_true). Qed.

Lemma Rd_lt_false (p q : A * Z) :
  P p.1 -> P q.1 -> decorated_lt lt eq p q = Ok false -> R q.1 p.1.
Proof. apply (decorated_lt_false lt eq R P lt_false eq_true). Qed.

(** The loop of [nlargest] keeps a heap of the largest items so far: the
    items it has dropped are not above any item it holds. *)
Lemma nlargest_fold_top rest result top order dropped result' top' order' :
  is_heap (fun p q : A * Z => R p.1 q.1) result -> Forall (fun p : A * Z => P p.1) result -> Forall P rest ->
  (exists o tl, result = (top, o) :: tl) ->
  (forall x y, x ∈ result.*1 -> y ∈ dropped -> R y x) ->
  foldM (nlargest_step lt eq) rest (result, top, order) = Ok (result', top', order') ->
  exists dropped',
    result.*1 ++ rest ++ dropped ≡ₚ result'.*1 ++ dropped'
    /\ forall x y, x ∈ result'.*1 -> y ∈ dropped' -> R y x.
Proof.
  revert result top order dropped; induction rest as [|elem rest IH];
    intros result top order dropped Hh HP Hrest (o & tl & ->) Hd H; cbn [foldM] in H.
  - injection H as <- <- <-. exists dropped. auto.
  - apply Forall_cons_1 in Hrest as [Helem Hrest].
    pose proof (Forall_cons_1 _ _ _ HP) as [Htop Htl]. simpl in Htop.
    assert (forall x, x ∈ tl.*1 -> R top x) as Hroot.
    { intros x (p & -> & Hp)%list_elem_of_fmap.
      pose proof (heap_root_tail (fun p q : A * Z => R p.1 q.1) (top, o) tl Hh) as Hr.
      rewrite Forall_forall in Hr. now apply Hr in Hp. }
    bind_inv H. destruct r as [[result1 top1] order1].
    unfold nlargest_step in Hr. bind_inv Hr. destruct r.
    + bind_inv Hr. destruct r as [popped result2].
      destruct result2 as [|[top2 o2] tl2] eqn:E; [discriminate|].
      injection Hr as <- <- <-. rewrite <- E in *.
      assert (R top elem) as Hte by eauto.
      pose proof Hr1 as Hperm. apply heapreplace_root in Hperm as [_ Hperm].
      simpl in Hperm.
      apply (heapreplace_heap (decorated_lt lt eq) (fun p q : A * Z => R p.1 q.1) (fun p : A * Z => P p.1) Rd_lt_true Rd_lt_false)
        in Hr1; auto.
      apply (IH _ _ _ (top :: dropped)) in H as (dropped' & Hp' & Hd'); auto.
      * exists dropped'. split; [|done]. rewrite <- Hp', Hperm. simpl.
        rewrite <- !Permutation_middle. apply perm_swap.
      * rewrite Hperm. constructor; [done|done].
      * rewrite E. eauto.
      * intros x y Hx Hy. rewrite Hperm in Hx. simpl in Hx.
        assert (R top x) as Htx.
        { apply elem_of_cons in Hx as [->|Hx]; auto. }
        apply elem_of_cons in Hy as [->|Hy]; [done|].
        transitivity top; [|done]. apply Hd; [now left|done].
    + injection Hr as <- <- <-.
      assert (R elem top) as Het by eauto.
      apply (IH _ _ _ (elem :: dropped)) in H as (dropped' & Hp' & Hd'); eauto.
      * exists dropped'. split; [|done]. rewrite <- Hp'. simpl.
        now rewrite <- !Permutation_middle.
      * intros x y Hx Hy. apply elem_of_cons in Hy as [->|Hy]; [|now apply Hd].
        simpl in Hx. apply elem_of_cons in Hx as [->|Hx]; [done|].
        transitivity top; auto.
Qed.

Lemma nlargest_top n iterable out :
  Forall P iterable -> nlargest lt gt eq n iterable = Ok out ->
  exists rest,
    iterable ≡ₚ out ++ rest
    /\ length out = Nat.min n (length iterable)
    /\ forall x y, x ∈ out -> y ∈ rest -> R y x.
Proof.
  intros HP. unfold nlargest. destruct (n =? 1)%nat eqn:E1.
  { apply Nat.eqb_eq in E1 as ->. intros H. bind_inv H. injection H as <-.
    destruct iterable as [|x l]; simpl in Hr.
    - injection Hr as <-. exists []. split; [done|]. split; [done|].
      now intros x y ?%elem_of_nil.
    - bind_inv Hr. injection Hr as <-.
      apply Forall_cons_1 in HP as [Hx HP].
      apply py_max_loop_top in Hr0 as (rest & Hperm & Hrest & _); auto.
      exists rest. split; [done|]. split; [done|].
      intros a y ->%list_elem_of_singleton Hy.
      rewrite Forall_forall in Hrest. auto. }
  destruct (length iterable <=? n)%nat eqn:E2.
  { apply Nat.leb_le in E2. intros H. bind_inv H. injection H as <-.
    apply sorted_reverse_perm in Hr. exists [].
    rewrite take_ge by (rewrite (Permutation_length Hr); lia).
    rewrite app_nil_r. split; [done|]. split.
    - rewrite (Permutation_length Hr). lia.
    - now intros x y _ ?%elem_of_nil. }
  apply Nat.leb_gt in E2.
  set (result0 := zip (take n iterable) _).
  assert (result0.*1 = take n iterable) as Hfst.
  { apply fst_zip. rewrite length_take, length_fmap, length_seq. lia. }
  destruct result0 as [|d result0'] eqn:E0.
  { intros [= <-]. exists iterable. split; [done|]. split.
    - symmetry in Hfst. apply (f_equal length) in Hfst.
      rewrite length_take in Hfst. simpl in *. lia.
    - now intros x y ?%elem_of_nil. }
  rewrite <- E0 in *. clear E0 d result0'.
  assert (Forall P (take n iterable) /\ Forall P (drop n iterable)) as [HPt HPd].
  { rewrite <- (take_drop n iterable) in HP. now apply Forall_app in HP. }
  assert (Forall (fun p : A * Z => P p.1) result0) as HP0.
  { rewrite <- Hfst, Forall_fmap in HPt. exact HPt. }
  intros H. bind_inv H. rename r into result1.
  destruct result1 as [|[top o] result1'] eqn:E; [discriminate|].
  rewrite <- E in *. bind_inv H. destruct r as [[result2 top2] order2].
  bind_inv H. injection H as <-.
  pose proof Hr as Hheap.
  apply (heapify_heap (decorated_lt lt eq) (fun p q : A * Z => R p.1 q.1) (fun p : A * Z => P p.1) Rd_lt_true Rd_lt_false) in Hheap;
    [|done].
  apply heapify_perm in Hr.
  pose proof Hr0 as Hlen2. apply nlargest_fold_inv in Hlen2 as [Hlen2 _].
  apply (nlargest_fold_top _ _ _ _ []) in Hr0 as (dropped & Hperm & Hd); auto.
  - apply sorted_reverse_perm in Hr1. exists dropped. split; [|split].
    + rewrite Hr1, <- Hperm, app_nil_r, Hr, Hfst. now rewrite take_drop.
    + rewrite length_fmap, (Permutation_length Hr1), Hlen2, (Permutation_length Hr).
      rewrite <- (length_fmap fst), Hfst, length_take. done.
    + intros x y Hx. rewrite Hr1 in Hx. now apply Hd.
  - now rewrite Hr.
  - rewrite E. eauto.
  - now intros x y _ ?%elem_of_nil.
Qed.

End nlargest_top.

(** * The claims *)

(** ** Mass error and tolerance *)

(** C5. [_calc_mass_error] returns
    [(calc_mz - (obs_mz - isotope * 1.00335 / charge)) / obs_mz * 1e6] for
    all inputs; it returns exactly 0.0 for (100.0, 100.0, charge 1,
    isotope 0), and for (100.001, 100.0, charge 1, isotope 0) a value
    within 1e-6 of 10.0. *)
Theorem calc_mass_error_formula :
  (forall calc_mz obs_mz charge isotope,
     _calc_mass_error calc_mz obs_mz charge isotope
     = spec_massErrorPpm calc_mz obs_mz charge isotope)
  /\ _calc_mass_error 100 100 1 0 = 0%float
  /\ (abs (_calc_mass_error 100.001 100 1 0 - 10) <? 1e-6)%float = true.
Proof.
  split; [|split].
  - intros. unfold _calc_mass_error, spec_massErrorPpm.
    replace (float_of_Z (10 ^ 6)) with 1e6%float by (vm_compute; reflexivity).
    reflexivity.
  - vm_compute. reflexivity.
  - vm_compute. reflexivity.
Qed.

Lemma elem_of_isotope_range self isotope :
  isotope ∈ isotope_range self
  <-> (isotope_error_range self).1 <= isotope <= (isotope_error_range self).2.
Proof.
  unfold isotope_range. destruct (isotope_error_range self) as [lo hi]. simpl.
  rewrite elem_of_seqZ. lia.
Qed.

(** C4. For every calculated m/z, precursor and inclusive isotope range
    [lo, hi]: the fit check [any(abs(d) < tol)] holds exactly when some
    isotope offset in [lo, hi] has an absolute mass error strictly below
    the tolerance, and the exceed check [all(d > tol)] holds exactly when
    for all isotope offsets in [lo, hi] the signed mass error is strictly
    above the tolerance.  For a beam that ended with the stop token and
    whose peptide has the mass [calc_mz], the loop of [_finish_beams] ends
    with [matches_precursor_mz] the fit check and [exceeds_precursor_mz]
    the exceed check of a peptide that does not fit. *)
Theorem tolerance_checks self calc_mz prec :
  (any_within_tol self (delta_mass_ppm self calc_mz prec) = true <->
   exists isotope,
     (isotope_error_range self).1 <= isotope <= (isotope_error_range self).2
     /\ (abs (_calc_mass_error calc_mz (precursor_mz prec) (precursor_charge prec)
                isotope) <? precursor_mass_tol self)%float = true)
  /\ (all_above_tol self (delta_mass_ppm self calc_mz prec) = true <->
      forall isotope,
        (isotope_error_range self).1 <= isotope <= (isotope_error_range self).2 ->
        (precursor_mass_tol self
         <? _calc_mass_error calc_mz (precursor_mz prec) (precursor_charge prec)
              isotope)%float = true)
  /\ (forall peptide,
        peptide_mass self peptide (precursor_charge prec) = Some calc_mz ->
        precursor_loop self true peptide prec [None] (false, false)
        = (any_within_tol self (delta_mass_ppm self calc_mz prec),
           negb (any_within_tol self (delta_mass_ppm self calc_mz prec))
           && all_above_tol self (delta_mass_ppm self calc_mz prec))).
Proof.
  split; [|split].
  - unfold any_within_tol, delta_mass_ppm. rewrite existsb_exists. split.
    + intros (d & Hin & Hd). apply list_elem_of_In, list_elem_of_fmap in Hin.
      destruct Hin as (isotope & -> & Hin). exists isotope.
      split; [now apply elem_of_isotope_range|done].
    + intros (isotope & Hrange & Hd). eexists. split; [|exact Hd].
      apply list_elem_of_In, list_elem_of_fmap_2. now apply elem_of_isotope_range.
  - unfold all_above_tol, delta_mass_ppm. rewrite forallb_forall. split.
    + intros H isotope Hrange. apply H.
      apply list_elem_of_In, list_elem_of_fmap_2. now apply elem_of_isotope_range.
    + intros H d Hin. apply list_elem_of_In, list_elem_of_fmap in Hin.
      destruct Hin as (isotope & -> & Hin). apply H.
      now apply elem_of_isotope_range.
  - intros peptide Hmass. simpl. rewrite Hmass. simpl.
    destruct (any_within_tol self (delta_mass_ppm self calc_mz prec)); simpl; [done|].
    now destruct (all_above_tol self (delta_mass_ppm self calc_mz prec)).
Qed.

(** ** Classification of the beams *)

(** C3 as stated fails: at step 2 the beam glycine, modification, glycine
    has no stop token, so its final content position is 2; the
    modification stands at position 1, which is not before position 1,
    and position 2 holds no modification.  Neither (a) nor (b) of the
    specification holds, and [_finish_beams] discards the beam. *)
Lemma internal_modification_counterexample :
  invalid_mods example_model example_row_mod 2 = true
  /\ (finish_beam example_model example_row_mod example_precursor 2).2 = true
  /\ ~ spec_mods_discard example_model example_row_mod 2.
Proof.
  split; [vm_compute; reflexivity|]. split; [vm_compute; reflexivity|].
  unfold spec_mods_discard.
  replace (final_pos example_model example_row_mod 2) with 2%nat
    by (vm_compute; reflexivity).
  replace (n_term example_model) with [2] by (vm_compute; reflexivity).
  intros [[H _]|(j & Hj & H)].
  - vm_compute in H. apply list_elem_of_singleton in H. discriminate.
  - assert (j = 0%nat) as -> by lia. vm_compute in H.
    apply list_elem_of_singleton in H. discriminate.
Qed.

(** C3, amended.  At a step s > 1 the modification check marks a beam for
    discarding exactly when an N-terminal-modification token stands at a
    position strictly before the final content position (s-1 if the beam
    has just emitted the stop token, else s), which covers two
    modifications at the final position and the one before; a beam it
    marks is discarded.  For s <= 1 the check is not applied. *)
Theorem invalid_mods_spec self row prec step :
  ((1 < step)%nat ->
   (invalid_mods self row step = true <->
    exists j t, (j < final_pos self row step)%nat /\ row !! j = Some t
                /\ t ∈ n_term self))
  /\ ((step <= 1)%nat -> invalid_mods self row step = false)
  /\ (invalid_mods self row step = true ->
      (finish_beam self row prec step).2 = true)
  /\ final_pos self row step
     = (if ends_stop_token self row step then step - 1 else step)%nat.
Proof.
  split; [|split; [|split]].
  - apply invalid_mods_true.
  - intros H. unfold invalid_mods. destruct (Nat.ltb_spec 1 step); [lia|done].
  - intros H. unfold finish_beam. rewrite H, orb_true_r. done.
  - done.
Qed.

(** C2 as stated fails: three glycines at step 2 have no stop token; with
    the neutral loss appended the peptide is still far above the
    precursor m/z, so the beam is finished by the mass evaluation.  Its
    length 3 is below the minimum 6, it is not discarded, and its peptide
    enters the cache. *)
Lemma short_beam_finished_by_mass :
  ends_stop_token example_model example_row 2 = false
  /\ (peptide_of example_model example_row 2).2 = 3%nat
  /\ min_peptide_len example_model = 6%nat
  /\ finish_beam example_model example_row example_precursor 2 = (true, false, false)
  /\ finish_and_cache example_model [example_row] [example_precursor]
       [example_scores] 2 [[]]
     = Ok [[((-0.8125)%float, [0.21875; 0.21875; 0.21875]%float, [1; 1; 1])]].
Proof. repeat split; vm_compute; reflexivity. Qed.

Lemma cache_iteration_skip self tokens scores step to_cache fits pred_cache i :
  to_cache !! i = Some false ->
  cache_iteration self tokens scores step to_cache fits pred_cache i = Ok pred_cache.
Proof. intros H. unfold cache_iteration. now rewrite H. Qed.

(** C2, amended.  A beam that predicts the stop token at a step holds as
    many residues as the step counts; if this length is strictly less
    than [min_peptide_len], the beam is discarded, and the loop of
    [_cache_finished_beams] leaves the cache as it is for this beam. *)
Theorem short_stopped_beam_discarded self row prec step :
  (step < length row)%nat ->
  ends_stop_token self row step = true ->
  (step < min_peptide_len self)%nat ->
  (peptide_of self row step).2 = step
  /\ (finish_beam self row prec step).2 = true
  /\ forall tokens precursors scores pred_cache i finished fits discarded,
       _finish_beams self tokens precursors step = Ok (finished, fits, discarded) ->
       tokens !! i = Some row -> precursors !! i = Some prec ->
       cache_iteration self tokens scores step
         (zip_with (fun f d => f && negb d) finished discarded) fits pred_cache i
       = Ok pred_cache.
Proof.
  intros Hlen Hstop Hmin.
  pose proof (peptide_of_stop self row step Hlen Hstop) as Hpep.
  assert ((finish_beam self row prec step).2 = true) as Hdisc.
  { unfold finish_beam. rewrite Hstop.
    destruct (_ || _); [done|].
    destruct (peptide_of self row step) as [peptide peptide_len].
    simpl in Hpep. subst peptide_len.
    destruct (Nat.ltb_spec step (min_peptide_len self)); [done|lia]. }
  split; [done|]. split; [done|].
  intros tokens precursors scores pred_cache i finished fits discarded HF Hrow Hprec.
  destruct (finish_beams_lookup _ _ _ _ _ _ _ _ _ _ HF Hrow Hprec) as (Hf & _ & Hd).
  apply cache_iteration_skip.
  rewrite lookup_zip_with, Hf, Hd. simpl. rewrite Hdisc.
  now rewrite andb_false_r.
Qed.

Lemma short_stopped_beam_discarded_witness :
  ends_stop_token example_model [1; 1; 3; 0; 0; 0; 0] 2 = true
  /\ (peptide_of example_model [1; 1; 3; 0; 0; 0; 0] 2).2 = 2%nat
  /\ (finish_beam example_model [1; 1; 3; 0; 0; 0; 0] example_precursor 2).2 = true.
Proof.
  assert (ends_stop_token example_model [1; 1; 3; 0; 0; 0; 0] 2 = true) as Hstop
    by (vm_compute; reflexivity).
  split; [exact Hstop|].
  destruct (short_stopped_beam_discarded example_model [1; 1; 3; 0; 0; 0; 0]
              example_precursor 2) as (H1 & H2 & _).
  - simpl. lia.
  - exact Hstop.
  - simpl. lia.
  - split; [exact H1|exact H2].
Defined.

(** C9.  If the mass lookup fails for a token of the candidate peptide of
    a beam, the evaluation raises nothing and decides nothing: the beam
    does not fit the precursor, it is finished only if it has predicted
    the stop token, and [_finish_beams] returns, for every beam of the
    batch, the classification the beam has on its own. *)
Theorem failed_mass_lookup self tokens precursors step i row prec aa :
  Forall (fun row => (step < length row)%nat) tokens ->
  (length tokens <= length precursors)%nat ->
  tokens !! i = Some row -> precursors !! i = Some prec ->
  aa ∈ (peptide_of self row step).1 ->
  masses_get (residues self) aa = None ->
  (finish_beam self row prec step).1.2 = false
  /\ (finish_beam self row prec step).1.1 = ends_stop_token self row step
  /\ exists finished fits discarded,
       _finish_beams self tokens precursors step = Ok (finished, fits, discarded)
       /\ fits !! i = Some false
       /\ finished !! i = Some (ends_stop_token self row step)
       /\ forall j row_j prec_j,
            tokens !! j = Some row_j -> precursors !! j = Some prec_j ->
            finished !! j = Some (finish_beam self row_j prec_j step).1.1
            /\ fits !! j = Some (finish_beam self row_j prec_j step).1.2
            /\ discarded !! j = Some (finish_beam self row_j prec_j step).2.
Proof.
  intros Hrows Hlen Hrow Hprec Hin Hget.
  assert ((finish_beam self row prec step).1.2 = false
          /\ (finish_beam self row prec step).1.1 = ends_stop_token self row step)
    as [Hfits Hfin].
  { unfold finish_beam. destruct (_ || _); [done|].
    destruct (peptide_of self row step) as [peptide peptide_len]. simpl in Hin.
    destruct (_ && _); [done|].
    rewrite (precursor_loop_None _ _ _ _ _ _ aa Hin Hget).
    unfold aa_neg_mass. now destruct (ends_stop_token self row step). }
  split; [done|]. split; [done|].
  destruct (finish_beams_Ok self tokens precursors step Hrows Hlen)
    as (finished & fits & discarded & HF).
  exists finished, fits, discarded. split; [done|].
  destruct (finish_beams_lookup _ _ _ _ _ _ _ _ _ _ HF Hrow Hprec) as (Hf1 & Hf2 & _).
  rewrite Hf1, Hf2, Hfits, Hfin. split; [done|]. split; [done|].
  intros j row_j prec_j. now apply finish_beams_lookup.
Qed.

(** The beam glycine, padding, glycine holds a token without a name, and
    with it a residue without a mass: in a batch with the beam of three
    glycines, it is classified as not finished and not fitting. *)
Lemma failed_mass_lookup_witness :
  ""%string ∈ (peptide_of example_model [1; 0; 1; 0; 0; 0; 0] 2).1
  /\ (finish_beam example_model [1; 0; 1; 0; 0; 0; 0] example_precursor 2).1.2 = false
  /\ (finish_beam example_model [1; 0; 1; 0; 0; 0; 0] example_precursor 2).1.1 = false.
Proof.
  assert (""%string ∈ (peptide_of example_model [1; 0; 1; 0; 0; 0; 0] 2).1) as Hin.
  { vm_compute. apply list_elem_of_In. simpl. auto. }
  split; [exact Hin|].
  destruct (failed_mass_lookup example_model
              [[1; 0; 1; 0; 0; 0; 0]; example_row]
              [example_precursor; example_precursor] 2 0
              [1; 0; 1; 0; 0; 0; 0] example_precursor ""%string)
    as (H1 & H2 & _).
  - repeat constructor.
  - simpl. lia.
  - reflexivity.
  - reflexivity.
  - exact Hin.
  - reflexivity.
  - split; [exact H1|exact H2].
Defined.

(** ** The cache of finished beams *)

(** C1 as stated fails for a beam that does not fit the precursor: from
    the raw scores 0.5 and 0.5, [_aa_pep_score] returns the peptide score
    -0.5 and the amino acid scores 0.5 and 0.5, the means of each raw
    score and the mean 0.5; averaged with the penalised score -0.5, as the
    specification has it, they would be 0 and 0. *)
Lemma aa_scores_use_unpenalised_mean :
  _aa_pep_score [0.5; 0.5]%float false = ([0.5; 0.5]%float, (-0.5)%float)
  /\ spec_aa_pep_score [0.5; 0.5]%float false = ([0; 0]%float, (-0.5)%float)
  /\ (_aa_pep_score [0.5; 0.5]%float false).1
     <> (spec_aa_pep_score [0.5; 0.5]%float false).1.
Proof.
  split; [vm_compute; reflexivity|]. split; [vm_compute; reflexivity|].
  intros H. vm_compute in H.
  apply (f_equal (fun l => match l with
                           | x :: _ => (x =? 0)%float
                           | [] => true
                           end)) in H.
  vm_compute in H. discriminate.
Qed.

(** C1, amended.  Every entry that [_cache_finished_beams] adds to a
    cache for a beam has as peptide score the mean of the raw scores of
    the beam (the normalised score of each of its tokens, and 0.0 for a
    stop token that was not predicted), minus 1.0 when the beam does not
    fit the precursor and unchanged when it does; its stored scores are
    [(raw + mean) / 2] with the mean before the penalty, without the slot
    of the stop token. *)
Theorem cached_scores self row scores step fits cache cache' :
  cache_beam self row scores step fits cache = Ok cache' ->
  forall p, p ∈ cache' ->
    p ∈ cache
    \/ exists raw,
         raw_aa_scores self row scores step = Ok raw
         /\ peptide_score p = (if fits then np_mean raw else (np_mean raw - 1)%float)
         /\ aa_scores p = (fun x => ((x + np_mean raw) / 2)%float) <$> removelast raw
         /\ pred_peptide p = peptide_tokens self row step.
Proof.
  intros H p Hp.
  apply cache_beam_cases in H as [[_ ->]|(_ & item & Hitem & H)]; [now left|].
  assert (p ∈ item :: cache) as Hin.
  { destruct H as [[_ Hperm]|(_ & popped & Hperm)].
    - now rewrite <- Hperm.
    - rewrite <- Hperm. now right. }
  apply elem_of_cons in Hin as [->|Hin]; [|now left].
  right. now apply candidate_inv.
Qed.

Lemma cached_scores_witness :
  cache_beam example_model example_row example_scores 2 false []
  = Ok [((-0.8125)%float, [0.21875; 0.21875; 0.21875]%float, [1; 1; 1])]
  /\ exists raw,
       raw_aa_scores example_model example_row example_scores 2 = Ok raw
       /\ (-0.8125)%float = (np_mean raw - 1)%float.
Proof.
  assert (cache_beam example_model example_row example_scores 2 false []
          = Ok [((-0.8125)%float, [0.21875; 0.21875; 0.21875]%float, [1; 1; 1])])
    as Hc by (vm_compute; reflexivity).
  split; [exact Hc|].
  destruct (cached_scores _ _ _ _ _ _ _ Hc
              ((-0.8125)%float, [0.21875; 0.21875; 0.21875]%float, [1; 1; 1]))
    as [Hin|(raw & Hraw & Hs & _)].
  - now left.
  - now apply elem_of_nil in Hin.
  - exists raw. split; [exact Hraw|exact Hs].
Defined.

(** C6.  At every point during decoding, the cache of each spectrum holds
    at most [n_beams] entries, and no two of them have the same token
    sequence; a beam whose token sequence is in the cache of its spectrum
    already leaves the cache exactly as it is, so the copy that was
    inserted first is kept. *)
Theorem cache_bounded_and_distinct self batch pred_cache :
  reachable self batch pred_cache ->
  Forall (fun cache => (length cache <= n_beams self)%nat
                       /\ NoDup (pred_peptide <$> cache)) pred_cache
  /\ forall cache row scores step fits,
       cache ∈ pred_cache -> pred_tokens row step <> [] ->
       peptide_tokens self row step ∈ pred_peptide <$> cache ->
       cache_beam self row scores step fits cache = Ok cache.
Proof.
  intros Hr. split.
  - apply reachable_ok in Hr. eapply Forall_impl; [exact Hr|].
    intros cache (H1 & H2 & _). auto.
  - intros cache row scores step fits _ Hne Hin.
    now apply cache_beam_duplicate.
Qed.

Lemma example_reachable :
  reachable example_model 1
    [[((-0.8125)%float, [0.21875; 0.21875; 0.21875]%float, [1; 1; 1])]].
Proof.
  apply (reachable_step example_model 1 [example_row] [example_scores] 2
           [true] [false] 0 [[]]).
  - apply (reachable_init example_model 1).
  - vm_compute. reflexivity.
Defined.

Lemma cache_bounded_and_distinct_witness :
  Forall (fun cache => (length cache <= n_beams example_model)%nat
                       /\ NoDup (pred_peptide <$> cache))
    [[((-0.8125)%float, [0.21875; 0.21875; 0.21875]%float, [1; 1; 1])]].
Proof.
  exact (proj1 (cache_bounded_and_distinct example_model 1 _ example_reachable)).
Defined.

(** C10.  Every entry of the cache of a spectrum stores as many scores as
    tokens, whether its beam ended with the stop token or was finished by
    its mass, with 0.0 added for the stop token and dropped again. *)
Theorem cached_scores_length self batch pred_cache :
  reachable self batch pred_cache ->
  Forall (Forall (fun p => length (aa_scores p) = length (pred_peptide p)))
         pred_cache.
Proof.
  intros Hr. apply reachable_ok in Hr. eapply Forall_impl; [exact Hr|].
  intros cache (_ & _ & H). exact H.
Qed.

Lemma cached_scores_length_witness :
  Forall (Forall (fun p => length (aa_scores p) = length (pred_peptide p)))
    [[((-0.8125)%float, [0.21875; 0.21875; 0.21875]%float, [1; 1; 1])]].
Proof.
  exact (cached_scores_length example_model 1 _ example_reachable).
Defined.

(** ** The predictions *)

Lemma top_peptides_props self peptides out :
  Forall score_not_nan peptides ->
  top_peptides self peptides = Ok out ->
  (length out <= top_match self)%nat
  /\ StronglySorted (fun a b => (b.1.1 <=? a.1.1)%float = true) out
  /\ (peptides = [] -> out = [])
  /\ (forall e, e ∈ out -> exists p, p ∈ peptides /\ e = prediction_of self p).
Proof.
  intros HP. unfold top_peptides.
  destruct (0 <? length peptides)%nat eqn:E.
  - intros H. bind_inv H. injection H as <-. rename r into best.
    apply Nat.ltb_lt in E. split; [|split; [|split]].
    + rewrite length_fmap. now apply nlargest_length_elem in Hr as [? _].
    + apply (nlargest_sorted _ _ _ score_le score_not_nan
               tuple_lt_true tuple_lt_false tuple_eq_true) in Hr; [|done].
      eapply StronglySorted_fmap; [|exact Hr]. intros a b H. exact H.
    + intros ->. simpl in E. lia.
    + intros e (p & -> & Hp)%list_elem_of_fmap. exists p. split; [|done].
      apply nlargest_length_elem in Hr as [_ Hr]. now apply Hr.
  - intros [= <-]. split; [simpl; lia|]. split; [constructor|].
    split; [done|]. now intros e ?%elem_of_nil.
Qed.

Lemma top_peptides_is_Ok self peptides :
  pairwise distinct_scores peptides -> is_Ok (top_peptides self peptides).
Proof.
  intros H. unfold top_peptides. destruct (0 <? length peptides)%nat; [|done].
  apply is_Ok_bind; [|done].
  apply (nlargest_is_Ok _ _ _ distinct_scores); [| | |done];
    intros x y; apply tuple_richcompare_ok.
Qed.

(** C7 as stated fails for candidates of equal score.  Two beams of one
    residue whose raw scores are 0.25, 0.75 and 0.75, 0.25 both get the
    peptide score 0.5; glycine is pushed on the heap first and alanine
    second, and the prediction list has alanine first: the tuples are
    compared on their score arrays, 0.625 against 0.375. *)
Lemma equal_scores_not_in_insertion_order :
  _aa_pep_score [0.25; 0.75]%float true = ([0.375; 0.625]%float, 0.5%float)
  /\ _aa_pep_score [0.75; 0.25]%float true = ([0.625; 0.375]%float, 0.5%float)
  /\ heappush tuple_lt [] example_entry_1 = Ok [example_entry_1]
  /\ heappush tuple_lt [example_entry_1] example_entry_2
     = Ok [example_entry_1; example_entry_2]
  /\ top_peptides example_short_model [example_entry_1; example_entry_2]
     = Ok [(0.5%float, [0.625%float], "A"%string);
           (0.5%float, [0.375%float], "G"%string)].
Proof. repeat split; vm_compute; reflexivity. Qed.

(** With more than one residue, two entries of equal score cannot be
    compared at all: the truth value of the comparison of their score
    arrays does not exist, and [_get_top_peptide] raises. *)
Lemma equal_scores_raise :
  top_peptides example_short_model
    [(0.5%float, [0.375; 0.5]%float, [1; 2]); (0.5%float, [0.625; 0.5]%float, [2; 1])]
  = Raise ValueError.
Proof. vm_compute. reflexivity. Qed.

(** A NaN among the cached scores is what the order needs excluded: it
    compares as neither smaller nor equal, the sort leaves it where the
    cache has it, and the list is in the order of the cache, 0.5 before
    NaN or NaN before 0.5, with no score order between neighbours. *)
Lemma nan_score_not_in_score_order :
  heappush tuple_lt [(0.5%float, [0.5%float], [1])] (nan, [nan], [2])
  = Ok [(0.5%float, [0.5%float], [1]); (nan, [nan], [2])]
  /\ top_peptides example_short_model
       [(0.5%float, [0.5%float], [1]); (nan, [nan], [2])]
     = Ok [(0.5%float, [0.5%float], "G"%string); (nan, [nan], "A"%string)]
  /\ heappush tuple_lt [(nan, [nan], [2])] (0.5%float, [0.5%float], [1])
     = Ok [(nan, [nan], [2]); (0.5%float, [0.5%float], [1])]
  /\ top_peptides example_short_model
       [(nan, [nan], [2]); (0.5%float, [0.5%float], [1])]
     = Ok [(nan, [nan], "A"%string); (0.5%float, [0.5%float], "G"%string)]
  /\ (nan <=? 0.5)%float = false /\ (0.5 <=? nan)%float = false.
Proof. repeat split; vm_compute; reflexivity. Qed.

(** Whatever the scores, a list that is returned holds at most
    [top_match] entries of the cache, and none for an empty cache. *)
Lemma top_peptides_shape self peptides out :
  top_peptides self peptides = Ok out ->
  (length out <= top_match self)%nat
  /\ (peptides = [] -> out = [])
  /\ (forall e, e ∈ out -> exists p, p ∈ peptides /\ e = prediction_of self p).
Proof.
  unfold top_peptides. destruct (0 <? length peptides)%nat eqn:E.
  - intros H. bind_inv H. injection H as <-. rename r into best.
    apply Nat.ltb_lt in E. apply nlargest_length_elem in Hr as [Hlen Hin].
    split; [now rewrite length_fmap|]. split.
    + intros ->. simpl in E. lia.
    + intros e (p & -> & Hp)%list_elem_of_fmap. exists p. split; [|done].
      now apply Hin.
  - intros [= <-]. split; [simpl; lia|]. split; [done|].
    now intros e ?%elem_of_nil.
Qed.

(** C7, amended.  The prediction list that [_get_top_peptide] returns
    for a spectrum has length at most [top_match], holds entries of the
    cache of that spectrum only, and is the empty list when that cache is
    empty, whatever the scores; when no peptide score in the cache of the
    spectrum is NaN, the list is sorted by non-increasing peptide score;
    and [_get_top_peptide] does return when the peptide scores in each
    cache are pairwise different.  Candidates of equal score are not kept
    in insertion order, and a NaN score leaves the list in no score order
    ([nan_score_not_in_score_order]). *)
Theorem top_peptides_sorted self pred_cache :
  (forall predictions,
     _get_top_peptide self pred_cache = Ok predictions ->
     Forall2 (fun peptides out =>
                (length out <= top_match self)%nat
                /\ (peptides = [] -> out = [])
                /\ (forall e, e ∈ out ->
                    exists p, p ∈ peptides /\ e = prediction_of self p)
                /\ (Forall score_not_nan peptides ->
                    StronglySorted (fun a b => (b.1.1 <=? a.1.1)%float = true) out))
             pred_cache predictions)
  /\ (Forall (pairwise distinct_scores) pred_cache ->
      is_Ok (_get_top_peptide self pred_cache)).
Proof.
  split.
  - intros predictions. unfold _get_top_peptide. apply mapM_Forall2.
    intros peptides out _ Hout.
    destruct (top_peptides_shape _ _ _ Hout) as (Hlen & Hnil & Hin).
    split; [exact Hlen|]. split; [exact Hnil|]. split; [exact Hin|].
    intros HP. now apply (top_peptides_props self peptides out HP) in Hout.
  - intros HC. unfold _get_top_peptide. apply mapM_is_Ok.
    eapply Forall_impl; [exact HC|]. intros peptides. apply top_peptides_is_Ok.
Qed.

Lemma top_peptides_sorted_witness :
  _get_top_peptide example_short_model example_cache
  = Ok [[(0.75%float, [0.875; 0.75]%float, "GG"%string);
         (0.5%float, [0.75; 0.5]%float, "GA"%string)]; []]
  /\ Forall2 (fun peptides out =>
                (length out <= top_match example_short_model)%nat
                /\ (peptides = [] -> out = [])
                /\ (forall e, e ∈ out ->
                    exists p, p ∈ peptides /\ e = prediction_of example_short_model p)
                /\ (Forall score_not_nan peptides ->
                    StronglySorted (fun a b => (b.1.1 <=? a.1.1)%float = true) out))
       example_cache
       [[(0.75%float, [0.875; 0.75]%float, "GG"%string);
         (0.5%float, [0.75; 0.5]%float, "GA"%string)]; []]
  /\ Forall (Forall score_not_nan) example_cache.
Proof.
  assert (_get_top_peptide example_short_model example_cache
          = Ok [[(0.75%float, [0.875; 0.75]%float, "GG"%string);
                 (0.5%float, [0.75; 0.5]%float, "GA"%string)]; []]) as Hout
    by (vm_compute; reflexivity).
  split; [exact Hout|]. split.
  - exact (proj1 (top_peptides_sorted example_short_model example_cache) _ Hout).
  - repeat constructor.
Defined.

(** ** The selection of continuations *)

(** C8, on an input where it fails.  One spectrum and one beam that is
    still active and holds a glycine of score -1; for the next position
    the scorer gives padding -5, glycine -1 and the stop token -2.  The
    running means are -3, -1 and -1.5.  The mask multiplies the mean of
    the padding token by 1e-8 (as a float32, 0x1.5798eep-27) instead of
    excluding it, which makes it the largest value, and [_get_topk_beams] continues the active beam with
    the padding token 0. *)
Lemma topk_selects_padding :
  mapM (step_scores 1 example_greedy_tokens example_greedy_scores 1) [0; 1; 2]%nat
  = Ok [[-1; -5]; [-1; -1]; [-1; -2]]%float
  /\ nanmean <$> [[-1; -5]; [-1; -1]; [-1; -2]]%float = [-3; -1; -1.5]%float
  /\ topk_values example_greedy_model example_greedy_tokens example_greedy_scores
       [false] 1
     = Ok [(-3 * 0x1.5798eep-27)%float; (-1)%float; (-1.5)%float]
  /\ topk [(-3 * 0x1.5798eep-27)%float; (-1)%float; (-1.5)%float] 1 = Ok [0%nat]
  /\ _get_topk_beams example_greedy_model example_greedy_tokens
       example_greedy_scores [false] 1 1
     = Ok ([[1; 0; 0]], example_greedy_scores).
Proof. repeat split; vm_compute; reflexivity. Qed.

(** ** The mass evaluation of [_finish_beams] *)

(** The loop never leaves both flags set. *)
Lemma precursor_loop_exclusive self finished peptide prec variants acc :
  acc.1 && acc.2 = false ->
  (precursor_loop self finished peptide prec variants acc).1
  && (precursor_loop self finished peptide prec variants acc).2 = false.
Proof.
  revert acc; induction variants as [|aa variants IH]; intros acc Hacc; simpl; [done|].
  destruct (peptide_mass self _ _) as [calc_mz|]; [|now apply IH].
  destruct (bool_decide (aa = None) && any_within_tol self _) eqn:Em; simpl; [done|].
  destruct ((finished || negb (bool_decide (aa = None))) && all_above_tol self _) eqn:Ee;
    simpl; [done|].
  now apply IH.
Qed.

(** Without a fit for any mass, the loop never reports one. *)
Lemma precursor_loop_no_match self finished peptide prec variants acc :
  (forall calc_mz, any_within_tol self (delta_mass_ppm self calc_mz prec) = false) ->
  acc.1 = false ->
  (precursor_loop self finished peptide prec variants acc).1 = false.
Proof.
  intros Hany. revert acc; induction variants as [|aa variants IH]; intros acc Hacc;
    simpl; [done|].
  destruct (peptide_mass self _ _) as [calc_mz|]; [|now apply IH].
  rewrite Hany, andb_false_r. simpl.
  destruct ((finished || negb (bool_decide (aa = None))) && all_above_tol self _);
    simpl; [done|].
  now apply IH.
Qed.

(** Without a fit and without an excess for any mass, the loop decides
    nothing. *)
Lemma precursor_loop_undecided self finished peptide prec variants :
  (forall calc_mz, any_within_tol self (delta_mass_ppm self calc_mz prec) = false) ->
  (forall calc_mz, all_above_tol self (delta_mass_ppm self calc_mz prec) = false) ->
  precursor_loop self finished peptide prec variants (false, false) = (false, false).
Proof.
  intros Hany Hall. induction variants as [|aa variants IH]; simpl; [done|].
  destruct (peptide_mass self _ _) as [calc_mz|]; [|done].
  rewrite Hany, Hall, !andb_false_r. simpl. done.
Qed.

(** *** NaN in the mass error *)

Lemma div_nan x y : is_nan y = true -> is_nan (x / y) = true.
Proof.
  rewrite !FloatOrder.is_nan_spec, FloatAxioms.div_spec. intros ->.
  now destruct (Prim2SF x).
Qed.

Lemma mul_nan x y : is_nan x = true -> is_nan (x * y) = true.
Proof.
  rewrite !FloatOrder.is_nan_spec, FloatAxioms.mul_spec. now intros ->.
Qed.

Lemma abs_nan x : is_nan x = true -> is_nan (abs x) = true.
Proof.
  rewrite !FloatOrder.is_nan_spec, FloatAxioms.abs_spec. now intros ->.
Qed.

Lemma ltb_nan_l x y : is_nan x = true -> (x <? y)%float = false.
Proof.
  rewrite FloatOrder.is_nan_spec, FloatAxioms.ltb_spec. unfold SFltb. now intros ->.
Qed.

Lemma ltb_nan_r x y : is_nan y = true -> (x <? y)%float = false.
Proof.
  rewrite FloatOrder.is_nan_spec, FloatAxioms.ltb_spec. unfold SFltb. intros ->.
  now destruct (Prim2SF x).
Qed.

Lemma calc_mass_error_nan calc_mz obs_mz charge isotope :
  is_nan obs_mz = true ->
  is_nan (_calc_mass_error calc_mz obs_mz charge isotope) = true.
Proof. intros H. unfold _calc_mass_error. now apply mul_nan, div_nan. Qed.

Lemma isotope_range_nonempty self :
  (isotope_error_range self).1 <= (isotope_error_range self).2 ->
  (isotope_error_range self).1 ∈ isotope_range self.
Proof. intros H. apply elem_of_isotope_range. lia. Qed.

Lemma isotope_range_empty self :
  (isotope_error_range self).2 < (isotope_error_range self).1 ->
  isotope_range self = [].
Proof.
  unfold isotope_range. destruct (isotope_error_range self) as [lo hi]. simpl.
  intros H. unfold seqZ. replace (Z.to_nat (hi + 1 - lo)) with 0%nat by lia. done.
Qed.

(** *** A mass error below the tolerance is not above it *)

Lemma SFabs_lt_not_gt d t :
  SFltb (SFabs d) t = true -> SFltb t d = false.
Proof.
  unfold SFltb.
  destruct d as [[]|[]| |[] m1 e1], t as [[]|[]| |[] m2 e2];
    simpl; try congruence; FloatOrder.sf_cmp.
Qed.

Lemma abs_lt_not_gt d t :
  (abs d <? t)%float = true -> (t <? d)%float = false.
Proof.
  rewrite !FloatAxioms.ltb_spec, FloatAxioms.abs_spec. apply SFabs_lt_not_gt.
Qed.

Lemma aa_neg_mass_none self :
  Forall (fun p => (p.2 <? 0)%float = false) (residues self) ->
  aa_neg_mass self = [None].
Proof.
  intros H. unfold aa_neg_mass. f_equal.
  replace (filter _ (residues self)) with (@nil (string * float)); [done|].
  symmetry. induction H as [|p l Hp _ IH]; [done|].
  rewrite filter_cons. destruct (decide _) as [E|_]; [congruence|done].
Qed.


(** ** The stop token in [_finish_beams] and in [_cache_finished_beams] *)

Lemma removelast_take {A} (l : list A) n :
  (n < length l)%nat -> removelast (take (S n) l) = take n l.
Proof.
  intros H. destruct (lookup_lt_is_Some_2 l n H) as [x Hx].
  rewrite (take_S_r l n x Hx). apply removelast_last.
Qed.

Lemma has_stop_token_ends self row step :
  (step < length row)%nat ->
  has_stop_token self row step = ends_stop_token self row step.
Proof.
  intros H. unfold has_stop_token, ends_stop_token, pred_tokens, token_at.
  destruct (lookup_lt_is_Some_2 row step H) as [t Ht].
  rewrite (last_take_lookup _ _ _ Ht), Ht. simpl.
  apply bool_decide_ext. split; congruence.
Qed.

(** ** The shape of the predictions *)

Lemma reachable_length self batch pred_cache :
  reachable self batch pred_cache -> length pred_cache = batch.
Proof.
  induction 1 as [|? ? ? ? ? ? ? ? _ IH H]; [apply length_replicate|].
  apply cache_iteration_cases in H as [->|(? & ? & ? & ? & ? & H)]; [done|].
  destruct H as (_ & _ & _ & _ & _ & _ & _ & ->). now rewrite length_insert.
Qed.

Lemma top_peptides_length self peptides out :
  top_peptides self peptides = Ok out -> (length out <= top_match self)%nat.
Proof.
  unfold top_peptides. destruct (0 <? length peptides)%nat.
  - intros H. bind_inv H. injection H as <-. rewrite length_fmap.
    now apply nlargest_length_elem in Hr as [? _].
  - intros [= <-]. simpl. lia.
Qed.

Lemma length_concat_le {A} (groups : list (list A)) k :
  Forall (fun g => (length g <= k)%nat) groups ->
  (length (concat groups) <= length groups * k)%nat.
Proof.
  induction 1 as [|g groups Hg _ IH]; simpl; [lia|].
  rewrite length_app. lia.
Qed.

Lemma mapM_replicate_nil {B C} (f : list B -> result (list C)) n :
  f [] = Ok [] -> mapM f (replicate n []) = Ok (replicate n []).
Proof. intros Hf. induction n as [|n IH]; simpl; [done|]. now rewrite Hf, IH. Qed.

Section steps_props.
Context {Memory : Type} (self : Spec2Pep) (scorer : Scorer Memory).

Lemma decode_shape memories precursors predictions :
  beam_search_decode self scorer memories precursors = Ok predictions ->
  length predictions = length memories
  /\ Forall (fun out => (length out <= top_match self)%nat) predictions.
Proof.
  unfold beam_search_decode. intros H. bind_inv H. rename r into pred_cache.
  apply decode_cache_reachable, reachable_length in Hr.
  unfold _get_top_peptide in H.
  apply (mapM_Forall2 _ (fun peptides out => (length out <= top_match self)%nat))
    in H.
  - split; [now rewrite <- (Forall2_length _ _ _ H)|].
    now apply Forall2_Forall_r with (Q := fun out => (length out <= top_match self)%nat)
      in H; [|apply Forall_true].
  - intros peptides out _. apply top_peptides_length.
Qed.

End steps_props.

(** *** The lists of [validation_step] *)

Lemma append_prediction_length spectrum_preds lists :
  length (foldl append_prediction lists spectrum_preds).1
  = (length lists.1 + length spectrum_preds)%nat
  /\ length (foldl append_prediction lists spectrum_preds).2
     = (length lists.2 + length spectrum_preds)%nat.
Proof.
  revert lists. induction spectrum_preds as [|[[s a] p] l IH]; intros [pp ps];
    simpl; [lia|].
  destruct (IH (pp ++ [p], ps ++ [s])) as [H1 H2]. simpl in H1, H2.
  rewrite H1, H2, !length_app. simpl. lia.
Qed.

Lemma append_spectrum_length lists spectrum_preds :
  length (append_spectrum lists spectrum_preds).1
  = (length lists.1 + Nat.max 1 (length spectrum_preds))%nat
  /\ length (append_spectrum lists spectrum_preds).2
     = (length lists.2 + Nat.max 1 (length spectrum_preds))%nat.
Proof.
  destruct lists as [pp ps]. unfold append_spectrum.
  destruct spectrum_preds as [|x l].
  - simpl. rewrite !length_app. simpl. lia.
  - destruct (append_prediction_length (x :: l) (pp, ps)) as [H1 H2].
    rewrite H1, H2. simpl. lia.
Qed.

Lemma validation_predictions_length predictions :
  length (validation_predictions predictions).1
  = sum_list (Nat.max 1 <$> (length <$> predictions))
  /\ length (validation_predictions predictions).2
     = sum_list (Nat.max 1 <$> (length <$> predictions)).
Proof.
  unfold validation_predictions.
  assert (forall lists,
            length (foldl append_spectrum lists predictions).1
            = (length lists.1
               + sum_list (Nat.max 1 <$> (length <$> predictions)))%nat
            /\ length (foldl append_spectrum lists predictions).2
               = (length lists.2
                  + sum_list (Nat.max 1 <$> (length <$> predictions)))%nat) as Hgen.
  { induction predictions as [|sp predictions IH]; intros lists; cbn -[Nat.max]; [lia|].
    destruct (IH (append_spectrum lists sp)) as [H1 H2].
    destruct (append_spectrum_length lists sp) as [H3 H4].
    rewrite H1, H2, H3, H4. lia. }
  apply (Hgen ([], [])).
Qed.

Lemma sum_max_one (lengths : list nat) :
  (length lengths <= sum_list (Nat.max 1 <$> lengths))%nat
  /\ (sum_list (Nat.max 1 <$> lengths) = length lengths
      <-> Forall (fun n => (n <= 1)%nat) lengths).
Proof.
  induction lengths as [|n lengths [IH1 IH2]]; cbn -[Nat.max].
  - split; [lia|]. split; [constructor|done].
  - split; [lia|]. rewrite Forall_cons. rewrite <- IH2. lia.
Qed.

Lemma elem_of_concat {A} (x : A) (groups : list (list A)) :
  x ∈ concat groups <-> exists g, g ∈ groups /\ x ∈ g.
Proof.
  rewrite list_elem_of_In, in_concat. split; intros (g & H1 & H2); exists g.
  - now rewrite !list_elem_of_In.
  - now rewrite <- !list_elem_of_In.
Qed.

(** ** [heapq.nlargest] returns items of its argument, each once *)

Section nlargest_perm.
Context {A : Type} (lt gt eq : A -> A -> result bool).




End nlargest_perm.

(** ** The selection of [_get_topk_beams] *)

Lemma mapM_length {B C} (f : B -> result C) l r :
  mapM f l = Ok r -> length r = length l.
Proof.
  intros H. apply (mapM_Forall2 _ (fun _ _ => True)) in H; [|done].
  symmetry. exact (Forall2_length _ _ _ H).
Qed.

Lemma mapM_lookup {B C} (f : B -> result C) l r i c :
  mapM f l = Ok r -> r !! i = Some c -> exists b, l !! i = Some b /\ f b = Ok c.
Proof.
  intros H Hc. apply (mapM_Forall2 _ (fun b c => f b = Ok c)) in H; [|auto].
  destruct (Forall2_lookup_r _ _ _ _ _ H Hc) as (b & Hb & Hf). eauto.
Qed.

Lemma topk_insert_perm p l : topk_insert p l ≡ₚ p :: l.
Proof.
  induction l as [|q l IH]; simpl; [done|].
  destruct (torch_gt p.1 q.1); [done|]. rewrite IH. apply perm_swap.
Qed.

Lemma foldl_topk_insert_perm l acc :
  foldl (fun sorted p => topk_insert p sorted) acc l ≡ₚ l ++ acc.
Proof.
  revert acc; induction l as [|p l IH]; intros acc; simpl; [done|].
  rewrite IH, topk_insert_perm. now rewrite Permutation_middle.
Qed.

Lemma imap_snd_seq {A B} (f : nat -> B) (l : list A) :
  (imap (fun i x => (x, f i)) l).*2 = f <$> seq 0 (length l).
Proof.
  revert f; induction l as [|x l IH]; intros f; [done|].
  rewrite imap_cons. simpl. f_equal.
  rewrite <- fmap_S_seq, <- list_fmap_compose. apply (IH (f ∘ S)).
Qed.

(** [torch.topk] on a row returns positions of the row. *)
Lemma argsort_descending_perm values :
  argsort_descending values ≡ₚ seq 0 (length values).
Proof.
  unfold argsort_descending. rewrite foldl_topk_insert_perm, app_nil_r.
  rewrite (imap_snd_seq id). now rewrite list_fmap_id.
Qed.

Lemma topk_positions values k idxs :
  topk values k = Ok idxs ->
  length idxs = k /\ Forall (fun i => (i < length values)%nat) idxs.
Proof.
  unfold topk. destruct (Nat.leb_spec k (length values)) as [Hk|]; [|discriminate].
  intros [= <-]. split.
  - rewrite length_take, (Permutation_length (argsort_descending_perm values)),
      length_seq. lia.
  - apply Forall_take. rewrite argsort_descending_perm.
    apply Forall_forall. intros i Hi%elem_of_seq. lia.
Qed.

Lemma lookup_imap_pair {A} (l : list A) k p :
  imap (fun k x => (k, x)) l !! k = Some p -> exists x, p = (k, x) /\ l !! k = Some x.
Proof.
  rewrite list_lookup_imap. destruct (l !! k) as [x|]; simpl; [|discriminate].
  intros [= <-]. eauto.
Qed.

(** The beams of one spectrum after the selection. *)
Lemma topk_spectrum_rows self tokens scores finished step tokens' scores' :
  topk_spectrum self tokens scores finished step = Ok (tokens', scores') ->
  length tokens' = n_beams self /\ length scores' = n_beams self
  /\ forall k row', tokens' !! k = Some row' ->
       exists s v row_s scores_s row_k scores_k,
         (s < n_beams self)%nat /\ (v < vocab_size self + 1)%nat
         /\ tokens !! s = Some row_s /\ scores !! s = Some scores_s
         /\ tokens !! k = Some row_k /\ scores !! k = Some scores_k
         /\ row' = take step row_s ++ [Z.of_nat v] ++ drop (S step) row_k
         /\ scores' !! k = Some (take (S step) scores_s ++ drop (S step) scores_k).
Proof.
  unfold topk_spectrum. intros H. bind_inv H. rename r into values.
  bind_inv H. rename r into top_idx. bind_inv H. rename r into rows.
  injection H as <- <-.
  apply mapM_length in Hr. rewrite length_seq in Hr.
  apply topk_positions in Hr0 as [Hk Hidx]. rewrite Hr in Hidx.
  pose proof (mapM_length _ _ _ Hr1) as Hlen. rewrite length_imap, Hk in Hlen.
  rewrite !length_fmap. split; [done|]. split; [done|].
  intros k row' Hrow. rewrite list_lookup_fmap in Hrow.
  destruct (rows !! k) as [[row'' sc']|] eqn:Hk'; [|discriminate].
  simpl in Hrow. injection Hrow as ->.
  destruct (mapM_lookup _ _ _ _ _ Hr1 Hk') as ([k0 idx] & Hp & Hf).
  apply lookup_imap_pair in Hp as (idx' & [= -> <-] & Hidx').
  pose proof (Forall_lookup_1 _ _ _ _ Hidx Hidx') as Hlt. simpl in Hlt.
  assert (n_beams self <> 0%nat) as Hn.
  { intros E. rewrite E in Hlt. lia. }
  destruct (tokens !! (idx mod n_beams self)%nat) as [row_s|] eqn:E1; [|discriminate].
  destruct (scores !! (idx mod n_beams self)%nat) as [scores_s|] eqn:E2;
    [|discriminate].
  destruct (tokens !! k) as [row_k|] eqn:E3; [|discriminate].
  destruct (scores !! k) as [scores_k|] eqn:E4; [|discriminate].
  injection Hf as <- <-.
  exists (idx mod n_beams self)%nat, (idx / n_beams self)%nat,
    row_s, scores_s, row_k, scores_k.
  split; [now apply Nat.mod_upper_bound|].
  split; [apply Nat.Div0.div_lt_upper_bound; lia|].
  rewrite list_lookup_fmap, Hk'. auto 10.
Qed.

Lemma lookup_concat_uniform {A} (groups : list (list A)) n i x :
  Forall (fun g => length g = n) groups -> n <> 0%nat ->
  concat groups !! i = Some x ->
  exists g, groups !! (i / n)%nat = Some g /\ g !! (i mod n)%nat = Some x.
Proof.
  intros Hall Hn. revert i. induction Hall as [|g groups Hg _ IH]; intros i; simpl.
  { done. }
  destruct (decide (i < n)%nat) as [Hi|Hi].
  - rewrite lookup_app_l by lia. rewrite Nat.div_small, Nat.mod_small by done.
    simpl. eauto.
  - rewrite lookup_app_r by lia. rewrite Hg. intros (g' & H1 & H2)%IH.
    exists g'.
    replace i with ((i - n) + 1 * n)%nat at 1 2 by lia.
    rewrite Nat.div_add, Nat.Div0.mod_add by done.
    replace (i - n + 1 * n - n)%nat with (i - n)%nat in * by lia.
    rewrite Nat.add_1_r. simpl. auto.
Qed.

Lemma length_concat_uniform {A} (groups : list (list A)) n :
  Forall (fun g => length g = n) groups ->
  length (concat groups) = (length groups * n)%nat.
Proof.
  induction 1 as [|g groups Hg _ IH]; simpl; [done|].
  rewrite length_app. lia.
Qed.

(** ** What a call of [_cache_finished_beams] leaves alone *)

Lemma cache_beam_length self row scores step fits cache cache' :
  cache_beam self row scores step fits cache = Ok cache' ->
  (length cache <= length cache')%nat.
Proof.
  intros H. apply cache_beam_cases in H
    as [[_ ->]|(_ & item & _ & [[_ Hperm]|(_ & popped & Hperm)])]; [done| |].
  - rewrite (Permutation_length Hperm). simpl. lia.
  - apply Permutation_length in Hperm. simpl in Hperm. lia.
Qed.

(** ** The events of [_log_history] *)

Lemma log_scalars_not_nan metrics descr v s :
  add_scalar descr v s ∈ log_scalars metrics ->
  is_nan v = false /\ s = metrics_step metrics
  /\ exists key, v = metrics_get metrics key
       /\ (descr, key) ∈ [("loss/train_crossentropy_loss", "train");
                          ("loss/val_crossentropy_loss", "valid");
                          ("eval/val_pep_precision", "valid_pep_precision");
                          ("eval/val_aa_precision", "valid_aa_precision")]%string.
Proof.
  unfold log_scalars. rewrite list_elem_of_omap.
  intros ([d key] & Hin & H).
  destruct (is_nan (metrics_get metrics key)) eqn:E; [discriminate|].
  injection H as <- <- <-. split; [done|]. split; [done|]. eauto.
Qed.

Lemma log_history_last self metrics :
  _log_history (append_history self metrics)
  = let header :=
      if (length (_history self) =? 0)%nat
      then [logger_info (log_header self) []] else [] in
    if n_log self =? 0 then (header, Raise ZeroDivisionError)
    else if metrics_step metrics mod n_log self =? 0 then
      (header ++ [logger_info (log_msg self) (log_vals self metrics)]
       ++ (if tb_summarywriter self then log_scalars metrics else []),
       Ok tt)
    else (header, Ok tt).
Proof.
  unfold _log_history, append_history. simpl.
  rewrite last_snoc, length_app. simpl.
  replace (length (_history self) + 1 =? 1)%nat with (length (_history self) =? 0)%nat.
  - done.
  - destruct (length (_history self)) as [|n]; [done|].
    simpl. destruct n; simpl; [done|]. done.
Qed.

Lemma read_metrics_keys cm keys items :
  read_metrics cm keys = Some items -> items.*1 = keys.*1.
Proof.
  revert items; induction keys as [|[key name] keys IH]; intros items; simpl.
  - now intros [= <-].
  - destruct (dict_getitem cm name); [|discriminate].
    destruct (read_metrics cm keys); [|discriminate].
    intros [= <-]. simpl. f_equal. auto.
Qed.

Lemma dict_getitem_None d key : key ∉ d.*1 -> dict_getitem d key = None.
Proof.
  induction d as [|[k v] d IH]; simpl; [done|].
  intros H. apply not_elem_of_cons in H as [Hne H].
  destruct (String.eqb_spec k key); [congruence|auto].
Qed.

(** ** What the decoding loop caches *)




Section decode_inv.
Context {Memory : Type} (self : Spec2Pep) (scorer : Scorer Memory).
Hypothesis no_negative_mass :
  Forall (fun p => (p.2 <? 0)%float = false) (residues self).


End decode_inv.

(** * Further properties of the decoder *)

(** ** The classification of the beams *)

(** X1.  [_finish_beams] marks a beam as fitting the precursor only if
    the beam has predicted the stop token at this step; the beam is then
    finished and not discarded.  A beam that is discarded, or that is
    terminated because its mass exceeds the precursor, never fits. *)
Theorem fits_requires_stop_token self row prec step :
  (finish_beam self row prec step).1.2 = true ->
  ends_stop_token self row step = true
  /\ (finish_beam self row prec step).1.1 = true
  /\ (finish_beam self row prec step).2 = false.
Proof.
  unfold finish_beam. destruct (_ || _); [done|].
  destruct (peptide_of self row step) as [peptide peptide_len].
  destruct (_ && _); [done|].
  pose proof (precursor_loop_exclusive self (ends_stop_token self row step) peptide
                prec (if ends_stop_token self row step then [None]
                      else aa_neg_mass self) (false, false) eq_refl) as Hex.
  destruct (precursor_loop _ _ _ _ _ _) as [m e]. simpl in Hex.
  destruct (ends_stop_token self row step); [done|].
  destruct e; [|done]. simpl. intros ->. done.
Qed.

Lemma fits_requires_stop_token_witness :
  (finish_beam example_short_model [1; 1; 3; 0; 0; 0; 0] example_gg_precursor 2).1.2 = true
  /\ ends_stop_token example_short_model [1; 1; 3; 0; 0; 0; 0] 2 = true
  /\ (finish_beam example_short_model [1; 1; 3; 0; 0; 0; 0] example_gg_precursor 2).1.1 = true
  /\ (finish_beam example_short_model [1; 1; 3; 0; 0; 0; 0] example_gg_precursor 2).2 = false.
Proof.
  assert ((finish_beam example_short_model [1; 1; 3; 0; 0; 0; 0] example_gg_precursor 2).1.2
          = true) as H by (vm_compute; reflexivity).
  split; [exact H|].
  exact (fits_requires_stop_token example_short_model [1; 1; 3; 0; 0; 0; 0]
           example_gg_precursor 2 H).
Defined.

(** X2.  With an empty isotope range (its upper end below its lower
    end) there is no isotope to fit: no beam is ever marked as fitting the
    precursor. *)
Theorem empty_isotope_range_never_fits self row prec step :
  (isotope_error_range self).2 < (isotope_error_range self).1 ->
  (finish_beam self row prec step).1.2 = false.
Proof.
  intros Hrange. unfold finish_beam. destruct (_ || _); [done|].
  destruct (peptide_of self row step) as [peptide peptide_len].
  destruct (_ && _); [done|].
  pose proof (precursor_loop_no_match self (ends_stop_token self row step) peptide
                prec (if ends_stop_token self row step then [None]
                      else aa_neg_mass self) (false, false)) as Hno.
  destruct (precursor_loop _ _ _ _ _ _) as [m e]. simpl in Hno.
  assert (m = false) as ->.
  { apply Hno; [|done]. intros calc_mz. unfold delta_mass_ppm.
    now rewrite isotope_range_empty. }
  now destruct (ends_stop_token self row step), e.
Qed.

Lemma empty_isotope_range_never_fits_witness :
  (finish_beam example_empty_range_model [1; 1; 2; 0; 0; 0; 0]
     example_gg_precursor 2).1.2 = false.
Proof.
  apply (empty_isotope_range_never_fits example_empty_range_model). simpl. lia.
Defined.

(** X3.  A spectrum whose precursor m/z is NaN has a NaN mass error for
    every peptide and isotope.  With a non-empty isotope range its beams
    never fit the precursor and are never terminated by their mass: they
    are finished exactly when they predict the stop token. *)
Theorem nan_precursor_undecided self row prec step :
  is_nan (precursor_mz prec) = true ->
  (isotope_error_range self).1 <= (isotope_error_range self).2 ->
  (finish_beam self row prec step).1.2 = false
  /\ (finish_beam self row prec step).1.1 = ends_stop_token self row step.
Proof.
  intros Hnan Hrange.
  assert (forall calc_mz,
            any_within_tol self (delta_mass_ppm self calc_mz prec) = false) as Hany.
  { intros calc_mz. unfold any_within_tol, delta_mass_ppm.
    apply not_true_is_false. rewrite existsb_exists.
    intros (d & Hin & Hd). apply list_elem_of_In, list_elem_of_fmap in Hin.
    destruct Hin as (isotope & -> & _).
    rewrite ltb_nan_l in Hd; [done|]. now apply abs_nan, calc_mass_error_nan. }
  assert (forall calc_mz,
            all_above_tol self (delta_mass_ppm self calc_mz prec) = false) as Hall.
  { intros calc_mz. unfold all_above_tol, delta_mass_ppm.
    apply not_true_is_false. rewrite forallb_forall. intros H.
    specialize (H (_calc_mass_error calc_mz (precursor_mz prec)
                     (precursor_charge prec) (isotope_error_range self).1)).
    rewrite ltb_nan_r in H by now apply calc_mass_error_nan.
    assert (false = true) by
      (apply H, list_elem_of_In, list_elem_of_fmap_2, isotope_range_nonempty; done).
    done. }
  unfold finish_beam. destruct (_ || _); [done|].
  destruct (peptide_of self row step) as [peptide peptide_len].
  destruct (_ && _); [done|].
  rewrite (precursor_loop_undecided _ _ _ _ _ Hany Hall).
  now destruct (ends_stop_token self row step).
Qed.

Lemma nan_precursor_undecided_witness :
  (finish_beam example_model example_row example_nan_precursor 2).1.2 = false
  /\ (finish_beam example_model example_row example_nan_precursor 2).1.1
     = ends_stop_token example_model example_row 2.
Proof.
  apply (nan_precursor_undecided example_model example_row example_nan_precursor 2).
  - vm_compute. reflexivity.
  - simpl. lia.
Defined.

(** X4.  The two tolerance checks exclude each other: a peptide whose
    mass error is within the tolerance for some isotope of the range does
    not exceed the tolerance for all of them. *)
Theorem fit_excludes_exceed self calc_mz prec :
  any_within_tol self (delta_mass_ppm self calc_mz prec) = true ->
  all_above_tol self (delta_mass_ppm self calc_mz prec) = false.
Proof.
  unfold any_within_tol, all_above_tol. rewrite existsb_exists.
  intros (d & Hin & Hd). apply not_true_is_false. rewrite forallb_forall.
  intros H. specialize (H d Hin). apply abs_lt_not_gt in Hd. congruence.
Qed.

Lemma fit_excludes_exceed_witness :
  any_within_tol example_short_model
    (delta_mass_ppm example_short_model (precursor_mz example_gg_precursor)
       example_gg_precursor) = true
  /\ all_above_tol example_short_model
       (delta_mass_ppm example_short_model (precursor_mz example_gg_precursor)
          example_gg_precursor) = false.
Proof.
  assert (any_within_tol example_short_model
            (delta_mass_ppm example_short_model (precursor_mz example_gg_precursor)
               example_gg_precursor) = true) as H by (vm_compute; reflexivity).
  split; [exact H|]. exact (fit_excludes_exceed _ _ _ H).
Defined.

(** X5.  When no residue of the vocabulary has a negative mass, the
    mass evaluation terminates no beam: [_finish_beams] reports a beam as
    finished exactly when the beam has predicted the stop token at this
    step. *)
Theorem no_negative_mass_no_termination self row prec step :
  Forall (fun p => (p.2 <? 0)%float = false) (residues self) ->
  (finish_beam self row prec step).1.1 = ends_stop_token self row step.
Proof.
  intros Hneg. unfold finish_beam. destruct (_ || _); [done|].
  destruct (peptide_of self row step) as [peptide peptide_len].
  destruct (_ && _); [done|].
  destruct (ends_stop_token self row step) eqn:E.
  - now destruct (precursor_loop _ _ _ _ _ _).
  - rewrite aa_neg_mass_none by done. simpl.
    destruct (peptide_mass self peptide (precursor_charge prec)); [|done].
    destruct (any_within_tol self _); simpl; done.
Qed.

Lemma no_negative_mass_no_termination_witness :
  (finish_beam example_short_model example_row example_precursor 2).1.1
  = ends_stop_token example_short_model example_row 2.
Proof.
  apply (no_negative_mass_no_termination example_short_model).
  repeat constructor.
Defined.

(** X6.  The two places that handle the stop token agree.  For a beam
    with a token at [step], [_cache_finished_beams] finds a stop token
    exactly when [_finish_beams] does; the peptide it stores is then the
    tokens before [step], and their number is the peptide length that
    [_finish_beams] has compared with [min_peptide_len].  Without a stop
    token it stores the tokens up to [step]. *)
Theorem stop_token_handling_agrees self row step :
  (step < length row)%nat ->
  has_stop_token self row step = ends_stop_token self row step
  /\ (ends_stop_token self row step = true ->
      peptide_tokens self row step = take step row
      /\ (peptide_of self row step).2 = length (peptide_tokens self row step))
  /\ (ends_stop_token self row step = false ->
      peptide_tokens self row step = take (S step) row).
Proof.
  intros Hlen. pose proof (has_stop_token_ends self row step Hlen) as Hsame.
  split; [done|]. unfold peptide_tokens. rewrite Hsame. split.
  - intros Hstop. rewrite Hstop. unfold pred_tokens.
    rewrite removelast_take by done. split; [done|].
    rewrite (peptide_of_stop self row step Hlen Hstop), length_take. lia.
  - now intros ->.
Qed.

Lemma stop_token_handling_agrees_witness :
  has_stop_token example_short_model example_row_stop 2
  = ends_stop_token example_short_model example_row_stop 2
  /\ peptide_tokens example_short_model example_row_stop 2 = [1; 1].
Proof.
  destruct (stop_token_handling_agrees example_short_model example_row_stop 2)
    as (H1 & H2 & _).
  - simpl. lia.
  - split; [exact H1|]. destruct H2 as [H2 _]; [vm_compute; reflexivity|].
    exact H2.
Defined.

(** ** The cache as a priority queue *)


(** X7.  At every point during decoding, the cache of a spectrum that
    holds no NaN score is a binary min-heap on the peptide score,
    whatever the caches of the other spectra hold: no entry scores lower
    than the entry at its parent position, and the first entry has the
    lowest score of the cache. *)
Theorem cache_is_min_heap self batch pred_cache :
  reachable self batch pred_cache ->
  Forall (fun cache =>
            Forall score_not_nan cache ->
            is_heap score_le cache
            /\ forall root, head cache = Some root -> Forall (score_le root) cache)
         pred_cache.
Proof.
  intros Hr. pose proof (reachable_heap _ _ _ Hr) as Hh.
  apply Forall_lookup. intros i cache Hc Hnan.
  pose proof (Forall_lookup_1 _ _ _ _ Hh Hc Hnan) as Hheap.
  split; [done|]. intros root Hroot.
  destruct cache as [|root' rest]; [done|]. injection Hroot as ->.
  constructor.
  - apply score_le_refl. now apply Forall_cons_1 in Hnan as [? _].
  - now apply (heap_root_tail score_le).
Qed.

(** Two beams of one spectrum that end with the stop token at step 2:
    the second one, which does not fit the precursor, is cached last and
    moves to the first position of the heap. *)
Lemma example_reachable_heap :
  reachable example_short_model 1
    [[((-0.75)%float, [0.25; 0.25]%float, [2; 1]);
      (0.25%float, [0.25; 0.25]%float, [1; 1])]].
Proof.
  apply (reachable_step example_short_model 1
           [example_row_stop; [2; 1; 3; 0; 0; 0; 0]] [example_scores; example_scores]
           2 [true; true] [true; false] 1
           [[(0.25%float, [0.25; 0.25]%float, [1; 1])]]).
  - apply (reachable_step example_short_model 1
             [example_row_stop; [2; 1; 3; 0; 0; 0; 0]]
             [example_scores; example_scores] 2 [true; true] [true; false] 0 [[]]).
    + apply (reachable_init example_short_model 1).
    + vm_compute. reflexivity.
  - vm_compute. reflexivity.
Defined.

Lemma cache_is_min_heap_witness :
  Forall (fun cache =>
            Forall score_not_nan cache ->
            is_heap score_le cache
            /\ forall root, head cache = Some root -> Forall (score_le root) cache)
    [[((-0.75)%float, [0.25; 0.25]%float, [2; 1]);
      (0.25%float, [0.25; 0.25]%float, [1; 1])]]
  /\ Forall score_not_nan
       [((-0.75)%float, [0.25; 0.25]%float, [2; 1]);
        (0.25%float, [0.25; 0.25]%float, [1; 1])].
Proof.
  split.
  - apply (cache_is_min_heap example_short_model 1 _ example_reachable_heap).
  - repeat constructor.
Defined.

(** X8.  When the cache of a spectrum is full, caching a new peptide takes
    out one entry among the cache and the candidate, and that entry has
    the lowest score of them: the cache keeps the best-scoring peptides. *)
Theorem full_cache_evicts_lowest self row scores step fits cache cache' item :
  is_heap score_le cache -> Forall score_not_nan cache ->
  (n_beams self <= length cache)%nat ->
  peptide_tokens self row step ∉ pred_peptide <$> cache ->
  candidate self row scores step fits = Ok item -> score_not_nan item ->
  cache_beam self row scores step fits cache = Ok cache' ->
  exists popped,
    popped :: cache' ≡ₚ item :: cache
    /\ Forall (score_le popped) (item :: cache).
Proof.
  intros Hh HP Hfull Hnew Hitem Hnan. unfold cache_beam.
  destruct (pred_tokens row step); [discriminate|].
  destruct (existsb _ cache) eqn:E; [now apply existsb_cached in E|].
  rewrite Hitem. cbn [bind].
  destruct (Nat.ltb_spec (length cache) (n_beams self)) as [Hlt'|_]; [lia|].
  intros H. bind_inv H. destruct r as [popped heap']. injection H as <-.
  exists popped. split; [now apply heappushpop_perm in Hr|].
  apply heappushpop_cases in Hr
    as [(-> & -> & _)|[(root & rest & -> & Hlt & -> & _)
                      |(root & rest & -> & Hlt & -> & _)]].
  - repeat constructor. now apply score_le_refl.
  - apply Forall_cons_1 in HP as [Hroot HP].
    assert (score_le item root) as Hir by now apply tuple_lt_false.
    constructor; [now apply score_le_refl|]. constructor; [done|].
    eapply Forall_impl; [now apply (heap_root_tail score_le root rest)|].
    intros x Hx. now transitivity root.
  - apply Forall_cons_1 in HP as [Hroot HP].
    constructor; [now apply tuple_lt_true|].
    constructor; [now apply score_le_refl|].
    now apply (heap_root_tail score_le).
Qed.

Lemma full_cache_evicts_lowest_witness :
  cache_beam example_short_model example_row_stop example_scores 2 true
    example_full_cache
  = Ok [(0.25%float, [0.25; 0.25]%float, [1; 1]);
        (0.5%float, [0.75; 0.5]%float, [2; 1])]
  /\ exists popped,
       popped :: [(0.25%float, [0.25; 0.25]%float, [1; 1]);
                  (0.5%float, [0.75; 0.5]%float, [2; 1])]
       ≡ₚ (0.25%float, [0.25; 0.25]%float, [1; 1]) :: example_full_cache
       /\ Forall (score_le popped)
            ((0.25%float, [0.25; 0.25]%float, [1; 1]) :: example_full_cache).
Proof.
  assert (cache_beam example_short_model example_row_stop example_scores 2 true
            example_full_cache
          = Ok [(0.25%float, [0.25; 0.25]%float, [1; 1]);
                (0.5%float, [0.75; 0.5]%float, [2; 1])]) as Hc
    by (vm_compute; reflexivity).
  split; [exact Hc|].
  apply (full_cache_evicts_lowest example_short_model example_row_stop
           example_scores 2 true example_full_cache).
  - intros c x y Hc0 _ Hx Hy. destruct c as [|[|c]]; [lia| |done].
    injection Hx as <-. injection Hy as <-. vm_compute. reflexivity.
  - repeat constructor.
  - simpl. lia.
  - vm_compute. intros H.
    repeat (apply elem_of_cons in H as [H|H]; [discriminate|]).
    now apply elem_of_nil in H.
  - vm_compute. reflexivity.
  - vm_compute. reflexivity.
  - exact Hc.
Defined.

(** X9.  The predictions of a spectrum are its best-scoring cache
    entries: [_get_top_peptide] emits [min(top_match, len(cache))] of
    them, and no entry it leaves in the cache scores higher than an entry
    it emits. *)
Theorem top_peptides_are_best self pred_cache predictions :
  Forall (Forall score_not_nan) pred_cache ->
  _get_top_peptide self pred_cache = Ok predictions ->
  Forall2 (fun peptides out =>
             exists best rest,
               out = prediction_of self <$> best
               /\ peptides ≡ₚ best ++ rest
               /\ length out = Nat.min (top_match self) (length peptides)
               /\ forall x y, x ∈ best -> y ∈ rest -> score_le y x)
          pred_cache predictions.
Proof.
  intros HP. unfold _get_top_peptide. apply mapM_Forall2.
  intros peptides out Hin. rewrite Forall_forall in HP. specialize (HP _ Hin).
  unfold top_peptides. destruct (0 <? length peptides)%nat eqn:E.
  - intros H. bind_inv H. injection H as <-. rename r into best.
    apply (nlargest_top tuple_lt tuple_gt tuple_eq score_le score_not_nan
             score_le_refl tuple_lt_true tuple_lt_false tuple_gt_true tuple_gt_false
             tuple_eq_true) in Hr as (rest & Hperm & Hlen & Hbest); [|done].
    exists best, rest. rewrite length_fmap. split; [reflexivity|]. auto.
  - intros [= <-]. apply Nat.ltb_ge in E.
    destruct peptides; [|simpl in E; lia].
    exists [], []. split; [done|]. split; [done|]. split; [simpl; lia|].
    now intros x y ?%elem_of_nil.
Qed.

Lemma top_peptides_are_best_witness :
  Forall2 (fun peptides out =>
             exists best rest,
               out = prediction_of example_short_model <$> best
               /\ peptides ≡ₚ best ++ rest
               /\ length out = Nat.min (top_match example_short_model) (length peptides)
               /\ forall x y, x ∈ best -> y ∈ rest -> score_le y x)
    example_cache
    [[(0.75%float, [0.875; 0.75]%float, "GG"%string);
      (0.5%float, [0.75; 0.5]%float, "GA"%string)]; []].
Proof.
  apply (top_peptides_are_best example_short_model example_cache).
  - repeat constructor.
  - vm_compute. reflexivity.
Defined.

(** X10.  A call of [_cache_finished_beams] keeps the number of caches,
    shrinks none of them, and leaves the cache of a spectrum exactly as it
    is when none of the beams of the spectrum is to be cached. *)
Theorem cache_finished_beams_frame self tokens scores step beams_to_cache
    beam_fits_precursor pred_cache pred_cache' :
  _cache_finished_beams self tokens scores step beams_to_cache beam_fits_precursor
    pred_cache = Ok pred_cache' ->
  length pred_cache' = length pred_cache
  /\ forall spec_idx cache, pred_cache !! spec_idx = Some cache ->
       exists cache',
         pred_cache' !! spec_idx = Some cache'
         /\ (length cache <= length cache')%nat
         /\ ((forall i, (i / n_beams self)%nat = spec_idx ->
                        beams_to_cache !! i <> Some true) ->
             cache' = cache).
Proof.
  unfold _cache_finished_beams.
  apply (foldM_invariant _
    (fun pc => length pc = length pred_cache
       /\ forall spec_idx cache, pred_cache !! spec_idx = Some cache ->
            exists cache',
              pc !! spec_idx = Some cache'
              /\ (length cache <= length cache')%nat
              /\ ((forall i, (i / n_beams self)%nat = spec_idx ->
                             beams_to_cache !! i <> Some true) ->
                  cache' = cache))).
  - intros pc i pc' _ [Hlen Hinv] H.
    apply cache_iteration_cases in H
      as [->|(row & scores_i & f & cache1 & cache1' & _ & _ & _ & Hflag & _
              & Hc & Hb & ->)]; [done|].
    split; [now rewrite length_insert|].
    intros spec_idx cache Hcache.
    destruct (Hinv _ _ Hcache) as (cache0 & Hc0 & Hle & Hsame).
    destruct (decide (spec_idx = (i / n_beams self)%nat)) as [->|Hne].
    + exists cache1'. rewrite list_lookup_insert_eq by now apply lookup_lt_Some in Hc.
      split; [done|]. rewrite Hc in Hc0. injection Hc0 as <-.
      apply cache_beam_length in Hb. split; [lia|].
      intros Hnone. now destruct (Hnone i eq_refl).
    + exists cache0. rewrite list_lookup_insert_ne by done. auto.
  - split; [done|]. intros spec_idx cache Hcache. exists cache. auto.
Qed.

Lemma cache_finished_beams_frame_witness :
  _cache_finished_beams example_model [example_row; example_row]
    [example_scores; example_scores] 2 [true; false] [false; false] [[]]
  = Ok [[((-0.8125)%float, [0.21875; 0.21875; 0.21875]%float, [1; 1; 1])]]
  /\ length [[((-0.8125)%float, [0.21875; 0.21875; 0.21875]%float, [1; 1; 1])]]
     = length [[] : list Pred].
Proof.
  assert (_cache_finished_beams example_model [example_row; example_row]
            [example_scores; example_scores] 2 [true; false] [false; false] [[]]
          = Ok [[((-0.8125)%float, [0.21875; 0.21875; 0.21875]%float, [1; 1; 1])]])
    as H by (vm_compute; reflexivity).
  split; [exact H|].
  exact (proj1 (cache_finished_beams_frame _ _ _ _ _ _ _ _ H)).
Defined.

(** ** Decoding a batch *)

(** X11.  [beam_search_decode] returns one list of predictions for each
    spectrum of the batch, in the order of the batch, and no list is
    longer than [top_match]; with [max_length = 0] the decoding loop is
    not entered and every list is empty. *)
Theorem decode_one_list_per_spectrum {Memory : Type} (self : Spec2Pep)
    (scorer : Scorer Memory) memories precursors predictions :
  beam_search_decode self scorer memories precursors = Ok predictions ->
  length predictions = length memories
  /\ Forall (fun out => (length out <= top_match self)%nat) predictions
  /\ (max_length self = 0%nat -> predictions = replicate (length memories) []).
Proof.
  intros H. destruct (decode_shape self scorer _ _ _ H) as [Hlen Hall].
  split; [done|]. split; [done|]. intros Hmax.
  unfold beam_search_decode, decode_cache in H. rewrite Hmax in H.
  bind_inv H. bind_inv Hr. simpl in Hr. injection Hr as <-.
  unfold _get_top_peptide in H. rewrite mapM_replicate_nil in H by done.
  now injection H as <-.
Qed.

Lemma decode_one_list_per_spectrum_witness :
  beam_search_decode example_decode_model example_scorer [tt; tt]
    [example_decode_precursor; example_decode_precursor]
  = Ok [[(0.25%float, [0.25; 0.25]%float, "GA"%string)];
        [(0.25%float, [0.25; 0.25]%float, "GA"%string)]]
  /\ length [[(0.25%float, [0.25; 0.25]%float, "GA"%string)];
             [(0.25%float, [0.25; 0.25]%float, "GA"%string)]] = length [tt; tt].
Proof.
  assert (beam_search_decode example_decode_model example_scorer [tt; tt]
            [example_decode_precursor; example_decode_precursor]
          = Ok [[(0.25%float, [0.25; 0.25]%float, "GA"%string)];
                [(0.25%float, [0.25; 0.25]%float, "GA"%string)]]) as H
    by (vm_compute; reflexivity).
  split; [exact H|].
  exact (proj1 (decode_one_list_per_spectrum _ _ _ _ _ H)).
Defined.

(** X12.  [predict_step] returns the tuples spectrum after spectrum: at
    most [top_match] tuples for each spectrum of the batch, one for each
    prediction of that spectrum and in their order, none for a spectrum
    without a prediction; and every tuple holds the identifier, the
    charge and the m/z of the spectrum whose prediction it holds. *)
Theorem predict_step_rows {Memory Id : Type} (self : Spec2Pep)
    (scorer : Scorer Memory) memories precursors (spectrum_ids : list Id) rows :
  predict_step self scorer memories precursors spectrum_ids = Ok rows ->
  exists predictions groups,
    forward self scorer memories precursors = Ok predictions
    /\ rows = concat groups
    /\ (length groups <= length memories)%nat
    /\ (forall i group,
          groups !! i = Some group ->
          (length group <= top_match self)%nat
          /\ exists prec spectrum_i spectrum_preds,
               precursors !! i = Some prec /\ spectrum_ids !! i = Some spectrum_i
               /\ predictions !! i = Some spectrum_preds
               /\ group
                  = (fun '(peptide_score, aa_scores, peptide) =>
                       (spectrum_i, precursor_charge prec, precursor_mz prec,
                        peptide, peptide_score, aa_scores)) <$> spectrum_preds)
    /\ (length precursors = length memories ->
        length spectrum_ids = length memories ->
        length groups = length memories)
    /\ (length rows <= length memories * top_match self)%nat
    /\ forall spectrum_i charge mz peptide peptide_score aa_scores,
         (spectrum_i, charge, mz, peptide, peptide_score, aa_scores) ∈ rows ->
         exists i prec spectrum_preds,
           precursors !! i = Some prec /\ spectrum_ids !! i = Some spectrum_i
           /\ predictions !! i = Some spectrum_preds
           /\ charge = precursor_charge prec /\ mz = precursor_mz prec
           /\ (peptide_score, aa_scores, peptide) ∈ spectrum_preds.
Proof.
  unfold predict_step. intros H. bind_inv H. rename r into predictions.
  injection H as <-. exists predictions. eexists. split; [done|].
  split; [reflexivity|].
  destruct (decode_shape self scorer _ _ _ Hr) as [Hlen Hall].
  split; [rewrite length_zip_with, <- Hlen; lia|]. split.
  { intros i group Hg.
    apply lookup_zip_with_Some in Hg as ([prec id] & sp & -> & Hz & Hsp).
    split.
    - rewrite length_fmap. rewrite Forall_lookup in Hall. eauto.
    - apply lookup_zip_with_Some in Hz as (prec' & id' & [= <- <-] & Hprec & Hid).
      exists prec, id, sp. auto. }
  split.
  { intros Hp Hi. rewrite length_zip_with, length_zip_with, <- Hlen. lia. }
  split.
  - etransitivity; [apply (length_concat_le _ (top_match self))|].
    + apply Forall_lookup. intros i g Hg.
      apply lookup_zip_with_Some in Hg as ([prec id] & sp & -> & _ & Hsp).
      rewrite length_fmap. rewrite Forall_lookup in Hall. eauto.
    + rewrite length_zip_with, <- Hlen. apply Nat.mul_le_mono_r. lia.
  - intros spectrum_i charge mz peptide peptide_score aa_scores
      (g & Hg & Hrow)%elem_of_concat.
    apply elem_of_lookup_zip_with in Hg as (i & [prec id] & sp & -> & Hz & Hsp).
    apply list_elem_of_fmap in Hrow as ([[s a] p] & Heq & Hin).
    injection Heq as -> -> -> -> -> ->.
    apply lookup_zip_with_Some in Hz as (prec' & id' & [= <- <-] & Hprec & Hid).
    exists i, prec, sp. auto 10.
Qed.

Lemma predict_step_rows_witness :
  predict_step example_decode_model example_scorer [tt; tt]
    [example_decode_precursor; example_decode_precursor] [7; 8]
  = Ok [(7, 1, 147.076419%float, "GA"%string, 0.25%float, [0.25; 0.25]%float);
        (8, 1, 147.076419%float, "GA"%string, 0.25%float, [0.25; 0.25]%float)]
  /\ exists predictions groups,
       forward example_decode_model example_scorer [tt; tt]
         [example_decode_precursor; example_decode_precursor] = Ok predictions
       /\ [(7, 1, 147.076419%float, "GA"%string, 0.25%float, [0.25; 0.25]%float);
           (8, 1, 147.076419%float, "GA"%string, 0.25%float, [0.25; 0.25]%float)]
          = concat groups
       /\ (forall i group,
             groups !! i = Some group ->
             (length group <= top_match example_decode_model)%nat).
Proof.
  assert (predict_step example_decode_model example_scorer [tt; tt]
            [example_decode_precursor; example_decode_precursor] [7; 8]
          = Ok [(7, 1, 147.076419%float, "GA"%string, 0.25%float, [0.25; 0.25]%float);
                (8, 1, 147.076419%float, "GA"%string, 0.25%float, [0.25; 0.25]%float)])
    as H by (vm_compute; reflexivity).
  split; [exact H|].
  destruct (predict_step_rows _ _ _ _ _ _ H)
    as (predictions & groups & Hf & Hrows & _ & Hgroups & _).
  exists predictions, groups. split; [exact Hf|]. split; [exact Hrows|].
  intros i group Hg. exact (proj1 (Hgroups i group Hg)).
Defined.

(** X13.  When [validation_step] collects the predictions of a batch
    with one list of predictions for each true peptide, its assertion on
    the lengths of [peptides_pred] and [peptides_score] holds exactly when
    no spectrum has more than one prediction: a spectrum with two
    predictions makes both lists longer than [peptides_true]. *)
Theorem validation_assert_iff predictions peptides_true :
  length predictions = length peptides_true ->
  validation_assert (validation_predictions predictions).1
    (validation_predictions predictions).2 peptides_true = true
  <-> Forall (fun spectrum_preds => (length spectrum_preds <= 1)%nat) predictions.
Proof.
  intros Hlen. unfold validation_assert.
  destruct (validation_predictions_length predictions) as [-> ->].
  destruct (sum_max_one (length <$> predictions)) as [Hle Hiff].
  rewrite length_fmap in Hle, Hiff. rewrite Forall_fmap in Hiff.
  rewrite andb_true_iff, !Nat.eqb_eq, <- Hlen. rewrite <- Hiff. tauto.
Qed.

Lemma validation_assert_iff_witness :
  validation_assert
    (validation_predictions
       [[(0.25%float, [0.25; 0.25]%float, "GA"%string)]; []]).1
    (validation_predictions
       [[(0.25%float, [0.25; 0.25]%float, "GA"%string)]; []]).2
    ["GA"; "AG"]%string = true
  /\ validation_predictions [[(0.25%float, [0.25; 0.25]%float, "GA"%string)]; []]
     = (["GA"; ""]%string, [0.25; neg_infinity]%float).
Proof.
  split; [|vm_compute; reflexivity].
  apply (validation_assert_iff
           [[(0.25%float, [0.25; 0.25]%float, "GA"%string)]; []]
           ["GA"; "AG"]%string); [reflexivity|].
  repeat constructor.
Defined.

(** X14.  With [top_match] at most 1, the assertion of [validation_step]
    holds for every batch that is decoded: [forward] returns one list of
    at most one prediction for each spectrum. *)
Theorem validation_assert_top_match {Memory : Type} (self : Spec2Pep)
    (scorer : Scorer Memory) memories precursors predictions peptides_true :
  (top_match self <= 1)%nat ->
  length peptides_true = length memories ->
  forward self scorer memories precursors = Ok predictions ->
  validation_assert (validation_predictions predictions).1
    (validation_predictions predictions).2 peptides_true = true.
Proof.
  intros Htop Hlen H. destruct (decode_shape self scorer _ _ _ H) as [Hl Hall].
  apply validation_assert_iff; [congruence|].
  eapply Forall_impl; [exact Hall|]. simpl. intros out Hout. lia.
Qed.

Lemma validation_assert_top_match_witness :
  validation_assert
    (validation_predictions
       [[(0.25%float, [0.25; 0.25]%float, "GA"%string)];
        [(0.25%float, [0.25; 0.25]%float, "GA"%string)]]).1
    (validation_predictions
       [[(0.25%float, [0.25; 0.25]%float, "GA"%string)];
        [(0.25%float, [0.25; 0.25]%float, "GA"%string)]]).2
    ["GA"; "AG"]%string = true.
Proof.
  apply (validation_assert_top_match example_decode_model example_scorer [tt; tt]
           [example_decode_precursor; example_decode_precursor]).
  - simpl. lia.
  - reflexivity.
  - vm_compute. reflexivity.
Defined.





(** X17.  [torch.topk] cannot select more entries than a row has: when
    [n_beams] is larger than the number of scores the decoder returns for
    the first position of the first spectrum, [beam_search_decode] raises
    [RuntimeError]. *)
Theorem too_many_beams {Memory : Type} (self : Spec2Pep) (scorer : Scorer Memory)
    memory memories prec precursors :
  (length (decoder_first scorer prec memory) < n_beams self)%nat ->
  beam_search_decode self scorer (memory :: memories) (prec :: precursors)
  = Raise RuntimeError.
Proof.
  intros H. unfold beam_search_decode, decode_cache. simpl.
  unfold initial_beams, topk.
  destruct (Nat.leb_spec (n_beams self) (length (decoder_first scorer prec memory)));
    [lia|done].
Qed.

Lemma too_many_beams_witness :
  beam_search_decode example_wide_model example_scorer [tt] [example_decode_precursor]
  = Raise RuntimeError.
Proof. apply too_many_beams. simpl. lia. Defined.

(** ** The continuation of the beams *)

(** X18.  [_get_topk_beams] returns [batch * n_beams] beams.  Each of
    them continues a beam of its own spectrum: up to [step] it holds the
    tokens and the scores of a beam [j] of the same spectrum, at [step] a
    token of the vocabulary (padding included), and after [step] what the
    beam at its position held before. *)
Theorem topk_beams_extend self tokens scores finished_beams batch step
    tokens' scores' :
  _get_topk_beams self tokens scores finished_beams batch step = Ok (tokens', scores') ->
  length tokens' = (batch * n_beams self)%nat
  /\ length scores' = (batch * n_beams self)%nat
  /\ forall i row', tokens' !! i = Some row' ->
       exists j v row_j scores_j row_i scores_i,
         (j / n_beams self = i / n_beams self)%nat
         /\ (v < vocab_size self + 1)%nat
         /\ tokens !! j = Some row_j /\ scores !! j = Some scores_j
         /\ tokens !! i = Some row_i /\ scores !! i = Some scores_i
         /\ row' = take step row_j ++ [Z.of_nat v] ++ drop (S step) row_i
         /\ scores' !! i = Some (take (S step) scores_j ++ drop (S step) scores_i).
Proof.
  unfold _get_topk_beams. intros H. bind_inv H. rename r into spectra.
  injection H as <- <-.
  pose proof (mapM_length _ _ _ Hr) as Hlen. rewrite length_seq in Hlen.
  assert (Forall (fun sp : list (list Z) * list (list (list float)) =>
                    length sp.1 = n_beams self /\ length sp.2 = n_beams self)
                 spectra) as Hall.
  { apply Forall_lookup. intros b [t s] Hb.
    destruct (mapM_lookup _ _ _ _ _ Hr Hb) as (b' & _ & Hsp).
    apply topk_spectrum_rows in Hsp as (H1 & H2 & _). done. }
  assert (Forall (fun g => length g = n_beams self) spectra.*1) as Hall1.
  { apply Forall_fmap. eapply Forall_impl; [exact Hall|]. now intros sp [? _]. }
  assert (Forall (fun g => length g = n_beams self) spectra.*2) as Hall2.
  { apply Forall_fmap. eapply Forall_impl; [exact Hall|]. now intros sp [_ ?]. }
  split; [|split].
  - rewrite (length_concat_uniform _ _ Hall1), length_fmap. lia.
  - rewrite (length_concat_uniform _ _ Hall2), length_fmap. lia.
  - intros i row' Hrow.
    destruct (decide (n_beams self = 0%nat)) as [E|Hn].
    { apply lookup_lt_Some in Hrow.
      rewrite (length_concat_uniform _ _ Hall1), E in Hrow. lia. }
    apply (lookup_concat_uniform _ (n_beams self)) in Hrow as (g & Hg & Hrow);
      [|done|done].
    rewrite list_lookup_fmap in Hg.
    destruct (spectra !! (i / n_beams self)%nat) as [[t s]|] eqn:Hb; [|discriminate].
    simpl in Hg. injection Hg as <-.
    destruct (mapM_lookup _ _ _ _ _ Hr Hb) as (b & Hseq & Hsp).
    apply lookup_seq in Hseq as [-> Hbatch]. simpl in Hsp.
    apply topk_spectrum_rows in Hsp as (_ & Hlen2 & Hsp).
    destruct (Hsp _ _ Hrow)
      as (s0 & v & row_s & scores_s & row_k & scores_k
          & Hs & Hv & Ht1 & Hs1 & Ht2 & Hs2 & -> & Hsc).
    apply lookup_take_Some in Ht1 as [Ht1 _]. rewrite lookup_drop in Ht1.
    apply lookup_take_Some in Hs1 as [Hs1 _]. rewrite lookup_drop in Hs1.
    apply lookup_take_Some in Ht2 as [Ht2 _]. rewrite lookup_drop in Ht2.
    apply lookup_take_Some in Hs2 as [Hs2 _]. rewrite lookup_drop in Hs2.
    assert (i / n_beams self * n_beams self + i mod n_beams self = i)%nat as Ei.
    { pose proof (Nat.div_mod_eq i (n_beams self)). lia. }
    rewrite Ei in Ht2, Hs2.
    exists (i / n_beams self * n_beams self + s0)%nat, v,
      row_s, scores_s, row_k, scores_k.
    split.
    { rewrite Nat.add_comm, Nat.div_add by done. rewrite Nat.div_small by done. done. }
    split; [done|]. split; [done|]. split; [done|]. split; [done|]. split; [done|].
    split; [done|].
    destruct (lookup_lt_is_Some_2 (concat spectra.*2) i) as [sc Hsc'].
    { rewrite (length_concat_uniform _ _ Hall2), length_fmap.
      apply lookup_lt_Some in Hb.
      pose proof (Nat.mod_upper_bound i (n_beams self) Hn). nia. }
    rewrite Hsc'.
    apply (lookup_concat_uniform _ (n_beams self)) in Hsc' as (g & Hg & Hsc');
      [|done|done].
    rewrite list_lookup_fmap, Hb in Hg. simpl in Hg. injection Hg as <-.
    congruence.
Qed.

Lemma topk_beams_extend_witness :
  _get_topk_beams example_greedy_model example_greedy_tokens example_greedy_scores
    [false] 1 1
  = Ok ([[1; 0; 0]], example_greedy_scores)
  /\ length [[1; 0; 0]] = (1 * n_beams example_greedy_model)%nat.
Proof.
  assert (_get_topk_beams example_greedy_model example_greedy_tokens
            example_greedy_scores [false] 1 1
          = Ok ([[1; 0; 0]], example_greedy_scores)) as H
    by (vm_compute; reflexivity).
  split; [exact H|].
  exact (proj1 (topk_beams_extend _ _ _ _ _ _ _ _ H)).
Defined.

(** ** The learning rate scheduler *)

(** X19.  [get_lr_factor] raises [ZeroDivisionError] exactly when
    [max_iters] is 0, or [warmup] is 0 and the epoch is not past it, and
    returns a factor otherwise.  A scheduler with [warmup = 0] cannot
    compute the learning rates of its first epoch, 0: [get_lr] raises. *)
Theorem scheduler_zero_division np_cos self epoch :
  (get_lr_factor np_cos self epoch = Raise ZeroDivisionError
   <-> max_iters self = 0 \/ (warmup self = 0 /\ epoch <= 0))
  /\ (is_Ok (get_lr_factor np_cos self epoch)
      <-> max_iters self <> 0 /\ (warmup self = 0 -> 0 < epoch))
  /\ (warmup self = 0 -> last_epoch self = 0 ->
      get_lr np_cos self = Raise ZeroDivisionError).
Proof.
  assert (get_lr_factor np_cos self epoch = Raise ZeroDivisionError
          <-> max_iters self = 0 \/ (warmup self = 0 /\ epoch <= 0)) as H1.
  { unfold get_lr_factor. destruct (Z.eqb_spec (max_iters self) 0) as [E|E].
    - split; auto.
    - destruct (Z.leb_spec epoch (warmup self)) as [Hle|Hgt].
      + destruct (Z.eqb_spec (warmup self) 0) as [E'|E'].
        * split; [intros _; right; lia|done].
        * split; [discriminate|]. intros [?|[? _]]; done.
      + split; [discriminate|]. intros [?|[? ?]]; [done|lia]. }
  split; [exact H1|]. split.
  - destruct (get_lr_factor np_cos self epoch) as [x|e] eqn:E; simpl.
    + split; [intros _|done].
      assert (~ (max_iters self = 0 \/ warmup self = 0 /\ epoch <= 0)) as Hn.
      { intros Hc. apply H1 in Hc. discriminate. }
      lia.
    + split; [done|]. intros [Hm Hw].
      unfold get_lr_factor in E.
      destruct (Z.eqb_spec (max_iters self) 0); [done|].
      destruct (Z.leb_spec epoch (warmup self)); [|discriminate].
      destruct (Z.eqb_spec (warmup self) 0); [lia|discriminate].
  - intros Hw He. unfold get_lr. rewrite He.
    assert (get_lr_factor np_cos self 0 = Raise ZeroDivisionError) as ->; [|done].
    unfold get_lr_factor. destruct (max_iters self =? 0); [done|].
    rewrite Hw. done.
Qed.

(** ** The log of the epochs *)

(** X20.  [_log_history] sends nothing for an empty history; it sends
    the header exactly when the history has one record; with [n_log = 0]
    and a record in the history it raises [ZeroDivisionError]; and the
    scalars it sends to the [SummaryWriter] are never NaN. *)
Theorem log_history_events self :
  (_history self = [] -> _log_history self = ([], Ok tt))
  /\ (logger_info (log_header self) [] ∈ (_log_history self).1
      <-> length (_history self) = 1%nat)
  /\ (_history self <> [] -> n_log self = 0 ->
      (_log_history self).2 = Raise ZeroDivisionError)
  /\ (forall descr v s, add_scalar descr v s ∈ (_log_history self).1 ->
        is_nan v = false /\ tb_summarywriter self = true).
Proof.
  split; [|split; [|split]].
  - unfold _log_history. now intros ->.
  - unfold _log_history. destruct (last (_history self)) as [metrics|] eqn:El.
    2:{ apply last_None in El. rewrite El. simpl. split; [|done].
        now intros ?%elem_of_nil. }
    destruct (Nat.eqb_spec (length (_history self)) 1) as [E|E].
    + split; [done|]. intros _.
      destruct (n_log self =? 0); simpl; [now left|].
      destruct (_ mod _ =? 0); simpl; now left.
    + split; [|done]. intros H. exfalso.
      destruct (n_log self =? 0); simpl in H; [now apply elem_of_nil in H|].
      destruct (_ mod _ =? 0); simpl in H; [|now apply elem_of_nil in H].
      apply elem_of_cons in H as [H|H]; [discriminate|].
      destruct (tb_summarywriter self); [|now apply elem_of_nil in H].
      unfold log_scalars in H. apply list_elem_of_omap in H as ([d k] & _ & H).
      now destruct (is_nan _).
  - intros Hne Hn. unfold _log_history.
    destruct (last (_history self)) as [metrics|] eqn:El.
    + now rewrite Hn.
    + now apply last_None in El.
  - intros descr v s. unfold _log_history.
    destruct (last (_history self)) as [metrics|]; [|now intros ?%elem_of_nil].
    assert (forall header : list log_event,
              (header = [logger_info (log_header self) []] \/ header = []) ->
              add_scalar descr v s ∈ header -> False) as Hh.
    { intros header [-> | ->] H; [|now apply elem_of_nil in H].
      apply list_elem_of_singleton in H. discriminate. }
    assert ((if (length (_history self) =? 1)%nat
             then [logger_info (log_header self) []] else [])
            = [logger_info (log_header self) []]
            \/ (if (length (_history self) =? 1)%nat
                then [logger_info (log_header self) []] else []) = []) as Hcase
      by (destruct (_ =? 1)%nat; auto).
    destruct (n_log self =? 0); simpl; [intros H; destruct (Hh _ Hcase H)|].
    destruct (_ mod _ =? 0); simpl; [|intros H; destruct (Hh _ Hcase H)].
    rewrite elem_of_app, elem_of_cons. intros [H|[H|H]];
      [destruct (Hh _ Hcase H)|discriminate|].
    destruct (tb_summarywriter self); [|now apply elem_of_nil in H].
    now apply log_scalars_not_nan in H as [? _].
Qed.

(** X21.  Every epoch end appends a record of its own to the history,
    so a logged line never holds both losses: the line that follows a
    training epoch has NaN for the validation loss, and the line that
    follows a validation epoch has NaN for the training loss. *)
Theorem epoch_lines_hold_one_loss self trainer msg args :
  args <> [] ->
  (logger_info msg args ∈ (on_train_epoch_end self trainer).1.2 ->
   args !! 0%nat = Some (arg_int (global_step trainer))
   /\ args !! 2%nat = Some (arg_float nan))
  /\ (logger_info msg args ∈ (on_validation_epoch_end self trainer).1.2 ->
      args !! 0%nat = Some (arg_int (global_step trainer))
      /\ args !! 1%nat = Some (arg_float nan)).
Proof.
  intros Hargs.
  assert (forall metrics,
            logger_info msg args ∈ (_log_history (append_history self metrics)).1 ->
            args = log_vals self metrics) as Hline.
  { intros metrics. rewrite log_history_last. cbv zeta.
    assert (forall header : list log_event,
              (header = [logger_info (log_header self) []] \/ header = []) ->
              logger_info msg args ∈ header -> False) as Hh.
    { intros header [-> | ->] H; [|now apply elem_of_nil in H].
      apply list_elem_of_singleton in H. injection H as _ ->. done. }
    assert ((if (length (_history self) =? 0)%nat
             then [logger_info (log_header self) []] else [])
            = [logger_info (log_header self) []]
            \/ (if (length (_history self) =? 0)%nat
                then [logger_info (log_header self) []] else []) = []) as Hcase
      by (destruct (_ =? 0)%nat; auto).
    destruct (n_log self =? 0); simpl; [intros H; destruct (Hh _ Hcase H)|].
    destruct (_ mod _ =? 0); simpl; [|intros H; destruct (Hh _ Hcase H)].
    rewrite elem_of_app, elem_of_cons. intros [H|[H|H]];
      [destruct (Hh _ Hcase H)|now injection H|].
    destruct (tb_summarywriter self); [|now apply elem_of_nil in H].
    unfold log_scalars in H. apply list_elem_of_omap in H as ([d k] & _ & H).
    now destruct (is_nan _). }
  split.
  - unfold on_train_epoch_end.
    destruct (dict_getitem (callback_metrics trainer) "train_CELoss") as [train_loss|];
      simpl; [|now intros ?%elem_of_nil].
    intros ->%Hline. done.
  - unfold on_validation_epoch_end.
    destruct (read_metrics _ _) as [items|] eqn:E; simpl; [|now intros ?%elem_of_nil].
    intros ->%Hline. split; [done|]. simpl. do 2 f_equal.
    unfold metrics_get. simpl. rewrite dict_getitem_None; [done|].
    rewrite (read_metrics_keys _ _ _ E).
    destruct (calculate_precision self); simpl; intros H;
      repeat (apply elem_of_cons in H as [H|H]; [discriminate|]);
      now apply elem_of_nil in H.
Qed.

Lemma epoch_lines_hold_one_loss_witness :
  (on_train_epoch_end example_history example_trainer).1.2
  = [logger_info (log_header example_history) [];
     logger_info (log_msg example_history)
       [arg_int 10; arg_float 0.5; arg_float nan];
     add_scalar "loss/train_crossentropy_loss" 0.5 10]
  /\ [arg_int 10; arg_float 0.5; arg_float nan] !! 2%nat = Some (arg_float nan).
Proof.
  assert ((on_train_epoch_end example_history example_trainer).1.2
          = [logger_info (log_header example_history) [];
             logger_info (log_msg example_history)
               [arg_int 10; arg_float 0.5; arg_float nan];
             add_scalar "loss/train_crossentropy_loss" 0.5 10]) as H
    by (vm_compute; reflexivity).
  split; [exact H|].
  destruct (epoch_lines_hold_one_loss example_history example_trainer
              (log_msg example_history)
              [arg_int 10; arg_float 0.5; arg_float nan]) as [H1 _];
    [discriminate|].
  apply H1. rewrite H. right. left.
Defined.
